(** * playmarkets-sdk: a shallow embedding of the prediction-market core

    The development follows the TypeScript sources:
    - [core/types.ts]      the data model (Market, MarketOutcome, Bet, User,
                           error codes, events);
    - [utils/odds.ts]      calculateOdds, calculatePotentialPayout,
                           calculatePayouts;
    - [utils/validation.ts] the three precondition checks;
    - [adapters/storage.ts] MemoryStorage, three insertion-ordered maps;
    - [core/sdk.ts]        the PredictSDK facade.

    Modelling decisions.
    - In the facade and its storage, a JavaScript [number] that carries
      money, odds or a rate is an exact rational ([Qc], canonical
      fractions, so that Leibniz equality is numeric equality): IEEE-754
      rounding, NaN and the infinities are not modelled there.  What is
      stated of the facade is stated of the operations the source
      performs, in its order: one [+=], a sum taken in the order the
      source adds, a result relative to the functions of
      [utils/odds.ts].
    - [utils/odds.ts] and [utils/validation.ts] are also embedded over
      binary64 ([F64], [Binary64]), with rounding, NaN and the
      infinities; the statements about the rounding of odds and payouts
      and about which numbers the validations let through are made
      there.
    - Counters ([betCount]) and timestamps are integers ([Z]).
    - [Math.round x] is [floor (x + 1/2)].
    - [Date.now()] and the uuid-based id generators are inputs of the
      operations that call them.
    - A [Map<string, X>] keeps insertion order; it is a list, looked up by
      key from the front, updated in place or extended at the end. *)

From Stdlib Require Import String List ZArith QArith Qcanon Qround Bool Lia Lqa.
Import ListNotations.

Local Open Scope Qc_scope.

#[local] Arguments Qcplus : simpl never.
#[local] Arguments Qcmult : simpl never.
#[local] Arguments Qcopp : simpl never.
#[local] Arguments Qcminus : simpl never.
#[local] Arguments Qcinv : simpl never.
#[local] Arguments Qcdiv : simpl never.
#[local] Arguments Q2Qc : simpl never.

(* ------------------------------------------------------------------ *)
(** ** Numbers *)

(** A JavaScript [number]. *)
Abbreviation number := Qc.

Module Num.

Definition ofZ (z : Z) : number := Q2Qc (inject_Z z).
Definition ofNat (n : nat) : number := ofZ (Z.of_nat n).

(** [x === y], [x < y], [x <= y] on numbers, as booleans. *)
Definition eqb (x y : number) : bool := Qeq_bool x y.
Definition leb (x y : number) : bool := Qle_bool x y.
Definition ltb (x y : number) : bool := negb (Qle_bool y x).

Definition half : number := 1 / ofZ 2.

(** [Math.round]: the nearest integer, a tie goes up. *)
Definition Math_round (x : number) : number :=
  ofZ (Qfloor (this (x + half))).

(** [Math.abs]. *)
Definition Math_abs (x : number) : number :=
  if ltb x 0 then - x else x.

Definition hundred : number := ofZ 100.
Definition thousand : number := ofZ 1000.

(** [v || 0] for [v : number | undefined]. *)
Definition or0 (v : option number) : number :=
  match v with
  | Some x => x
  | None => 0
  end.

End Num.

(* ------------------------------------------------------------------ *)
(** ** Insertion-ordered maps

    [Table] is a JavaScript [Map<string, A>] whose key is computed from
    the stored value by [key]: MemoryStorage only ever calls
    [map.set(x.id, x)].  [JsMap] is the general [Map<string, V>], stored as
    the list of its entries. *)

Module Table.
Section Table.
Context {A : Type} (key : A -> string).

(** [map.get(k)] *)
Fixpoint get (m : list A) (k : string) : option A :=
  match m with
  | [] => None
  | a :: r => if String.eqb (key a) k then Some a else get r k
  end.

(** [map.set(key a, a)]: an existing entry keeps its place. *)
Fixpoint set (m : list A) (a : A) : list A :=
  match m with
  | [] => [a]
  | b :: r => if String.eqb (key b) (key a) then a :: r else b :: set r a
  end.

(** [Array.from(map.values())] *)
Definition values (m : list A) : list A := m.

End Table.
End Table.

Module JsMap.

Definition t (V : Type) : Type := list (string * V).

Definition empty {V} : t V := [].
Definition get {V} (m : t V) (k : string) : option V :=
  option_map snd (Table.get fst m k).
Definition set {V} (m : t V) (k : string) (v : V) : t V :=
  Table.set fst m (k, v).
Definition values {V} (m : t V) : list V := map snd m.

End JsMap.

(* ------------------------------------------------------------------ *)
(** ** core/types.ts *)

Inductive MarketStatus := OPEN | CLOSED | RESOLVED | CANCELLED.

Inductive OutcomeType := binary | multiple | scalar.

Inductive BetStatus := pending | confirmed | won | lost | refunded.

Definition MarketStatus_eqb (a b : MarketStatus) : bool :=
  match a, b with
  | OPEN, OPEN | CLOSED, CLOSED | RESOLVED, RESOLVED
  | CANCELLED, CANCELLED => true
  | _, _ => false
  end.


Module MarketOutcome.
Record t := mk {
  id : string;
  label : string;
  totalBets : number;
  betCount : Z;
  odds : number;
  probability : number;
}.

(** [{ ...outcome, odds, probability }] *)
Definition with_odds (o : t) (od pr : number) : t :=
  mk (id o) (label o) (totalBets o) (betCount o) od pr.

(** [outcome.totalBets += amount; outcome.betCount += 1] *)
Definition add_bet (o : t) (amount : number) : t :=
  mk (id o) (label o) (totalBets o + amount) (betCount o + 1)
     (odds o) (probability o).
End MarketOutcome.

Module Market.
Record t := mk {
  id : string;
  appId : string;
  question : string;
  description : option string;
  outcomes : list MarketOutcome.t;
  outcomeType : OutcomeType;
  status : MarketStatus;
  totalPool : number;
  feeRate : number;
  createdAt : Z;
  closesAt : Z;
  resolvedAt : option Z;
  winningOutcomeId : option string;
  metadata : option (JsMap.t string);
  allowedBettors : option (list string);
  minBet : option number;
  maxBet : option number;
}.

Definition with_status (m : t) (s : MarketStatus) : t :=
  mk (id m) (appId m) (question m) (description m) (outcomes m)
     (outcomeType m) s (totalPool m) (feeRate m) (createdAt m)
     (closesAt m) (resolvedAt m) (winningOutcomeId m) (metadata m)
     (allowedBettors m) (minBet m) (maxBet m).

Definition with_outcomes (m : t) (os : list MarketOutcome.t) : t :=
  mk (id m) (appId m) (question m) (description m) os
     (outcomeType m) (status m) (totalPool m) (feeRate m) (createdAt m)
     (closesAt m) (resolvedAt m) (winningOutcomeId m) (metadata m)
     (allowedBettors m) (minBet m) (maxBet m).

Definition with_totalPool (m : t) (p : number) : t :=
  mk (id m) (appId m) (question m) (description m) (outcomes m)
     (outcomeType m) (status m) p (feeRate m) (createdAt m)
     (closesAt m) (resolvedAt m) (winningOutcomeId m) (metadata m)
     (allowedBettors m) (minBet m) (maxBet m).

(** [status = 'RESOLVED'; resolvedAt = now; winningOutcomeId = w] *)
Definition resolved (m : t) (now : Z) (w : string) : t :=
  mk (id m) (appId m) (question m) (description m) (outcomes m)
     (outcomeType m) RESOLVED (totalPool m) (feeRate m) (createdAt m)
     (closesAt m) (Some now) (Some w) (metadata m)
     (allowedBettors m) (minBet m) (maxBet m).

Definition with_metadata (m : t) (md : option (JsMap.t string)) : t :=
  mk (id m) (appId m) (question m) (description m) (outcomes m)
     (outcomeType m) (status m) (totalPool m) (feeRate m) (createdAt m)
     (closesAt m) (resolvedAt m) (winningOutcomeId m) md
     (allowedBettors m) (minBet m) (maxBet m).
End Market.

Module Bet.
Record t := mk {
  id : string;
  marketId : string;
  bettorId : string;
  outcomeId : string;
  amount : number;
  potentialPayout : number;
  status : BetStatus;
  payout : option number;
  createdAt : Z;
  oddsAtBet : number;
}.

(** [bet.status = s; bet.payout = p] *)
Definition settle (b : t) (s : BetStatus) (p : number) : t :=
  mk (id b) (marketId b) (bettorId b) (outcomeId b) (amount b)
     (potentialPayout b) s (Some p) (createdAt b) (oddsAtBet b).
End Bet.

Module User.
Record t := mk {
  id : string;
  balance : number;
  totalBets : number;
  totalWon : number;
  totalLost : number;
  createdAt : Z;
}.
End User.

(** [ErrorCodes] *)
Inductive ErrorCode :=
  | INVALID_INPUT | INTERNAL_ERROR | NOT_FOUND | UNAUTHORIZED | FORBIDDEN
  | CONFLICT | TOO_MANY_REQUESTS | BAD_GATEWAY | SERVICE_UNAVAILABLE
  | GATEWAY_TIMEOUT | MARKET_NOT_FOUND | BET_NOT_FOUND | USER_NOT_FOUND
  | MARKET_ALREADY_CREATED | BET_ALREADY_PLACED | USER_ALREADY_CREATED
  | MARKET_NOT_OPEN | MARKET_NOT_CLOSED | MARKET_NOT_RESOLVED
  | INVALID_CONFIG | INSUFFICIENT_BALANCE.

(** [PredictSDKError]: the machine-readable code and the message. *)
Record PredictSDKError := mkError {
  code : ErrorCode;
  message : string;
}.

(** The outcome of a call that may throw. *)
Inductive Result (A : Type) :=
  | Ok (a : A)
  | Throw (e : PredictSDKError).
Arguments Ok {A} a.
Arguments Throw {A} e.

(** The call returned (it did not throw). *)
Definition is_ok {A : Type} (r : Result A) : bool :=
  match r with
  | Ok _ => true
  | Throw _ => false
  end.

(* ------------------------------------------------------------------ *)
(** ** utils/odds.ts *)

(** [market.outcomes.find((o) => o.id === outcomeId)] *)
Definition find_outcome (os : list MarketOutcome.t) (outcomeId : string)
  : option MarketOutcome.t :=
  find (fun o => String.eqb (MarketOutcome.id o) outcomeId) os.

Definition calculateOdds (market : Market.t) : list MarketOutcome.t :=
  let totalPool := Market.totalPool market in
  let feePool := totalPool * Market.feeRate market in
  let payoutPool := totalPool - feePool in
  map (fun outcome =>
         if Num.eqb (MarketOutcome.totalBets outcome) 0
            || Num.eqb totalPool 0
         then
           MarketOutcome.with_odds outcome
             (Num.ofNat (length (Market.outcomes market)))
             (1 / Num.ofNat (length (Market.outcomes market)))
         else
           let odds := payoutPool / MarketOutcome.totalBets outcome in
           let probability := MarketOutcome.totalBets outcome / totalPool in
           MarketOutcome.with_odds outcome
             (Num.Math_round (odds * Num.hundred) / Num.hundred)
             (Num.Math_round (probability * Num.thousand) / Num.thousand))
      (Market.outcomes market).

(** Division by a zero [payoutPool] yields [Infinity] or [NaN] in the
    source and [0] here; no statement below reads this value. *)
Definition calculatePotentialPayout
  (amount : number) (outcomeId : string) (market : Market.t) : number :=
  match find_outcome (Market.outcomes market) outcomeId with
  | None => 0
  | Some outcome =>
      let totalPool := Market.totalPool market + amount in
      let feePool := totalPool * Market.feeRate market in
      let payoutPool := totalPool - feePool in
      let outcomePool := MarketOutcome.totalBets outcome + amount in
      let payout := outcomePool / payoutPool in
      Num.Math_round (payout * Num.hundred) / Num.hundred
  end.

(** The element type of the [bets] argument of [calculatePayouts]. *)
Record Stake := mkStake {
  stake_bettorId : string;
  stake_outcomeId : string;
  stake_amount : number;
}.

(** The body of the first loop of [calculatePayouts] (refund branch). *)
Definition refund_step (payouts : JsMap.t number) (bet : Stake)
  : JsMap.t number :=
  let currentPayout := Num.or0 (JsMap.get payouts (stake_bettorId bet)) in
  let refund := currentPayout + stake_amount bet in
  JsMap.set payouts (stake_bettorId bet) refund.

(** The body of the second loop (a winner exists and has stake). *)
Definition payout_step (winningOutcomeId : string)
  (winningTotal payoutPool : number)
  (payouts : JsMap.t number) (bet : Stake) : JsMap.t number :=
  if String.eqb (stake_outcomeId bet) winningOutcomeId then
    let share := stake_amount bet / winningTotal in
    let payout := share * payoutPool in
    let currentPayout := Num.or0 (JsMap.get payouts (stake_bettorId bet)) in
    JsMap.set payouts (stake_bettorId bet)
      (currentPayout + Num.Math_round (payout * Num.hundred) / Num.hundred)
  else payouts.

Definition calculatePayouts (market : Market.t) (winningOutcomeId : string)
  (bets : list Stake) : JsMap.t number :=
  let payouts := JsMap.empty in
  let totalPool := Market.totalPool market in
  let feePool := totalPool * Market.feeRate market in
  let payoutPool := totalPool - feePool in
  match find_outcome (Market.outcomes market) winningOutcomeId with
  | None => fold_left refund_step bets payouts
  | Some winningOutcome =>
      if Num.eqb (MarketOutcome.totalBets winningOutcome) 0
      then fold_left refund_step bets payouts
      else fold_left
             (payout_step winningOutcomeId
                (MarketOutcome.totalBets winningOutcome) payoutPool)
             bets payouts
  end.

(* ------------------------------------------------------------------ *)
(** ** Inputs of the facade (core/types.ts) *)

(** An element of [CreateMarketInput.outcomes]: a bare label or an
    [{ id, label }] object. *)
Inductive OutcomeInput :=
  | OutcomeLabel (label : string)
  | OutcomeObject (id label : string).

Module CreateMarketInput.
Record t := mk {
  question : string;
  description : option string;
  outcomes : list OutcomeInput;
  closesAt : Z;
  outcomeType : option OutcomeType;
  feeRate : option number;
  metadata : option (JsMap.t string);
  allowedBettors : option (list string);
  minBet : option number;
  maxBet : option number;
}.
End CreateMarketInput.

Module placeBetInput.
Record t := mk {
  marketId : string;
  bettorId : string;
  outcomeId : string;
  amount : number;
}.
End placeBetInput.

Module resolveMarketInput.
Record t := mk {
  marketId : string;
  winningOutcomeId : string;
  proof : option string;
}.
End resolveMarketInput.

Definition throw {A : Type} (c : ErrorCode) (msg : string) : Result A :=
  Throw (mkError c msg).

(* ------------------------------------------------------------------ *)
(** ** utils/validation.ts *)

(** [now] is the value of [Date.now()]. *)
Definition validateCreateMarketInput (now : Z) (input : CreateMarketInput.t)
  : Result unit :=
  if String.eqb (CreateMarketInput.question input) "" then
    throw INVALID_CONFIG "Question is required and must be a string"
  else if (length (CreateMarketInput.outcomes input) <? 2)%nat then
    throw INVALID_CONFIG
      "Outcomes are required and must be an array of at least 2 strings"
  else if (CreateMarketInput.closesAt input <=? now)%Z then
    throw INVALID_CONFIG "closesAt must be a valid future timestamp"
  else if match CreateMarketInput.feeRate input with
          | Some f => Num.ltb f 0 || Num.ltb Num.half f
          | None => false
          end then
    throw INVALID_CONFIG "feeRate must be a number between 0 and 0.5"
  else if match CreateMarketInput.minBet input,
                 CreateMarketInput.maxBet input with
          | Some lo, Some hi => Num.ltb hi lo
          | _, _ => false
          end then
    throw INVALID_CONFIG "minBet must be less than maxBet"
  else if match CreateMarketInput.minBet input with
          | Some lo => Num.ltb lo 0
          | None => false
          end then
    throw INVALID_CONFIG "minBet must be a positive number"
  else if match CreateMarketInput.maxBet input with
          | Some hi => Num.ltb hi 0
          | None => false
          end then
    throw INVALID_CONFIG "maxBet must be a positive number"
  else Ok tt.

(** [allowedBettors.includes(bettorId)] *)
Definition includes (l : list string) (x : string) : bool :=
  existsb (String.eqb x) l.

Definition validatePlaceBet (now : Z) (input : placeBetInput.t)
  (market : Market.t) : Result unit :=
  if negb (MarketStatus_eqb (Market.status market) OPEN) then
    throw INVALID_INPUT "Market is not open"
  else if (Market.closesAt market <? now)%Z then
    throw INVALID_INPUT "Market is closed"
  else match find_outcome (Market.outcomes market)
               (placeBetInput.outcomeId input) with
  | None => throw INVALID_INPUT "Outcome not found"
  | Some _ =>
    if Num.leb (placeBetInput.amount input) 0 then
      throw INVALID_INPUT "Amount must be a positive number"
    else if match Market.minBet market with
            | Some lo => Num.ltb (placeBetInput.amount input) lo
            | None => false
            end then
      throw INVALID_INPUT "Amount must be greater than or equal to minBet"
    else if match Market.maxBet market with
            | Some hi => Num.ltb hi (placeBetInput.amount input)
            | None => false
            end then
      throw INVALID_INPUT "Amount must be less than or equal to maxBet"
    else if match Market.allowedBettors market with
            | Some l => negb (includes l (placeBetInput.bettorId input))
            | None => false
            end then
      throw INVALID_INPUT "Bettor is not allowed to bet on this market"
    else Ok tt
  end.

Definition validateResolveMarket (input : resolveMarketInput.t)
  (market : Market.t) : Result unit :=
  if negb (MarketStatus_eqb (Market.status market) RESOLVED) then
    throw INVALID_INPUT "Market is not resolved"
  else match Market.winningOutcomeId market with
  | None => throw INVALID_INPUT "Winning outcome is not set"
  | Some _ =>
    match find_outcome (Market.outcomes market)
            (resolveMarketInput.winningOutcomeId input) with
    | None => throw INVALID_INPUT "Outcome not found"
    | Some _ => Ok tt
    end
  end.

(* ------------------------------------------------------------------ *)
(** ** adapters/storage.ts: MemoryStorage *)

Record MemoryStorage := mkStorage {
  markets : list Market.t;
  bets : list Bet.t;
  users : list User.t;
}.

Definition MemoryStorage_new : MemoryStorage := mkStorage [] [] [].

(** ** utils/events.ts: the events the facade emits, in order *)

Inductive SDKEvent :=
  | market_created (market : Market.t)
  | market_resolved (market : Market.t) (winningOutcomeId : string)
  | market_cancelled (market : Market.t)
  | market_updated (market : Market.t)
  | market_closed (market : Market.t)
  | bet_placed (bet : Bet.t) (market : Market.t)
  | bet_confirmed (bet : Bet.t) (market : Market.t)
  | bet_won (bet : Bet.t) (market : Market.t)
  | bet_lost (bet : Bet.t) (market : Market.t)
  | bet_refunded (bet : Bet.t) (market : Market.t)
  | user_created (user : User.t)
  | user_balanceChanged (user : User.t) (balance : number).

(* ------------------------------------------------------------------ *)
(** ** core/sdk.ts: PredictSDK

    The state of a [PredictSDK] instance is its storage and the sequence
    of events it has emitted (no listener is registered).  An [async]
    method is a computation in the state-and-exception monad [M]: a throw
    keeps the state reached so far, as the source does (nothing is rolled
    back). *)

Record State := mkState {
  storage : MemoryStorage;
  emitted : list SDKEvent;
}.

(** [Required<SDKConfig>] without the storage, which is in [State]. *)
Record Config := mkConfig {
  appId : string;
  defaultFeeRate : number;
  initialBalance : number;
  debug : bool;
}.

(** The constructor's defaults: [?? 0.02], [?? 1000], [?? false]. *)
Definition Config_new (appId : string) (defaultFeeRate initialBalance :
  option number) (debug : option bool) : Config :=
  mkConfig appId
    (match defaultFeeRate with
     | Some f => f
     | None => Num.ofZ 2 / Num.hundred
     end)
    (match initialBalance with
     | Some b => b
     | None => Num.thousand
     end)
    (match debug with
     | Some d => d
     | None => false
     end).

Definition State_new : State := mkState MemoryStorage_new [].

Definition M (A : Type) : Type := State -> Result A * State.

Definition ret {A} (a : A) : M A := fun s => (Ok a, s).

Definition bind {A B} (c : M A) (k : A -> M B) : M B :=
  fun s =>
    match c s with
    | (Ok a, s') => k a s'
    | (Throw e, s') => (Throw e, s')
    end.

Definition raise {A} (c : ErrorCode) (msg : string) : M A :=
  fun s => (throw c msg, s).

(** A synchronous check that may throw. *)
Definition check {A} (r : Result A) : M A := fun s => (r, s).

Notation "x <- c ;; k" := (bind c (fun x => k))
  (at level 61, c at next level, right associativity).
Notation "c ;;; k" := (bind c (fun _ => k))
  (at level 61, right associativity).

(** [for (const x of xs) { await body(x) }] *)
Fixpoint for_of {A} (xs : list A) (body : A -> M unit) : M unit :=
  match xs with
  | [] => ret tt
  | x :: r => body x ;;; for_of r body
  end.

(** The final state and the result of a call. *)
Definition state_after {A} (c : M A) (s : State) : State := snd (c s).
Definition result_of {A} (c : M A) (s : State) : Result A := fst (c s).

(** *** Storage accessors *)

Definition storage_getMarket (id : string) : M (option Market.t) :=
  fun s => (Ok (Table.get Market.id (markets (storage s)) id), s).

Definition storage_getAllMarkets : M (list Market.t) :=
  fun s => (Ok (Table.values (markets (storage s))), s).

Definition storage_saveMarket (market : Market.t) : M unit :=
  fun s =>
    (Ok tt,
     mkState (mkStorage (Table.set Market.id (markets (storage s)) market)
                (bets (storage s)) (users (storage s)))
       (emitted s)).

Definition storage_getBet (id : string) : M (option Bet.t) :=
  fun s => (Ok (Table.get Bet.id (bets (storage s)) id), s).

Definition storage_getAllBets : M (list Bet.t) :=
  fun s => (Ok (Table.values (bets (storage s))), s).

Definition storage_saveBet (bet : Bet.t) : M unit :=
  fun s =>
    (Ok tt,
     mkState (mkStorage (markets (storage s))
                (Table.set Bet.id (bets (storage s)) bet)
                (users (storage s)))
       (emitted s)).

Definition storage_getUser (id : string) : M (option User.t) :=
  fun s => (Ok (Table.get User.id (users (storage s)) id), s).

Definition storage_saveUser (user : User.t) : M unit :=
  fun s =>
    (Ok tt,
     mkState (mkStorage (markets (storage s)) (bets (storage s))
                (Table.set User.id (users (storage s)) user))
       (emitted s)).

Definition storage_clear : M unit :=
  fun s => (Ok tt, mkState MemoryStorage_new (emitted s)).

(** [this.events.emit(event)] *)
Definition emit (e : SDKEvent) : M unit :=
  fun s => (Ok tt, mkState (storage s) (emitted s ++ [e])).

(** [bets.filter((b) => b.marketId === id)] *)
Definition bets_of_market (id : string) (all : list Bet.t) : list Bet.t :=
  filter (fun b => String.eqb (Bet.marketId b) id) all.

Definition stake_of (b : Bet.t) : Stake :=
  mkStake (Bet.bettorId b) (Bet.outcomeId b) (Bet.amount b).

(** [storage.getMarket(id)] followed by the [MARKET_NOT_FOUND] guard. *)
Definition load_market (marketId : string) : M Market.t :=
  market <- storage_getMarket marketId ;;
  match market with
  | None => raise MARKET_NOT_FOUND ("Market " ++ marketId ++ " not found")
  | Some m => ret m
  end.

(** [array.map((x, i) => f i x)] *)
Fixpoint mapi_from {A B} (f : nat -> A -> B) (i : nat) (l : list A)
  : list B :=
  match l with
  | [] => []
  | x :: r => f i x :: mapi_from f (S i) r
  end.

(** The first element satisfying [p] is replaced by its image under [f]:
    [const o = os.find(p)!; o.field = ...]. *)
Fixpoint update_first {A} (p : A -> bool) (f : A -> A) (l : list A)
  : list A :=
  match l with
  | [] => []
  | x :: r => if p x then f x :: r else x :: update_first p f r
  end.

(** The value returned by [getMarketStats]. *)
Record MarketStats := mkStats {
  stats_totalPool : number;
  stats_totalBets : Z;
  stats_outcomeStats : list MarketOutcome.t;
}.

Section PredictSDK.

Variable config : Config.

(** [now] is the clock reading of the call, [marketId] the value of
    [generateMarketId()], and [genOutcomeId i] the value of
    [generateOutcomeId()] for the outcome at index [i]. *)
Definition createMarket (now : Z) (marketId : string)
  (genOutcomeId : nat -> string) (input : CreateMarketInput.t)
  : M Market.t :=
  check (validateCreateMarketInput now input) ;;;
  let closesAt := CreateMarketInput.closesAt input in
  let n := length (CreateMarketInput.outcomes input) in
  let outcomes :=
    mapi_from
      (fun i o =>
         match o with
         | OutcomeLabel l =>
             MarketOutcome.mk (genOutcomeId i) l 0 0%Z
               (Num.ofNat n) (1 / Num.ofNat n)
         | OutcomeObject oid l =>
             MarketOutcome.mk
               (if String.eqb oid "" then genOutcomeId i else oid) l
               0 0%Z (Num.ofNat n) (1 / Num.ofNat n)
         end)
      0%nat (CreateMarketInput.outcomes input) in
  let market :=
    Market.mk marketId (appId config)
      (CreateMarketInput.question input)
      (CreateMarketInput.description input)
      outcomes
      (match CreateMarketInput.outcomeType input with
       | Some t => t
       | None => binary
       end)
      OPEN 0
      (match CreateMarketInput.feeRate input with
       | Some f => f
       | None => defaultFeeRate config
       end)
      now closesAt None None
      (CreateMarketInput.metadata input)
      (CreateMarketInput.allowedBettors input)
      (CreateMarketInput.minBet input)
      (CreateMarketInput.maxBet input) in
  storage_saveMarket market ;;;
  emit (market_created market) ;;;
  ret market.

(** MemoryStorage hands out the stored object itself, so the assignment
    [market.outcomes = calculateOdds(market)] also changes the stored
    market; this is the [storage_saveMarket] below. *)
Definition getMarket (marketId : string) : M (option Market.t) :=
  market <- storage_getMarket marketId ;;
  match market with
  | None => ret None
  | Some m =>
      let m' := Market.with_outcomes m (calculateOdds m) in
      storage_saveMarket m' ;;;
      ret (Some m')
  end.

Definition getAllMarkets (status : option MarketStatus)
  (appIdFilter : option string) : M (list Market.t) :=
  all <- storage_getAllMarkets ;;
  let byStatus :=
    match status with
    | Some st => filter (fun m => MarketStatus_eqb (Market.status m) st) all
    | None => all
    end in
  let byApp :=
    match appIdFilter with
    | Some a =>
        if String.eqb a "" then byStatus
        else filter (fun m => String.eqb (Market.appId m) a) byStatus
    | None => byStatus
    end in
  ret (map (fun m => Market.with_outcomes m (calculateOdds m)) byApp).

Definition closeMarket (marketId : string) : M Market.t :=
  market <- load_market marketId ;;
  let market := Market.with_status market CLOSED in
  storage_saveMarket market ;;;
  emit (market_closed market) ;;;
  ret market.

Definition getOrCreateUser (now : Z) (userId : string) : M User.t :=
  user <- storage_getUser userId ;;
  match user with
  | Some u => ret u
  | None =>
      let u := User.mk userId (initialBalance config) 0 0 0 now in
      storage_saveUser u ;;;
      emit (user_created u) ;;;
      ret u
  end.

Definition getUser (userId : string) : M (option User.t) :=
  storage_getUser userId.

Definition updateUserBalance (now : Z) (userId : string) (delta : number)
  : M User.t :=
  user <- getOrCreateUser now userId ;;
  let balance := User.balance user + delta in
  let user :=
    if Num.ltb 0 delta then
      User.mk (User.id user) balance (User.totalBets user)
        (User.totalWon user + delta) (User.totalLost user)
        (User.createdAt user)
    else
      User.mk (User.id user) balance
        (User.totalBets user + Num.Math_abs delta)
        (User.totalWon user) (User.totalLost user)
        (User.createdAt user) in
  storage_saveUser user ;;;
  emit (user_balanceChanged user (User.balance user)) ;;;
  ret user.

(** The body of the loop of [resolveMarket]; [market] is the market
    after it was marked resolved. *)
Definition resolve_bet (now : Z) (market : Market.t)
  (winningOutcomeId : string) (payouts : JsMap.t number) (bet : Bet.t)
  : M unit :=
  let isWinner := String.eqb (Bet.outcomeId bet) winningOutcomeId in
  let payout := Num.or0 (JsMap.get payouts (Bet.bettorId bet)) in
  let bet :=
    Bet.settle bet (if isWinner then won else lost)
      (if isWinner then payout else 0) in
  storage_saveBet bet ;;;
  if isWinner && Num.ltb 0 payout then
    updateUserBalance now (Bet.bettorId bet) payout ;;;
    emit (bet_won bet market)
  else
    emit (bet_lost bet market).

Definition resolveMarket (now : Z) (input : resolveMarketInput.t)
  : M Market.t :=
  market <- load_market (resolveMarketInput.marketId input) ;;
  check (validateResolveMarket input market) ;;;
  allBets <- storage_getAllBets ;;
  let bets := bets_of_market (Market.id market) allBets in
  let winningOutcomeId := resolveMarketInput.winningOutcomeId input in
  let payouts :=
    calculatePayouts market winningOutcomeId (map stake_of bets) in
  let market := Market.resolved market now winningOutcomeId in
  storage_saveMarket market ;;;
  for_of bets (resolve_bet now market winningOutcomeId payouts) ;;;
  emit (market_resolved market winningOutcomeId) ;;;
  ret market.

(** The body of the loop of [cancelMarket]. *)
Definition refund_bet (now : Z) (market : Market.t) (bet : Bet.t)
  : M unit :=
  let bet := Bet.settle bet refunded (Bet.amount bet) in
  storage_saveBet bet ;;;
  updateUserBalance now (Bet.bettorId bet) (Bet.amount bet) ;;;
  emit (bet_refunded bet market).

Definition cancelMarket (now : Z) (marketId : string)
  (reason : option string) : M Market.t :=
  market <- load_market marketId ;;
  if MarketStatus_eqb (Market.status market) RESOLVED then
    raise CONFLICT "Cannot cancel a resolved market"
  else
    allBets <- storage_getAllBets ;;
    let bets := bets_of_market (Market.id market) allBets in
    for_of bets (refund_bet now market) ;;;
    let cancelled := Market.with_status market CANCELLED in
    let cancelled :=
      match reason with
      | Some r =>
          if String.eqb r "" then cancelled
          else
            Market.with_metadata cancelled
              (Some (JsMap.set
                       (match Market.metadata cancelled with
                        | Some md => md
                        | None => JsMap.empty
                        end)
                       "cancelReason" r))
      | None => cancelled
      end in
    storage_saveMarket cancelled ;;;
    emit (market_cancelled cancelled) ;;;
    ret cancelled.

Definition getMarketStats (marketId : string) : M MarketStats :=
  market <- load_market marketId ;;
  let totalBets :=
    fold_left (fun sum o => (sum + MarketOutcome.betCount o)%Z)
      (Market.outcomes market) 0%Z in
  ret (mkStats (Market.totalPool market) totalBets
         (Market.outcomes market)).

(** [betId] is the value of [generateBetId()].  The message of the
    [INSUFFICIENT_BALANCE] error interpolates two numbers in the source;
    only its fixed part is kept. *)
Definition placeBet (now : Z) (betId : string) (input : placeBetInput.t)
  : M Bet.t :=
  market <- load_market (placeBetInput.marketId input) ;;
  check (validatePlaceBet now input market) ;;;
  user <- getOrCreateUser now (placeBetInput.bettorId input) ;;
  if Num.ltb (User.balance user) (placeBetInput.amount input) then
    raise INSUFFICIENT_BALANCE "Insufficient balance"
  else
    let currentOdds := calculateOdds market in
    let outcomeOdds :=
      match find_outcome currentOdds (placeBetInput.outcomeId input) with
      | Some o => MarketOutcome.odds o
      | None => 0
      end in
    let potentialPayout :=
      calculatePotentialPayout (placeBetInput.amount input)
        (placeBetInput.outcomeId input) market in
    let bet :=
      Bet.mk betId (Market.id market) (placeBetInput.bettorId input)
        (placeBetInput.outcomeId input) (placeBetInput.amount input)
        potentialPayout confirmed None now outcomeOdds in
    let market :=
      Market.with_outcomes market
        (update_first
           (fun o => String.eqb (MarketOutcome.id o)
                       (placeBetInput.outcomeId input))
           (fun o => MarketOutcome.add_bet o (placeBetInput.amount input))
           (Market.outcomes market)) in
    let market :=
      Market.with_totalPool market
        (Market.totalPool market + placeBetInput.amount input) in
    let market := Market.with_outcomes market (calculateOdds market) in
    updateUserBalance now (placeBetInput.bettorId input)
      (- placeBetInput.amount input) ;;;
    storage_saveBet bet ;;;
    storage_saveMarket market ;;;
    emit (bet_placed bet market) ;;;
    ret bet.

Definition getBet (betId : string) : M (option Bet.t) :=
  storage_getBet betId.

Definition getBetsByMarket (marketId : string) : M (list Bet.t) :=
  allBets <- storage_getAllBets ;;
  ret (bets_of_market marketId allBets).

Definition getBetsByUser (userId : string) : M (list Bet.t) :=
  allBets <- storage_getAllBets ;;
  ret (filter (fun b => String.eqb (Bet.bettorId b) userId) allBets).

Definition calculatePayout (marketId outcomeId : string)
  (amount : number) : M number :=
  market <- load_market marketId ;;
  ret (calculatePotentialPayout amount outcomeId market).

Definition addFunds (now : Z) (userId : string) (amount : number)
  : M User.t :=
  if Num.leb amount 0 then raise INVALID_INPUT "Amount must be positive"
  else updateUserBalance now userId amount.

Definition getConfig : M Config := ret config.

(** The loop of [checkAndCloseExpiredMarkets]; [closed] accumulates the
    markets pushed so far. *)
Fixpoint close_expired (now : Z) (ms : list Market.t)
  (closed : list Market.t) : M (list Market.t) :=
  match ms with
  | [] => ret closed
  | market :: r =>
      if MarketStatus_eqb (Market.status market) OPEN
         && (Market.closesAt market <=? now)%Z
      then
        let market := Market.with_status market CLOSED in
        storage_saveMarket market ;;;
        emit (market_closed market) ;;;
        close_expired now r (closed ++ [market])
      else close_expired now r closed
  end.

Definition checkAndCloseExpiredMarkets (now : Z) : M (list Market.t) :=
  all <- storage_getAllMarkets ;;
  close_expired now all [].

Definition clear : M unit := storage_clear.

(** One call of a public method of the facade, from state to state.
    The ids handed out by [generateMarketId] and [generateBetId] are
    unique: they are not yet keys of the storage. *)
Inductive step : State -> State -> Prop :=
| step_createMarket s now marketId gen input :
    Table.get Market.id (markets (storage s)) marketId = None ->
    step s (state_after (createMarket now marketId gen input) s)
| step_getMarket s marketId :
    step s (state_after (getMarket marketId) s)
| step_getAllMarkets s st a :
    step s (state_after (getAllMarkets st a) s)
| step_closeMarket s marketId :
    step s (state_after (closeMarket marketId) s)
| step_resolveMarket s now input :
    step s (state_after (resolveMarket now input) s)
| step_cancelMarket s now marketId reason :
    step s (state_after (cancelMarket now marketId reason) s)
| step_getMarketStats s marketId :
    step s (state_after (getMarketStats marketId) s)
| step_placeBet s now betId input :
    Table.get Bet.id (bets (storage s)) betId = None ->
    step s (state_after (placeBet now betId input) s)
| step_getBet s betId :
    step s (state_after (getBet betId) s)
| step_getBetsByMarket s marketId :
    step s (state_after (getBetsByMarket marketId) s)
| step_getBetsByUser s userId :
    step s (state_after (getBetsByUser userId) s)
| step_calculatePayout s marketId outcomeId amount :
    step s (state_after (calculatePayout marketId outcomeId amount) s)
| step_getOrCreateUser s now userId :
    step s (state_after (getOrCreateUser now userId) s)
| step_getUser s userId :
    step s (state_after (getUser userId) s)
| step_addFunds s now userId amount :
    step s (state_after (addFunds now userId amount) s)
| step_getConfig s :
    step s (state_after getConfig s)
| step_checkAndCloseExpiredMarkets s now :
    step s (state_after (checkAndCloseExpiredMarkets now) s)
| step_clear s :
    step s (state_after clear s).

(** The states a facade over a fresh [MemoryStorage] can reach. *)
Inductive reachable : State -> Prop :=
| reachable_new : reachable State_new
| reachable_step s s' : reachable s -> step s s' -> reachable s'.

End PredictSDK.

(* ------------------------------------------------------------------ *)
(** ** Vocabulary of the specification *)


(** The sum of a list of numbers. *)
Definition sum_numbers (l : list number) : number :=
  fold_right Qcplus 0 l.

(** The sum of all amounts held by a payout map. *)
Definition total_distributed (payouts : JsMap.t number) : number :=
  sum_numbers (JsMap.values payouts).



Definition total_stake (bets : list Stake) : number :=
  sum_numbers (map stake_amount bets).



(** The balance of a user in a state.  A user that is not stored yet is
    created on first reference with the configured initial balance, which
    is therefore the balance they have. *)
Definition balance_of (config : Config) (s : State) (userId : string)
  : number :=
  match Table.get User.id (users (storage s)) userId with
  | Some u => User.balance u
  | None => initialBalance config
  end.

(** The market has an outcome with the given id. *)
Definition outcome_exists (market : Market.t) (outcomeId : string) : Prop :=
  exists o : MarketOutcome.t,
    In o (Market.outcomes market) /\ MarketOutcome.id o = outcomeId.

(** The status of a stored market. *)
Definition status_in (s : State) (marketId : string)
  : option MarketStatus :=
  option_map Market.status
    (Table.get Market.id (markets (storage s)) marketId).









(* ------------------------------------------------------------------ *)
(** ** Concrete scenarios

    All amounts below are small integers and the fee rates are 0 or 1/2,
    so the source computes the same values in double precision. *)

Module Scenario.

Local Open Scope string_scope.

Definition config : Config := Config_new "app" None None None.

(** A market with all 100 staked on outcome A, fee rate 1/2. *)
Definition outcomeA : MarketOutcome.t :=
  MarketOutcome.mk "A" "Yes" (Num.ofZ 100) 1 (Num.ofZ 2) Num.half.
Definition outcomeB : MarketOutcome.t :=
  MarketOutcome.mk "B" "No" 0 0 (Num.ofZ 2) Num.half.

Definition market : Market.t :=
  Market.mk "mkt_1" "app" "Will it rain?" None [outcomeA; outcomeB]
    binary OPEN (Num.ofZ 100) Num.half 0 1000 None None None None None
    None.


(** A run of the facade from a fresh storage: create a market, place a
    bet of 10 on A for user u1, cancel the market, then either cancel
    it again or close it. *)
Definition input : CreateMarketInput.t :=
  CreateMarketInput.mk "Will it rain?" None
    [OutcomeObject "A" "Yes"; OutcomeObject "B" "No"] 1000 (Some binary)
    (Some 0) None None None None.

Definition bet_input : placeBetInput.t :=
  placeBetInput.mk "mkt_1" "u1" "A" (Num.ofZ 10).

Definition created : State :=
  state_after (createMarket config 0 "mkt_1" (fun _ => "out_1") input)
    State_new.

Definition placed : State :=
  state_after (placeBet config 1 "bet_1" bet_input) created.

Definition cancelled : State :=
  state_after (cancelMarket config 2 "mkt_1" None) placed.

Definition cancelled_twice : State :=
  state_after (cancelMarket config 3 "mkt_1" None) cancelled.

Definition closed_after_cancel : State :=
  state_after (closeMarket "mkt_1") cancelled.

(** An imported storage: a market already marked RESOLVED (the only
    kind [validateResolveMarket] lets through) whose two bets, 10 and
    30 on A, belong to the same bettor; fee rate 0. *)
Definition resolved_market : Market.t :=
  Market.mk "mkt_r" "app" "Will it snow?" None
    [ MarketOutcome.mk "A" "Yes" (Num.ofZ 40) 2 1 1;
      MarketOutcome.mk "B" "No" 0 0 (Num.ofZ 2) Num.half ]
    binary RESOLVED (Num.ofZ 40) 0 0 1000 (Some 1500%Z) (Some "A") None
    None None None.

Definition imported : State :=
  mkState
    (mkStorage [resolved_market]
       [ Bet.mk "bet_1" "mkt_r" "u1" "A" (Num.ofZ 10) 0 confirmed None 1 1;
         Bet.mk "bet_2" "mkt_r" "u1" "A" (Num.ofZ 30) 0 confirmed None 2 1 ]
       [ User.mk "u1" (Num.ofZ 960) (Num.ofZ 40) 0 0 1 ])
    [].

Definition imported_stakes : list Stake :=
  map stake_of (bets_of_market "mkt_r" (bets (storage imported))).

Definition resolve_A : resolveMarketInput.t :=
  resolveMarketInput.mk "mkt_r" "A" None.
Definition resolve_B : resolveMarketInput.t :=
  resolveMarketInput.mk "mkt_r" "B" None.

End Scenario.

(* ------------------------------------------------------------------ *)
(** ** Binary64: the numbers of the source as they are

    A JavaScript [number] is an IEEE-754 double.  [F64] is binary64 on
    the Standard Library's executable specification of floating-point
    arithmetic: every operation rounds to nearest, ties to even, and
    NaN, the infinities and the two zeros are values.  [Binary64] embeds
    [utils/odds.ts] and [utils/validation.ts] over these numbers; it is
    where the statements about rounding and about NaN are made. *)

From Stdlib Require Import SpecFloat.

Module F64.

Definition prec : Z := 53.
Definition emax : Z := 1024.

Definition t : Type := spec_float.

Definition zero : t := S754_zero false.
Definition NaN : t := S754_nan.

(** [x + y], [x - y], [x * y], [x / y] *)
Definition add : t -> t -> t := SFadd prec emax.
Definition sub : t -> t -> t := SFsub prec emax.
Definition mul : t -> t -> t := SFmul prec emax.
Definition div : t -> t -> t := SFdiv prec emax.

(** [x === y], [x < y], [x <= y]: false as soon as one side is NaN. *)
Definition eqb : t -> t -> bool := SFeqb.
Definition ltb : t -> t -> bool := SFltb.
Definition leb : t -> t -> bool := SFleb.

(** [isNaN(x)] *)
Definition is_nan (x : t) : bool :=
  match x with
  | S754_nan => true
  | _ => false
  end.

Definition is_finite (x : t) : bool :=
  match x with
  | S754_zero _ | S754_finite _ _ _ => true
  | _ => false
  end.

(** The double nearest to an integer (the integer itself below 2^53). *)
Definition of_Z (z : Z) : t := binary_normalize prec emax z 0 false.
Definition of_nat (n : nat) : t := of_Z (Z.of_nat n).

(** The decimal literal [n/d], as the parser reads it: the double nearest
    to the fraction ([n] and [d] below 2^53). *)
Definition decimal (n d : Z) : t := div (of_Z n) (of_Z d).

Definition one : t := of_Z 1.
Definition half : t := decimal 1 2.
Definition hundred : t := of_Z 100.
Definition thousand : t := of_Z 1000.

(** The rational a finite double stands for (0 for the others). *)
Definition to_Q (x : t) : Q :=
  match x with
  | S754_finite s m e =>
      Qmult (inject_Z (cond_Zopp s (Zpos m))) (Qpower (inject_Z 2) e)
  | _ => inject_Z 0
  end.

(** The integer nearest to a rational, a tie going up. *)
Definition nearest_up (q : Q) : Z := Qfloor (Qplus q (Qmake 1 2)).

(** [Math.round(x)]: the nearest integer, a tie going up; [-0] for a
    negative [x] that rounds to zero; NaN, the infinities and the zeros
    are returned as they are. *)
Definition Math_round (x : t) : t :=
  match x with
  | S754_finite s _ _ =>
      let k := nearest_up (to_Q x) in
      if (k =? 0)%Z then S754_zero s else of_Z k
  | _ => x
  end.

(** [v || 0] for [v : number | undefined]: 0 for undefined, NaN and the
    zeros. *)
Definition or0 (v : option t) : t :=
  match v with
  | Some x => if is_nan x || eqb x zero then zero else x
  | None => zero
  end.

End F64.

Module Binary64.

Module MarketOutcome.
Record t := mk {
  id : string;
  label : string;
  totalBets : F64.t;
  betCount : F64.t;
  odds : F64.t;
  probability : F64.t;
}.

(** [{ ...outcome, odds, probability }] *)
Definition with_odds (o : t) (od pr : F64.t) : t :=
  mk (id o) (label o) (totalBets o) (betCount o) od pr.
End MarketOutcome.

Module Market.
Record t := mk {
  id : string;
  appId : string;
  question : string;
  description : option string;
  outcomes : list MarketOutcome.t;
  outcomeType : OutcomeType;
  status : MarketStatus;
  totalPool : F64.t;
  feeRate : F64.t;
  createdAt : F64.t;
  closesAt : F64.t;
  resolvedAt : option F64.t;
  winningOutcomeId : option string;
  metadata : option (JsMap.t string);
  allowedBettors : option (list string);
  minBet : option F64.t;
  maxBet : option F64.t;
}.

Definition with_outcomes (m : t) (os : list MarketOutcome.t) : t :=
  mk (id m) (appId m) (question m) (description m) os
     (outcomeType m) (status m) (totalPool m) (feeRate m) (createdAt m)
     (closesAt m) (resolvedAt m) (winningOutcomeId m) (metadata m)
     (allowedBettors m) (minBet m) (maxBet m).
End Market.

(** *** utils/odds.ts *)

(** [market.outcomes.find((o) => o.id === outcomeId)] *)
Definition find_outcome (os : list MarketOutcome.t) (outcomeId : string)
  : option MarketOutcome.t :=
  find (fun o => String.eqb (MarketOutcome.id o) outcomeId) os.

(** [Math.round(x * 100) / 100] and [Math.round(x * 1000) / 1000] *)
Definition round_to (scale x : F64.t) : F64.t :=
  F64.div (F64.Math_round (F64.mul x scale)) scale.

Definition calculateOdds (market : Market.t) : list MarketOutcome.t :=
  let totalPool := Market.totalPool market in
  let feePool := F64.mul totalPool (Market.feeRate market) in
  let payoutPool := F64.sub totalPool feePool in
  map (fun outcome =>
         if F64.eqb (MarketOutcome.totalBets outcome) F64.zero
            || F64.eqb totalPool F64.zero
         then
           MarketOutcome.with_odds outcome
             (F64.of_nat (length (Market.outcomes market)))
             (F64.div F64.one
                (F64.of_nat (length (Market.outcomes market))))
         else
           let odds := F64.div payoutPool (MarketOutcome.totalBets outcome) in
           let probability :=
             F64.div (MarketOutcome.totalBets outcome) totalPool in
           MarketOutcome.with_odds outcome
             (round_to F64.hundred odds)
             (round_to F64.thousand probability))
      (Market.outcomes market).

(** The element type of the [bets] argument of [calculatePayouts]. *)
Record Stake := mkStake {
  stake_bettorId : string;
  stake_outcomeId : string;
  stake_amount : F64.t;
}.

(** The body of the first loop of [calculatePayouts] (refund branch). *)
Definition refund_step (payouts : JsMap.t F64.t) (bet : Stake)
  : JsMap.t F64.t :=
  let currentPayout := F64.or0 (JsMap.get payouts (stake_bettorId bet)) in
  let refund := F64.add currentPayout (stake_amount bet) in
  JsMap.set payouts (stake_bettorId bet) refund.

(** The payout of one bet on the winning outcome:
    [Math.round(amount / totalBets * payoutPool * 100) / 100]. *)
Definition bet_payout (winningTotal payoutPool : F64.t) (bet : Stake)
  : F64.t :=
  let share := F64.div (stake_amount bet) winningTotal in
  let payout := F64.mul share payoutPool in
  round_to F64.hundred payout.

(** The body of the second loop (a winner exists and has stake). *)
Definition payout_step (winningOutcomeId : string)
  (winningTotal payoutPool : F64.t)
  (payouts : JsMap.t F64.t) (bet : Stake) : JsMap.t F64.t :=
  if String.eqb (stake_outcomeId bet) winningOutcomeId then
    let currentPayout := F64.or0 (JsMap.get payouts (stake_bettorId bet)) in
    JsMap.set payouts (stake_bettorId bet)
      (F64.add currentPayout (bet_payout winningTotal payoutPool bet))
  else payouts.

Definition calculatePayouts (market : Market.t) (winningOutcomeId : string)
  (bets : list Stake) : JsMap.t F64.t :=
  let payouts := JsMap.empty in
  let totalPool := Market.totalPool market in
  let feePool := F64.mul totalPool (Market.feeRate market) in
  let payoutPool := F64.sub totalPool feePool in
  match find_outcome (Market.outcomes market) winningOutcomeId with
  | None => fold_left refund_step bets payouts
  | Some winningOutcome =>
      if F64.eqb (MarketOutcome.totalBets winningOutcome) F64.zero
      then fold_left refund_step bets payouts
      else fold_left
             (payout_step winningOutcomeId
                (MarketOutcome.totalBets winningOutcome) payoutPool)
             bets payouts
  end.

(** *** utils/validation.ts *)

Module CreateMarketInput.
(** [closesAt] is the number the check reads: the field itself, or
    [getTime()] of a [Date] (NaN for an invalid one). *)
Record t := mk {
  question : string;
  description : option string;
  outcomes : list OutcomeInput;
  closesAt : F64.t;
  outcomeType : option OutcomeType;
  feeRate : option F64.t;
  metadata : option (JsMap.t string);
  allowedBettors : option (list string);
  minBet : option F64.t;
  maxBet : option F64.t;
}.
End CreateMarketInput.

Module placeBetInput.
Record t := mk {
  marketId : string;
  bettorId : string;
  outcomeId : string;
  amount : F64.t;
}.
End placeBetInput.

(** [now] is the value of [Date.now()], an integer. *)
Definition validateCreateMarketInput (now : Z) (input : CreateMarketInput.t)
  : Result unit :=
  if String.eqb (CreateMarketInput.question input) "" then
    throw INVALID_CONFIG "Question is required and must be a string"
  else if (length (CreateMarketInput.outcomes input) <? 2)%nat then
    throw INVALID_CONFIG
      "Outcomes are required and must be an array of at least 2 strings"
  else if F64.is_nan (CreateMarketInput.closesAt input)
          || F64.leb (CreateMarketInput.closesAt input) (F64.of_Z now) then
    throw INVALID_CONFIG "closesAt must be a valid future timestamp"
  else if match CreateMarketInput.feeRate input with
          | Some f => F64.ltb f F64.zero || F64.ltb F64.half f
          | None => false
          end then
    throw INVALID_CONFIG "feeRate must be a number between 0 and 0.5"
  else if match CreateMarketInput.minBet input,
                 CreateMarketInput.maxBet input with
          | Some lo, Some hi => F64.ltb hi lo
          | _, _ => false
          end then
    throw INVALID_CONFIG "minBet must be less than maxBet"
  else if match CreateMarketInput.minBet input with
          | Some lo => F64.ltb lo F64.zero
          | None => false
          end then
    throw INVALID_CONFIG "minBet must be a positive number"
  else if match CreateMarketInput.maxBet input with
          | Some hi => F64.ltb hi F64.zero
          | None => false
          end then
    throw INVALID_CONFIG "maxBet must be a positive number"
  else Ok tt.

Definition validatePlaceBet (now : Z) (input : placeBetInput.t)
  (market : Market.t) : Result unit :=
  if negb (MarketStatus_eqb (Market.status market) OPEN) then
    throw INVALID_INPUT "Market is not open"
  else if F64.ltb (Market.closesAt market) (F64.of_Z now) then
    throw INVALID_INPUT "Market is closed"
  else match find_outcome (Market.outcomes market)
               (placeBetInput.outcomeId input) with
  | None => throw INVALID_INPUT "Outcome not found"
  | Some _ =>
    if F64.leb (placeBetInput.amount input) F64.zero then
      throw INVALID_INPUT "Amount must be a positive number"
    else if match Market.minBet market with
            | Some lo => F64.ltb (placeBetInput.amount input) lo
            | None => false
            end then
      throw INVALID_INPUT "Amount must be greater than or equal to minBet"
    else if match Market.maxBet market with
            | Some hi => F64.ltb hi (placeBetInput.amount input)
            | None => false
            end then
      throw INVALID_INPUT "Amount must be less than or equal to maxBet"
    else if match Market.allowedBettors market with
            | Some l => negb (includes l (placeBetInput.bettorId input))
            | None => false
            end then
      throw INVALID_INPUT "Bettor is not allowed to bet on this market"
    else Ok tt
  end.

End Binary64.

(** *** Vocabulary of the statements over binary64 *)

(** The double [y] is an integer nearest to the finite double [x], a tie
    going up ([-0] counts as the integer 0). *)
Definition nearest_integer (x y : F64.t) : Prop :=
  exists k : Z,
    Qle (Qminus (inject_Z k) (Qmake 1 2)) (F64.to_Q x) /\
    Qlt (F64.to_Q x) (Qplus (inject_Z k) (Qmake 1 2)) /\
    (y = F64.of_Z k \/ (k = 0%Z /\ y = S754_zero true)).

(** What the source's [Math.round(x * scale) / scale] yields when the
    product is finite: the product, a double, is rounded to an integer
    and that integer is divided by [scale]. *)
Definition rounded_in_binary64 (scale x y : F64.t) : Prop :=
  exists r : F64.t,
    nearest_integer (F64.mul x scale) r /\ y = F64.div r scale.

(** The decimal reading of ``[x] rounded to [1/scale]'': [y] is the
    double written [k/scale] for an integer [k] such that [k/scale] is a
    multiple of [1/scale] nearest to the rational [x] (either neighbour
    at a tie). *)
Definition rounded_exactly (scale : Z) (x : Q) (y : F64.t) : Prop :=
  exists k : Z,
    Qle (Qminus (inject_Z k) (Qmake 1 2)) (Qmult x (inject_Z scale)) /\
    Qle (Qmult x (inject_Z scale)) (Qplus (inject_Z k) (Qmake 1 2)) /\
    y = F64.decimal k scale.

(** Everything of an outcome but its odds and probability. *)
Definition outcome_stake (o : Binary64.MarketOutcome.t)
  : string * string * F64.t * F64.t :=
  (Binary64.MarketOutcome.id o, Binary64.MarketOutcome.label o,
   Binary64.MarketOutcome.totalBets o, Binary64.MarketOutcome.betCount o).



(** *** Sample data over binary64 *)

Module Sample64.

Local Open Scope string_scope.

Definition outcome (id label : string) (totalBets : F64.t) (betCount : Z)
  : Binary64.MarketOutcome.t :=
  Binary64.MarketOutcome.mk id label totalBets (F64.of_Z betCount)
    (F64.of_Z 2) F64.half.

Definition market (outcomes : list Binary64.MarketOutcome.t)
  (totalPool feeRate : F64.t) : Binary64.Market.t :=
  Binary64.Market.mk "mkt_1" "app" "Will it rain?" None outcomes binary
    OPEN totalPool feeRate (F64.of_Z 0) (F64.of_Z 1000) None None None
    None None None.

(** 0.08 on A and 0.35 on B, no fee. *)
Definition small_A : Binary64.MarketOutcome.t :=
  outcome "A" "Yes" (F64.decimal 8 100) 1.
Definition small_B : Binary64.MarketOutcome.t :=
  outcome "B" "No" (F64.decimal 35 100) 1.
Definition small : Binary64.Market.t :=
  market [small_A; small_B] (F64.decimal 43 100) F64.zero.

(** 0.4 on A and 0.13 on B, no fee. *)
Definition near_A : Binary64.MarketOutcome.t :=
  outcome "A" "Yes" (F64.decimal 4 10) 1.
Definition near_B : Binary64.MarketOutcome.t :=
  outcome "B" "No" (F64.decimal 13 100) 1.
Definition near : Binary64.Market.t :=
  market [near_A; near_B] (F64.decimal 53 100) F64.zero.

(** 40 on A and 1 on B, no fee. *)
Definition tie_A : Binary64.MarketOutcome.t :=
  outcome "A" "Yes" (F64.of_Z 40) 1.
Definition tie_B : Binary64.MarketOutcome.t :=
  outcome "B" "No" (F64.of_Z 1) 1.
Definition tie : Binary64.Market.t :=
  market [tie_A; tie_B] (F64.of_Z 41) F64.zero.


(** 48 of a pool of 84 on A, in two bets of u1 (23 and 25), 36 on B by
    u2, fee rate 0.02. *)
Definition with_fee : Binary64.Market.t :=
  market [outcome "A" "Yes" (F64.of_Z 48) 2; outcome "B" "No" (F64.of_Z 36) 1]
    (F64.of_Z 84) (F64.decimal 2 100).
Definition with_fee_stakes : list Binary64.Stake :=
  [ Binary64.mkStake "u1" "A" (F64.of_Z 23);
    Binary64.mkStake "u1" "A" (F64.of_Z 25);
    Binary64.mkStake "u2" "B" (F64.of_Z 36) ].

End Sample64.

(** What [Binary64.validateCreateMarketInput] accepts at clock reading
    [now].  A comparison with NaN is false, so a NaN fee rate or bet
    bound passes the range checks; only [closesAt] is tested for NaN. *)
Definition acceptable_market_input64 (now : Z)
  (input : Binary64.CreateMarketInput.t) : Prop :=
  Binary64.CreateMarketInput.question input <> EmptyString /\
  (2 <= length (Binary64.CreateMarketInput.outcomes input))%nat /\
  F64.ltb (F64.of_Z now) (Binary64.CreateMarketInput.closesAt input)
    = true /\
  (forall f, Binary64.CreateMarketInput.feeRate input = Some f ->
             F64.is_nan f = true \/
             (F64.leb F64.zero f = true /\ F64.leb f F64.half = true)) /\
  (forall lo hi, Binary64.CreateMarketInput.minBet input = Some lo ->
                 Binary64.CreateMarketInput.maxBet input = Some hi ->
                 F64.is_nan lo = true \/ F64.is_nan hi = true \/
                 F64.leb lo hi = true) /\
  (forall lo, Binary64.CreateMarketInput.minBet input = Some lo ->
              F64.is_nan lo = true \/ F64.leb F64.zero lo = true) /\
  (forall hi, Binary64.CreateMarketInput.maxBet input = Some hi ->
              F64.is_nan hi = true \/ F64.leb F64.zero hi = true).

(** What [Binary64.validatePlaceBet] accepts at clock reading [now]: a
    NaN amount, bound or close time passes the comparisons. *)
Definition acceptable_bet64 (now : Z) (input : Binary64.placeBetInput.t)
  (market : Binary64.Market.t) : Prop :=
  Binary64.Market.status market = OPEN /\
  (F64.is_nan (Binary64.Market.closesAt market) = true \/
   F64.leb (F64.of_Z now) (Binary64.Market.closesAt market) = true) /\
  Binary64.find_outcome (Binary64.Market.outcomes market)
    (Binary64.placeBetInput.outcomeId input) <> None /\
  (F64.is_nan (Binary64.placeBetInput.amount input) = true \/
   F64.ltb F64.zero (Binary64.placeBetInput.amount input) = true) /\
  (forall lo, Binary64.Market.minBet market = Some lo ->
              F64.is_nan (Binary64.placeBetInput.amount input) = true \/
              F64.is_nan lo = true \/
              F64.leb lo (Binary64.placeBetInput.amount input) = true) /\
  (forall hi, Binary64.Market.maxBet market = Some hi ->
              F64.is_nan (Binary64.placeBetInput.amount input) = true \/
              F64.is_nan hi = true \/
              F64.leb (Binary64.placeBetInput.amount input) hi = true) /\
  (forall l, Binary64.Market.allowedBettors market = Some l ->
             In (Binary64.placeBetInput.bettorId input) l).

(* ------------------------------------------------------------------ *)
(** ** utils/odds.ts: kellyBet *)


(* ------------------------------------------------------------------ *)
(** ** utils/ids.ts

    [uuid] is the value of [uuidv4()]. *)

From Stdlib Require Import Ascii.








(* ------------------------------------------------------------------ *)
(** ** adapters/storage.ts: the rest of MemoryStorage *)

(** [map.delete(k)] *)
Fixpoint Table_delete {A : Type} (key : A -> string) (m : list A)
  (k : string) : list A :=
  match m with
  | [] => []
  | a :: r => if String.eqb (key a) k then r else a :: Table_delete key r k
  end.

Definition MemoryStorage_saveMarket (st : MemoryStorage) (market : Market.t)
  : MemoryStorage :=
  mkStorage (Table.set Market.id (markets st) market) (bets st) (users st).

Definition MemoryStorage_saveBet (st : MemoryStorage) (bet : Bet.t)
  : MemoryStorage :=
  mkStorage (markets st) (Table.set Bet.id (bets st) bet) (users st).

Definition MemoryStorage_saveUser (st : MemoryStorage) (user : User.t)
  : MemoryStorage :=
  mkStorage (markets st) (bets st) (Table.set User.id (users st) user).

Definition MemoryStorage_deleteMarket (st : MemoryStorage) (id : string)
  : MemoryStorage :=
  mkStorage (Table_delete Market.id (markets st) id) (bets st) (users st).

Definition MemoryStorage_deleteBet (st : MemoryStorage) (id : string)
  : MemoryStorage :=
  mkStorage (markets st) (Table_delete Bet.id (bets st) id) (users st).

Definition MemoryStorage_getMarket (st : MemoryStorage) (id : string)
  : option Market.t :=
  Table.get Market.id (markets st) id.

Definition MemoryStorage_getBet (st : MemoryStorage) (id : string)
  : option Bet.t :=
  Table.get Bet.id (bets st) id.

Definition MemoryStorage_getUser (st : MemoryStorage) (id : string)
  : option User.t :=
  Table.get User.id (users st) id.

(** The value of [getStats()]. *)
Record StorageStats := mkStorageStats {
  stats_markets : nat;
  stats_bets : nat;
  stats_users : nat;
}.

Definition MemoryStorage_getStats (st : MemoryStorage) : StorageStats :=
  mkStorageStats (length (markets st)) (length (bets st))
    (length (users st)).

(** The value of [exportData()] and the argument of [importData]. *)
Record ExportedData := mkExported {
  data_markets : list Market.t;
  data_bets : list Bet.t;
  data_users : list User.t;
}.

Definition MemoryStorage_exportData (st : MemoryStorage) : ExportedData :=
  mkExported (Table.values (markets st)) (Table.values (bets st))
    (Table.values (users st)).

Definition MemoryStorage_importData (st : MemoryStorage)
  (data : ExportedData) : MemoryStorage :=
  mkStorage
    (fold_left (Table.set Market.id) (data_markets data) (markets st))
    (fold_left (Table.set Bet.id) (data_bets data) (bets st))
    (fold_left (Table.set User.id) (data_users data) (users st)).

Definition MemoryStorage_clear (st : MemoryStorage) : MemoryStorage :=
  MemoryStorage_new.

(** The keys of the three maps are unique, as the keys of a [Map] are. *)
Definition keys_unique (st : MemoryStorage) : Prop :=
  NoDup (map Market.id (markets st)) /\
  NoDup (map Bet.id (bets st)) /\
  NoDup (map User.id (users st)).

(* ------------------------------------------------------------------ *)
(** ** Vocabulary of the further properties *)

(** What [validateCreateMarketInput] accepts at clock reading [now]. *)
Definition acceptable_market_input (now : Z) (input : CreateMarketInput.t)
  : Prop :=
  CreateMarketInput.question input <> EmptyString /\
  (2 <= length (CreateMarketInput.outcomes input))%nat /\
  (now < CreateMarketInput.closesAt input)%Z /\
  (forall f, CreateMarketInput.feeRate input = Some f ->
             0 <= f /\ f <= Num.half) /\
  (forall lo hi, CreateMarketInput.minBet input = Some lo ->
                 CreateMarketInput.maxBet input = Some hi -> lo <= hi) /\
  (forall lo, CreateMarketInput.minBet input = Some lo -> 0 <= lo) /\
  (forall hi, CreateMarketInput.maxBet input = Some hi -> 0 <= hi).

(** What [validatePlaceBet] accepts at clock reading [now]. *)
Definition acceptable_bet (now : Z) (input : placeBetInput.t)
  (market : Market.t) : Prop :=
  Market.status market = OPEN /\
  (now <= Market.closesAt market)%Z /\
  outcome_exists market (placeBetInput.outcomeId input) /\
  0 < placeBetInput.amount input /\
  (forall lo, Market.minBet market = Some lo ->
              lo <= placeBetInput.amount input) /\
  (forall hi, Market.maxBet market = Some hi ->
              placeBetInput.amount input <= hi) /\
  (forall l, Market.allowedBettors market = Some l ->
             In (placeBetInput.bettorId input) l).

(** The error code of a result, if it is a throw. *)
Definition error_code {A : Type} (r : Result A) : option ErrorCode :=
  match r with
  | Ok _ => None
  | Throw e => Some (code e)
  end.



(** The user record a call works with: the stored one, or the one that
    [getOrCreateUser] creates on first reference. *)
Definition user_or_new (config : Config) (now : Z) (us : list User.t)
  (userId : string) : User.t :=
  match Table.get User.id us userId with
  | Some u => u
  | None => User.mk userId (initialBalance config) 0 0 0 now
  end.

(** The record [updateUserBalance] writes back. *)
Definition credited (u : User.t) (delta : number) : User.t :=
  if Num.ltb 0 delta then
    User.mk (User.id u) (User.balance u + delta) (User.totalBets u)
      (User.totalWon u + delta) (User.totalLost u) (User.createdAt u)
  else
    User.mk (User.id u) (User.balance u + delta)
      (User.totalBets u + Num.Math_abs delta) (User.totalWon u)
      (User.totalLost u) (User.createdAt u).


(** The label of an element of [CreateMarketInput.outcomes]. *)
Definition OutcomeInput_label (o : OutcomeInput) : string :=
  match o with
  | OutcomeLabel l => l
  | OutcomeObject _ l => l
  end.

(** The test of the loop of [checkAndCloseExpiredMarkets]. *)
Definition expired_open (now : Z) (m : Market.t) : bool :=
  MarketStatus_eqb (Market.status m) OPEN && (Market.closesAt m <=? now)%Z.

(* ------------------------------------------------------------------ *)
(** ** The ledger: what the facade's calls do to the storage

    A call of the facade changes the storage by a sequence of the moves
    below.  What a move keeps is stated through three views: the slip of
    a bet (all of it but status and payout), the book of a market (all of
    it but status, resolvedAt, winningOutcomeId, metadata and the odds
    and probabilities of its outcomes), and the terms of a market (its
    book without the pool and the stakes). *)

Definition bet_slip (b : Bet.t)
  : string * (string * string * string * number) :=
  (Bet.id b,
   (Bet.marketId b, Bet.bettorId b, Bet.outcomeId b, Bet.amount b)).

Definition outcome_book (o : MarketOutcome.t) : string * string * number * Z :=
  (MarketOutcome.id o, MarketOutcome.label o, MarketOutcome.totalBets o,
   MarketOutcome.betCount o).

(** The market with its administrative fields blanked. *)
Definition frozen (m : Market.t) : Market.t :=
  Market.mk (Market.id m) (Market.appId m) (Market.question m)
    (Market.description m) [] (Market.outcomeType m) OPEN
    (Market.totalPool m) (Market.feeRate m) (Market.createdAt m)
    (Market.closesAt m) None None None (Market.allowedBettors m)
    (Market.minBet m) (Market.maxBet m).

Definition market_book (m : Market.t)
  : string * (Market.t * list (string * string * number * Z)) :=
  (Market.id m, (frozen m, map outcome_book (Market.outcomes m))).

Definition market_terms (m : Market.t)
  : Market.t * list (string * string) :=
  (Market.with_totalPool (frozen m) 0,
   map (fun o => (MarketOutcome.id o, MarketOutcome.label o))
     (Market.outcomes m)).

(** [placeBet]'s update of the market, before the odds are refreshed. *)
Definition staked (m : Market.t) (outcomeId : string) (amount : number)
  : Market.t :=
  Market.with_totalPool
    (Market.with_outcomes m
       (update_first
          (fun o => String.eqb (MarketOutcome.id o) outcomeId)
          (fun o => MarketOutcome.add_bet o amount)
          (Market.outcomes m)))
    (Market.totalPool m + amount).

(** The writes the facade makes to its storage, each with what the
    facade has checked when it makes it: rewriting a stored market or bet
    without changing its book or slip, storing the user record of
    [getOrCreateUser], crediting a user, refunding a stored bet, storing a
    new market, and the three writes of a successful [placeBet].  Every
    method other than [clear] changes the storage by a sequence of these
    (see [step_moves]). *)
Inductive move (config : Config) : MemoryStorage -> MemoryStorage -> Prop :=
| move_retouch st m' :
    In (market_book m') (map market_book (markets st)) ->
    move config st
      (mkStorage (Table.set Market.id (markets st) m') (bets st) (users st))
| move_settle st b' :
    In (bet_slip b') (map bet_slip (bets st)) ->
    move config st
      (mkStorage (markets st) (Table.set Bet.id (bets st) b') (users st))
| move_touch st now userId :
    move config st
      (mkStorage (markets st) (bets st)
         (Table.set User.id (users st)
            (user_or_new config now (users st) userId)))
| move_credit st now userId delta :
    0 < delta ->
    move config st
      (mkStorage (markets st) (bets st)
         (Table.set User.id (users st)
            (credited (user_or_new config now (users st) userId) delta)))
| move_refund st now b :
    In (bet_slip b) (map bet_slip (bets st)) ->
    move config st
      (mkStorage (markets st) (bets st)
         (Table.set User.id (users st)
            (credited (user_or_new config now (users st) (Bet.bettorId b))
               (Bet.amount b))))
| move_create st market :
    ~ In (Market.id market) (map Market.id (markets st)) ->
    Market.totalPool market = 0 ->
    (2 <= length (Market.outcomes market))%nat ->
    Forall (fun o => MarketOutcome.totalBets o = 0 /\
                     MarketOutcome.betCount o = 0%Z)
      (Market.outcomes market) ->
    move config st
      (mkStorage (markets st ++ [market]) (bets st) (users st))
| move_place st now m market' bet outcome :
    In m (markets st) ->
    find_outcome (Market.outcomes m) (Bet.outcomeId bet) = Some outcome ->
    0 < Bet.amount bet ->
    Bet.amount bet
    <= User.balance (user_or_new config now (users st) (Bet.bettorId bet)) ->
    market_book market'
    = market_book (staked m (Bet.outcomeId bet) (Bet.amount bet)) ->
    ~ In (Bet.id bet) (map Bet.id (bets st)) ->
    Bet.marketId bet = Market.id m ->
    move config st
      (mkStorage (Table.set Market.id (markets st) market')
         (bets st ++ [bet])
         (Table.set User.id (users st)
            (credited
               (user_or_new config now (users st) (Bet.bettorId bet))
               (- Bet.amount bet)))).

(** A sequence of moves. *)
Inductive moves (config : Config) : MemoryStorage -> MemoryStorage -> Prop :=
| moves_done st : moves config st st
| moves_next st1 st2 st3 :
    move config st1 st2 -> moves config st2 st3 -> moves config st1 st3.

(** The sum of a list of integers. *)
Definition sum_Z (l : list Z) : Z := fold_right Z.add 0%Z l.

(** The books are balanced: for every stored market the outcomes' stakes
    add up to the pool and the outcomes' bet counts add up to the number
    of bets stored for the market, and there are at least two
    outcomes. *)
Definition books_balanced (st : MemoryStorage) : Prop :=
  forall m, In m (markets st) ->
    sum_numbers (map MarketOutcome.totalBets (Market.outcomes m))
      = Market.totalPool m /\
    sum_Z (map MarketOutcome.betCount (Market.outcomes m))
      = Z.of_nat (length (bets_of_market (Market.id m) (bets st))) /\
    (2 <= length (Market.outcomes m))%nat.

(** Every stored bet has a positive amount, belongs to a stored market
    that has the bet's outcome, and was placed by a stored user. *)
Definition bets_grounded (st : MemoryStorage) : Prop :=
  forall b, In b (bets st) ->
    0 < Bet.amount b /\
    (exists m, Table.get Market.id (markets st) (Bet.marketId b) = Some m /\
               outcome_exists m (Bet.outcomeId b)) /\
    In (Bet.bettorId b) (map User.id (users st)).

(** The accounts add up: a user's balance is the initial balance plus
    what was credited (totalWon) minus what was debited (totalBets);
    totalLost is never written. *)
Definition account_adds_up (config : Config) (u : User.t) : Prop :=
  User.balance u
    = initialBalance config + User.totalWon u - User.totalBets u /\
  User.totalLost u = 0.

(** The invariant of the ledger. *)
Record ledger_sound (config : Config) (st : MemoryStorage) : Prop :=
  mkLedgerSound {
  ledger_keys : keys_unique st;
  ledger_books : books_balanced st;
  ledger_bets : bets_grounded st;
  ledger_accounts : forall u, In u (users st) -> account_adds_up config u;
  ledger_solvent :
    0 <= initialBalance config ->
    forall u, In u (users st) -> 0 <= User.balance u;
}.

(** ** Sample data for the further properties *)

Module Sample.

Local Open Scope string_scope.

Definition first_bet : Bet.t :=
  Bet.mk "bet_1" "mkt_r" "u1" "A" (Num.ofZ 10) 0 confirmed None 1 1.

(** An imported storage: the resolved market of [Scenario] with one bet
    on A for each of two bettors. *)
Definition two_bettors : State :=
  mkState
    (mkStorage [Scenario.resolved_market]
       [ first_bet;
         Bet.mk "bet_2" "mkt_r" "u2" "A" (Num.ofZ 30) 0 confirmed None 2 1 ]
       [ User.mk "u1" (Num.ofZ 990) (Num.ofZ 10) 0 0 1;
         User.mk "u2" (Num.ofZ 970) (Num.ofZ 30) 0 0 1 ])
    [].

End Sample.




(* ================================================================== *)
(** * Properties *)

(** ** Numbers *)

Lemma Num_eqb_eq (x y : number) : Num.eqb x y = true <-> x = y.
Proof.
  unfold Num.eqb. rewrite Qeq_bool_iff. split.
  - apply Qc_is_canon.
  - intros ->. reflexivity.
Qed.


Lemma Num_leb_le (x y : number) : Num.leb x y = true <-> x <= y.
Proof. unfold Num.leb, Qcle. apply Qle_bool_iff. Qed.

Lemma Num_ltb_lt (x y : number) : Num.ltb x y = true <-> x < y.
Proof.
  unfold Num.ltb, Qclt.
  destruct (Qle_bool y x) eqn:E; simpl; split; intros H;
    try discriminate; try reflexivity.
  - apply Qle_bool_iff in E. lra.
  - apply Qnot_le_lt. intro H'. apply Qle_bool_iff in H'. congruence.
Qed.

(** Lemmas that move a statement on [Qc] to one on [Q]. *)
Lemma this_plus (x y : Qc) : (this (x + y) == this x + this y)%Q.
Proof. exact (Qred_correct (x + y)). Qed.

Lemma this_mult (x y : Qc) : (this (x * y) == this x * this y)%Q.
Proof. exact (Qred_correct (x * y)). Qed.

Lemma this_opp (x : Qc) : (this (- x) == - this x)%Q.
Proof. exact (Qred_correct (- x)). Qed.

Lemma this_minus (x y : Qc) : (this (x - y) == this x - this y)%Q.
Proof. unfold Qcminus. rewrite this_plus, this_opp. reflexivity. Qed.


Lemma this_ofZ (z : Z) : (this (Num.ofZ z) == inject_Z z)%Q.
Proof. exact (Qred_correct (inject_Z z)). Qed.

Lemma this_half : (this Num.half == 1 # 2)%Q.
Proof. reflexivity. Qed.






Lemma thousand_pos : 0 < Num.thousand.
Proof. reflexivity. Qed.

(** ** utils/odds.ts: calculateOdds *)

Lemma calculateOdds_length (market : Market.t) :
  length (calculateOdds market) = length (Market.outcomes market).
Proof. unfold calculateOdds. apply length_map. Qed.

(** ** Insertion-ordered maps *)

Section TableFacts.
Context {A : Type} (key : A -> string).

Lemma Table_get_set (m : list A) (a : A) (k : string) :
  Table.get key (Table.set key m a) k =
    if String.eqb (key a) k then Some a else Table.get key m k.
Proof.
  induction m as [ | b r IH ]; cbn.
  - reflexivity.
  - destruct (String.eqb (key b) (key a)) eqn:Eba; cbn.
    + apply String.eqb_eq in Eba. rewrite Eba.
      destruct (String.eqb (key a) k); reflexivity.
    + destruct (String.eqb (key b) k) eqn:Ebk.
      * apply String.eqb_eq in Ebk. subst k.
        rewrite String.eqb_sym, Eba. reflexivity.
      * exact IH.
Qed.

Lemma Table_get_key (m : list A) (k : string) (a : A) :
  Table.get key m k = Some a -> key a = k.
Proof.
  induction m as [ | b r IH ]; cbn; [ discriminate | ].
  destruct (String.eqb (key b) k) eqn:E.
  - intros [= <-]. apply String.eqb_eq, E.
  - exact IH.
Qed.

Lemma Table_get_In (m : list A) (k : string) (a : A) :
  Table.get key m k = Some a -> In a m.
Proof.
  induction m as [ | b r IH ]; cbn; [ discriminate | ].
  destruct (String.eqb (key b) k).
  - intros [= <-]. left; reflexivity.
  - intros H. right. apply IH, H.
Qed.

Lemma Table_get_None (m : list A) (k : string) :
  Table.get key m k = None <-> ~ In k (map key m).
Proof.
  induction m as [ | b r IH ]; cbn.
  - split; [ intros _ [] | reflexivity ].
  - destruct (String.eqb (key b) k) eqn:E.
    + apply String.eqb_eq in E. split; [ discriminate | ].
      intros H. exfalso. apply H. left. exact E.
    + apply String.eqb_neq in E. rewrite IH. tauto.
Qed.

(** Setting a key that is absent appends the entry. *)
Lemma Table_set_fresh (m : list A) (a : A) :
  Table.get key m (key a) = None -> Table.set key m a = m ++ [a].
Proof.
  induction m as [ | b r IH ]; cbn; [ reflexivity | ].
  destruct (String.eqb (key b) (key a)); [ discriminate | ].
  intros H. rewrite IH by exact H. reflexivity.
Qed.

Lemma Table_set_keys (m : list A) (a : A) :
  map key (Table.set key m a) =
    match Table.get key m (key a) with
    | Some _ => map key m
    | None => map key m ++ [key a]
    end.
Proof.
  induction m as [ | b r IH ]; cbn; [ reflexivity | ].
  destruct (String.eqb (key b) (key a)) eqn:E; cbn.
  - apply String.eqb_eq in E. rewrite E. reflexivity.
  - rewrite IH. destruct (Table.get key r (key a)); reflexivity.
Qed.

Lemma Table_set_NoDup (m : list A) (a : A) :
  NoDup (map key m) -> NoDup (map key (Table.set key m a)).
Proof.
  intros Hnd. rewrite Table_set_keys.
  destruct (Table.get key m (key a)) eqn:E; [ exact Hnd | ].
  apply Table_get_None in E.
  apply NoDup_app; [ exact Hnd | repeat constructor; intros [] | ].
  intros x Hx [<- | []]. exact (E Hx).
Qed.

End TableFacts.



(** Replacing a bettor's amount [c] by [c + x] (or adding a first entry
    [0 + x]) adds [x] to the total of the map. *)
Lemma total_distributed_set (m : JsMap.t number) (k : string) (x : number) :
  total_distributed (JsMap.set m k (Num.or0 (JsMap.get m k) + x)) =
  total_distributed m + x.
Proof.
  unfold total_distributed, JsMap.values, JsMap.set, JsMap.get.
  induction m as [ | [k' v'] r IH ];
    cbn [Table.get Table.set fst snd map fold_right option_map Num.or0
         sum_numbers].
  - ring.
  - destruct (String.eqb k' k) eqn:E;
      cbn [Table.get Table.set fst snd map fold_right option_map Num.or0
           sum_numbers].
    + ring.
    + unfold sum_numbers in IH. rewrite IH. ring.
Qed.

(** ** utils/odds.ts: calculatePayouts *)





Lemma refund_fold_total (bets : list Stake) :
  forall acc : JsMap.t number,
    total_distributed (fold_left refund_step bets acc) =
    total_distributed acc + total_stake bets.
Proof.
  induction bets as [ | b r IH ]; intros acc; cbn [fold_left].
  - unfold total_stake, sum_numbers. cbn. ring.
  - rewrite IH. unfold refund_step. rewrite total_distributed_set.
    unfold total_stake, sum_numbers. cbn. ring.
Qed.









(** ** core/sdk.ts: users *)

Section UserFacts.
Variable config : Config.

Lemma getOrCreateUser_spec (now : Z) (userId : string) (s : State) :
  exists u : User.t,
    result_of (getOrCreateUser config now userId) s = Ok u /\
    User.id u = userId /\
    User.balance u = balance_of config s userId /\
    Table.get User.id
      (users (storage (state_after (getOrCreateUser config now userId) s)))
      userId = Some u /\
    markets (storage (state_after (getOrCreateUser config now userId) s))
      = markets (storage s) /\
    bets (storage (state_after (getOrCreateUser config now userId) s))
      = bets (storage s) /\
    (forall k, k <> userId ->
       Table.get User.id
         (users (storage (state_after (getOrCreateUser config now userId) s)))
         k = Table.get User.id (users (storage s)) k).
Proof.
  unfold result_of, state_after, getOrCreateUser, bind, storage_getUser,
    balance_of.
  destruct (Table.get User.id (users (storage s)) userId) as [u | ] eqn:E;
    cbn.
  - exists u. rewrite E.
    repeat split; try reflexivity.
    apply (Table_get_key User.id _ _ _ E).
  - eexists. rewrite Table_get_set. cbn. rewrite String.eqb_refl.
    repeat split; try reflexivity.
    intros k Hk. rewrite Table_get_set. cbn.
    apply String.eqb_neq in Hk. rewrite String.eqb_sym, Hk. reflexivity.
Qed.

Lemma updateUserBalance_spec (now : Z) (userId : string) (delta : number)
  (s : State) :
  let s' := state_after (updateUserBalance config now userId delta) s in
  (exists u, result_of (updateUserBalance config now userId delta) s = Ok u) /\
  balance_of config s' userId = balance_of config s userId + delta /\
  markets (storage s') = markets (storage s) /\
  bets (storage s') = bets (storage s) /\
  (forall k, k <> userId ->
     Table.get User.id (users (storage s')) k
     = Table.get User.id (users (storage s)) k).
Proof.
  destruct (getOrCreateUser_spec now userId s)
    as (u & Hres & Hid & Hbal & Hget & Hm & Hb & Hother).
  unfold result_of, state_after in *.
  unfold updateUserBalance, bind.
  destruct (getOrCreateUser config now userId s) as [r s1].
  cbn [fst snd] in *. subst r.
  unfold balance_of at 1.
  destruct (Num.ltb 0 delta); cbn;
    rewrite Table_get_set; cbn [User.id User.balance];
    rewrite Hid, String.eqb_refl, Hbal;
    (repeat split; [ eexists; reflexivity | assumption | assumption | ]);
    intros k Hk; rewrite Table_get_set; cbn [User.id];
    apply String.eqb_neq in Hk as Hk';
    rewrite String.eqb_sym, Hk'; apply Hother, Hk.
Qed.

End UserFacts.

(** ** utils/validation.ts: validateResolveMarket *)

Lemma find_outcome_exists (market : Market.t) (outcomeId : string) :
  find_outcome (Market.outcomes market) outcomeId <> None <->
  outcome_exists market outcomeId.
Proof.
  unfold find_outcome, outcome_exists. split.
  - destruct (find _ (Market.outcomes market)) as [o | ] eqn:E;
      [ intros _ | congruence ].
    apply find_some in E. destruct E as [Hin Heq].
    exists o. split; [ exact Hin | apply String.eqb_eq, Heq ].
  - intros (o & Hin & Hid) Hnone.
    apply (find_none _ _ Hnone) in Hin.
    apply String.eqb_neq in Hin. contradiction.
Qed.

(** C2. [validateResolveMarket] succeeds exactly when the loaded market
    has status RESOLVED, has a winningOutcomeId, and the input's winning
    outcome id names one of its outcomes; otherwise it throws a
    PredictSDKError with code INVALID_INPUT; hence [resolveMarket] on a
    stored market that is OPEN or CLOSED fails with INVALID_INPUT (and
    leaves the state as it was). *)
Theorem validateResolveMarket_spec (input : resolveMarketInput.t)
  (market : Market.t) :
  (validateResolveMarket input market = Ok tt <->
   Market.status market = RESOLVED /\
   Market.winningOutcomeId market <> None /\
   outcome_exists market (resolveMarketInput.winningOutcomeId input)) /\
  (validateResolveMarket input market = Ok tt \/
   exists msg : string,
     validateResolveMarket input market = Throw (mkError INVALID_INPUT msg)) /\
  (forall (config : Config) (now : Z) (s : State),
      Table.get Market.id (markets (storage s))
        (resolveMarketInput.marketId input) = Some market ->
      Market.status market = OPEN \/ Market.status market = CLOSED ->
      exists msg : string,
        resolveMarket config now input s
        = (Throw (mkError INVALID_INPUT msg), s)).
Proof.
  split; [ | split ].
  - rewrite <- find_outcome_exists. unfold validateResolveMarket, throw.
    destruct (Market.status market); cbn;
      try (split; [ discriminate | intros [H _]; discriminate H ]).
    destruct (Market.winningOutcomeId market) as [w | ];
      [ | split; [ discriminate | intros (_ & H & _); congruence ] ].
    destruct (find_outcome _ _) as [o | ].
    + split; [ intros _ | reflexivity ].
      repeat split; discriminate.
    + split; [ discriminate | intros (_ & _ & H); congruence ].
  - unfold validateResolveMarket, throw.
    destruct (Market.status market); cbn;
      try (right; eexists; reflexivity).
    destruct (Market.winningOutcomeId market);
      [ | right; eexists; reflexivity ].
    destruct (find_outcome _ _);
      [ left; reflexivity | right; eexists; reflexivity ].
  - intros config now s Hget Hstatus.
    unfold resolveMarket, load_market, bind, storage_getMarket, check, ret.
    rewrite Hget. unfold validateResolveMarket, throw.
    destruct Hstatus as [-> | ->]; cbn; eexists; reflexivity.
Qed.

(** ** core/sdk.ts: placeBet *)

Lemma find_outcome_map (g : MarketOutcome.t -> MarketOutcome.t)
  (os : list MarketOutcome.t) (k : string) :
  (forall o, MarketOutcome.id (g o) = MarketOutcome.id o) ->
  find_outcome (map g os) k = option_map g (find_outcome os k).
Proof.
  intros Hid. unfold find_outcome.
  induction os as [ | o r IH ]; cbn; [ reflexivity | ].
  rewrite Hid. destruct (String.eqb (MarketOutcome.id o) k);
    [ reflexivity | exact IH ].
Qed.

Lemma find_outcome_update_first (f : MarketOutcome.t -> MarketOutcome.t)
  (os : list MarketOutcome.t) (k : string) :
  (forall o, MarketOutcome.id (f o) = MarketOutcome.id o) ->
  find_outcome
    (update_first (fun o => String.eqb (MarketOutcome.id o) k) f os) k
  = option_map f (find_outcome os k).
Proof.
  intros Hid. unfold find_outcome.
  induction os as [ | o r IH ]; cbn; [ reflexivity | ].
  destruct (String.eqb (MarketOutcome.id o) k) eqn:E; cbn.
  - rewrite Hid, E. reflexivity.
  - rewrite E. exact IH.
Qed.

(** [calculateOdds] only rewrites odds and probability. *)
Lemma find_outcome_calculateOdds (market : Market.t) (k : string)
  (o : MarketOutcome.t) :
  find_outcome (Market.outcomes market) k = Some o ->
  exists o' : MarketOutcome.t,
    find_outcome (calculateOdds market) k = Some o' /\
    MarketOutcome.totalBets o' = MarketOutcome.totalBets o /\
    MarketOutcome.betCount o' = MarketOutcome.betCount o.
Proof.
  intros Hfind. unfold calculateOdds.
  rewrite find_outcome_map.
  - rewrite Hfind. cbn [option_map]. eexists. split; [ reflexivity | ].
    destruct (_ || _); split; reflexivity.
  - intros x. destruct (_ || _); reflexivity.
Qed.

Lemma placeBet_run_effect (config : Config) (now : Z) (betId : string)
  (input : placeBetInput.t) (s s' : State) (bet : Bet.t) :
  placeBet config now betId input s = (Ok bet, s') ->
  exists (market market' : Market.t) (outcome outcome' : MarketOutcome.t),
    Table.get Market.id (markets (storage s)) (placeBetInput.marketId input)
      = Some market /\
    find_outcome (Market.outcomes market) (placeBetInput.outcomeId input)
      = Some outcome /\
    Table.get Market.id (markets (storage s')) (placeBetInput.marketId input)
      = Some market' /\
    find_outcome (Market.outcomes market') (placeBetInput.outcomeId input)
      = Some outcome' /\
    Market.totalPool market'
      = Market.totalPool market + placeBetInput.amount input /\
    MarketOutcome.totalBets outcome'
      = MarketOutcome.totalBets outcome + placeBetInput.amount input /\
    MarketOutcome.betCount outcome'
      = (MarketOutcome.betCount outcome + 1)%Z /\
    balance_of config s' (placeBetInput.bettorId input)
      = balance_of config s (placeBetInput.bettorId input)
        - placeBetInput.amount input /\
    (forall id : string,
        id <> placeBetInput.marketId input ->
        Table.get Market.id (markets (storage s')) id
        = Table.get Market.id (markets (storage s)) id) /\
    (forall userId : string,
        userId <> placeBetInput.bettorId input ->
        balance_of config s' userId = balance_of config s userId).
Proof.
  unfold placeBet, load_market.
  unfold bind at 1 2. unfold storage_getMarket at 1.
  destruct (Table.get Market.id (markets (storage s))
              (placeBetInput.marketId input)) as [market | ] eqn:Hget;
    [ | discriminate ].
  cbn [ret]. unfold bind at 1. unfold check at 1.
  destruct (validatePlaceBet now input market) as [ [] | e ] eqn:Hval;
    [ | discriminate ].
  assert (Hfind : exists outcome,
             find_outcome (Market.outcomes market)
               (placeBetInput.outcomeId input) = Some outcome).
  { unfold validatePlaceBet in Hval.
    destruct (negb _); [ discriminate | ].
    destruct (_ <? _)%Z; [ discriminate | ].
    destruct (find_outcome _ _) as [o | ]; [ | discriminate ].
    exists o; reflexivity. }
  destruct Hfind as [outcome Hfind].
  unfold bind at 1.
  destruct (getOrCreateUser_spec config now (placeBetInput.bettorId input) s)
    as (u & Hres & Huid & Hbal & Hgetu & Hm1 & Hb1 & Hother1).
  unfold result_of, state_after in *.
  destruct (getOrCreateUser config now (placeBetInput.bettorId input) s)
    as [r s1].
  cbn [fst snd] in *. subst r.
  destruct (Num.ltb (User.balance u) (placeBetInput.amount input));
    [ discriminate | ].
  unfold bind at 1.
  destruct (updateUserBalance_spec config now
              (placeBetInput.bettorId input)
              (- placeBetInput.amount input) s1)
    as ([u2 Hres2] & Hbal2 & Hm2 & Hb2 & Hother2).
  unfold result_of, state_after in *.
  destruct (updateUserBalance config now (placeBetInput.bettorId input)
              (- placeBetInput.amount input) s1) as [r2 s2].
  cbn [fst snd] in *. subst r2.
  cbn. intros [= <- <-]. cbn [storage markets users].
  pose proof (Table_get_key Market.id _ _ _ Hget) as Hkey.
  set (updated := update_first _ _ _).
  set (market1 := Market.with_totalPool (Market.with_outcomes market updated) _).
  assert (Hf1 : find_outcome updated (placeBetInput.outcomeId input)
                = Some (MarketOutcome.add_bet outcome
                          (placeBetInput.amount input))).
  { unfold updated. rewrite find_outcome_update_first by reflexivity.
    rewrite Hfind. reflexivity. }
  destruct (find_outcome_calculateOdds market1
              (placeBetInput.outcomeId input) _ Hf1)
    as (outcome' & Hf2 & Htb & Hbc).
  exists market, (Market.with_outcomes market1 (calculateOdds market1)),
    outcome, outcome'.
  split; [ reflexivity | ].
  split; [ exact Hfind | ].
  split.
  { rewrite Table_get_set. cbn [Market.with_outcomes Market.id].
    unfold market1. cbn [Market.with_totalPool Market.with_outcomes Market.id].
    rewrite Hkey, String.eqb_refl. reflexivity. }
  split; [ exact Hf2 | ].
  split; [ reflexivity | ].
  split; [ rewrite Htb; reflexivity | ].
  split; [ rewrite Hbc; reflexivity | ].
  split.
  { unfold balance_of at 1. cbn [storage users].
    unfold balance_of at 1 in Hbal2. rewrite Hbal2.
    unfold balance_of at 1. rewrite Hgetu, Hbal. reflexivity. }
  split.
  { intros id Hid. rewrite Table_get_set.
    unfold market1. cbn [Market.with_totalPool Market.with_outcomes Market.id].
    rewrite Hkey. apply String.eqb_neq in Hid.
    rewrite String.eqb_sym, Hid, Hm2, Hm1. reflexivity. }
  intros userId Hne. unfold balance_of. cbn [storage users].
  rewrite Hother2, Hother1 by exact Hne. reflexivity.
Qed.

(** C9. After a successful [placeBet] of amount [a]: the market's
    totalPool and the chosen outcome's totalBets have grown by exactly
    [a], the outcome's betCount by one, the bettor's balance has dropped
    by exactly [a], every other market is unchanged and every other
    user's balance is unchanged. *)
Theorem placeBet_effect (config : Config) (now : Z) (betId : string)
  (input : placeBetInput.t) (s : State) :
  is_ok (result_of (placeBet config now betId input) s) = true ->
  let s' := state_after (placeBet config now betId input) s in
  exists (market market' : Market.t) (outcome outcome' : MarketOutcome.t),
    Table.get Market.id (markets (storage s)) (placeBetInput.marketId input)
      = Some market /\
    find_outcome (Market.outcomes market) (placeBetInput.outcomeId input)
      = Some outcome /\
    Table.get Market.id (markets (storage s')) (placeBetInput.marketId input)
      = Some market' /\
    find_outcome (Market.outcomes market') (placeBetInput.outcomeId input)
      = Some outcome' /\
    Market.totalPool market'
      = Market.totalPool market + placeBetInput.amount input /\
    MarketOutcome.totalBets outcome'
      = MarketOutcome.totalBets outcome + placeBetInput.amount input /\
    MarketOutcome.betCount outcome'
      = (MarketOutcome.betCount outcome + 1)%Z /\
    balance_of config s' (placeBetInput.bettorId input)
      = balance_of config s (placeBetInput.bettorId input)
        - placeBetInput.amount input /\
    (forall id : string,
        id <> placeBetInput.marketId input ->
        Table.get Market.id (markets (storage s')) id
        = Table.get Market.id (markets (storage s)) id) /\
    (forall userId : string,
        userId <> placeBetInput.bettorId input ->
        balance_of config s' userId = balance_of config s userId).
Proof.
  unfold result_of, state_after. intros Hok.
  destruct (placeBet config now betId input s) as [[bet | e] s'] eqn:Hrun;
    [ | discriminate Hok ].
  exact (placeBet_run_effect config now betId input s s' bet Hrun).
Qed.

(** ** core/sdk.ts: closeMarket and cancelMarket *)

(** [closeMarket] does not look at the status it overwrites. *)
Lemma closeMarket_sets_CLOSED (marketId : string) (s : State) (m : Market.t) :
  Table.get Market.id (markets (storage s)) marketId = Some m ->
  is_ok (result_of (closeMarket marketId) s) = true /\
  status_in (state_after (closeMarket marketId) s) marketId = Some CLOSED.
Proof.
  intros Hget.
  unfold result_of, state_after, closeMarket, load_market, bind,
    storage_getMarket, status_in.
  rewrite Hget. cbn. split; [ reflexivity | ].
  rewrite Table_get_set. cbn [Market.with_status Market.id].
  rewrite (Table_get_key Market.id _ _ _ Hget), String.eqb_refl.
  reflexivity.
Qed.

(** [checkAndCloseExpiredMarkets] only ever writes markets that are OPEN:
    a market with another status keeps it. *)
Lemma close_expired_keeps_status (now : Z) (marketId : string)
  (st : MarketStatus) (ms : list Market.t) :
  st <> OPEN ->
  forall (closed : list Market.t) (s : State),
    (forall m, In m ms -> Market.id m = marketId -> Market.status m = st) ->
    status_in s marketId = Some st ->
    status_in (state_after (close_expired now ms closed) s) marketId
    = Some st.
Proof.
  intros Hst. induction ms as [ | m r IH ]; intros closed s Hms Hs;
    cbn [close_expired].
  - exact Hs.
  - destruct (MarketStatus_eqb (Market.status m) OPEN) eqn:Eopen;
      cbn [andb]; [ destruct (Market.closesAt m <=? now)%Z | ];
      try (apply IH; [ intros m' Hm'; apply Hms; right; exact Hm' | exact Hs ]).
    set (m' := Market.with_status m CLOSED).
    change (status_in
              (state_after (close_expired now r (closed ++ [m']))
                 (state_after (emit (market_closed m'))
                    (state_after (storage_saveMarket m') s)))
              marketId = Some st).
    apply IH; [ intros m0 Hm0; apply Hms; right; exact Hm0 | ].
    unfold status_in in *. cbn. rewrite Table_get_set.
    cbn [Market.with_status Market.id m'].
    destruct (String.eqb (Market.id m) marketId) eqn:E; [ | exact Hs ].
    apply String.eqb_eq in E.
    rewrite (Hms m (or_introl eq_refl) E) in Eopen.
    destruct st; try discriminate Eopen. contradiction.
Qed.

(** A loop whose body never throws never throws. *)
Lemma for_of_is_ok {A : Type} (body : A -> M unit) (l : list A) :
  (forall a s, is_ok (result_of (body a) s) = true) ->
  forall s, is_ok (result_of (for_of l body) s) = true.
Proof.
  intros Hbody. unfold result_of in *.
  induction l as [ | a r IH ]; intros s; cbn [for_of].
  - reflexivity.
  - unfold bind. specialize (Hbody a s).
    destruct (body a s) as [[ [] | e] s1]; [ apply IH | discriminate Hbody ].
Qed.

Lemma refund_bet_is_ok (config : Config) (now : Z) (market : Market.t)
  (b : Bet.t) (s : State) :
  is_ok (result_of (refund_bet config now market b) s) = true.
Proof.
  unfold result_of, refund_bet. unfold bind at 1.
  cbn [storage_saveBet]. unfold bind.
  match goal with
  | |- context [updateUserBalance config now ?u ?d ?s1] =>
      destruct (updateUserBalance_spec config now u d s1) as ([x Hres] & _);
      unfold result_of in Hres;
      destruct (updateUserBalance config now u d s1) as [res s2]
  end.
  cbn [fst] in Hres. subst res. reflexivity.
Qed.

(** The only guard of [cancelMarket] is on RESOLVED: on a stored market
    it throws exactly when the status is RESOLVED, the code being
    CONFLICT. *)
Lemma cancelMarket_guard (config : Config) (now : Z) (marketId : string)
  (reason : option string) (s : State) (m : Market.t) :
  Table.get Market.id (markets (storage s)) marketId = Some m ->
  (Market.status m = RESOLVED ->
   exists msg,
     cancelMarket config now marketId reason s
     = (Throw (mkError CONFLICT msg), s)) /\
  (Market.status m <> RESOLVED ->
   is_ok (result_of (cancelMarket config now marketId reason) s) = true).
Proof.
  intros Hget. split; intros Hst.
  - unfold cancelMarket, load_market.
    unfold bind at 1 2. unfold storage_getMarket. rewrite Hget. cbn [ret].
    rewrite Hst. cbn. eexists. reflexivity.
  - assert (Hrun : exists r s',
               cancelMarket config now marketId reason s = (r, s') /\
               is_ok r = true).
    { unfold cancelMarket, load_market.
      unfold bind at 1 2. unfold storage_getMarket. rewrite Hget. cbn [ret].
      destruct (MarketStatus_eqb (Market.status m) RESOLVED) eqn:E.
      { destruct (Market.status m); try discriminate E. contradiction. }
      unfold bind at 1. unfold storage_getAllBets. unfold bind at 1.
      pose proof (for_of_is_ok (refund_bet config now m)
                    (bets_of_market (Market.id m)
                       (Table.values (bets (storage s))))
                    (refund_bet_is_ok config now m) s) as Hloop.
      unfold result_of in Hloop.
      destruct (for_of _ _ s) as [[ [] | e] s1]; [ | discriminate Hloop ].
      cbn. eexists _, _. split; reflexivity. }
    destruct Hrun as (r & s' & Hrun & Hok).
    unfold result_of. rewrite Hrun. exact Hok.
Qed.

(** ** core/sdk.ts: the loop of resolveMarket *)

(** One iteration credits the bettor of a winning bet with the whole
    amount the payout map holds for that bettor, and credits nothing for
    a bet on another outcome. *)
Lemma resolve_bet_credit (config : Config) (now : Z) (market : Market.t)
  (w : string) (payouts : JsMap.t number) (b : Bet.t) (s : State) :
  let s' := state_after (resolve_bet config now market w payouts b) s in
  let payout := Num.or0 (JsMap.get payouts (Bet.bettorId b)) in
  balance_of config s' (Bet.bettorId b)
  = balance_of config s (Bet.bettorId b)
    + (if String.eqb (Bet.outcomeId b) w && Num.ltb 0 payout
       then payout else 0) /\
  (forall userId, userId <> Bet.bettorId b ->
                  balance_of config s' userId = balance_of config s userId).
Proof.
  cbv zeta. unfold state_after, resolve_bet. unfold bind at 1 3.
  cbn [storage_saveBet].
  set (b' := Bet.settle b _ _).
  set (s1 := mkState _ (emitted s)).
  assert (Hu1 : users (storage s1) = users (storage s)) by reflexivity.
  destruct (String.eqb (Bet.outcomeId b) w
            && Num.ltb 0 (Num.or0 (JsMap.get payouts (Bet.bettorId b)))).
  - unfold bind.
    destruct (updateUserBalance_spec config now (Bet.bettorId b')
                (Num.or0 (JsMap.get payouts (Bet.bettorId b))) s1)
      as (_ & Hbal & _ & _ & Hother).
    unfold state_after in *.
    destruct (updateUserBalance config now (Bet.bettorId b')
                (Num.or0 (JsMap.get payouts (Bet.bettorId b))) s1)
      as [[u | e] s2]; cbn [snd] in *.
    + split.
      * unfold balance_of in *. cbn [storage users emit snd].
        change (Bet.bettorId b') with (Bet.bettorId b) in Hbal.
        rewrite Hu1 in Hbal. exact Hbal.
      * intros userId Hne. unfold balance_of. cbn [storage users emit snd].
        rewrite (Hother userId Hne), Hu1. reflexivity.
    + split.
      * unfold balance_of in *.
        change (Bet.bettorId b') with (Bet.bettorId b) in Hbal.
        rewrite Hu1 in Hbal. exact Hbal.
      * intros userId Hne. unfold balance_of.
        rewrite (Hother userId Hne), Hu1. reflexivity.
  - cbn. split; [ unfold balance_of; cbn; ring | reflexivity ].
Qed.

(** ** The pool invariant *)

Section CoreFacts.
Context {A C : Type} (key : A -> string) (core : A -> C)
  (key_of_core : C -> string).
Hypothesis key_core : forall a, key a = key_of_core (core a).

Lemma keys_of_cores (t : list A) :
  map key t = map key_of_core (map core t).
Proof.
  rewrite map_map. apply map_ext. exact key_core.
Qed.

(** Overwriting an entry by one with the same core keeps the cores. *)
Lemma Table_set_same_core (t : list A) (a : A) :
  NoDup (map key t) ->
  In (core a) (map core t) ->
  map core (Table.set key t a) = map core t.
Proof.
  induction t as [ | b r IH ]; cbn [map Table.set In]; intros Hnd Hin.
  - destruct Hin.
  - inversion Hnd as [ | ? ? Hnotin Hnd' ]; subst.
    destruct (String.eqb (key b) (key a)) eqn:E; cbn [map].
    + apply String.eqb_eq in E.
      destruct Hin as [Hin | Hin]; [ congruence | ].
      exfalso. apply Hnotin. rewrite E, key_core, keys_of_cores.
      apply in_map, Hin.
    + apply String.eqb_neq in E.
      destruct Hin as [Hin | Hin].
      * exfalso. apply E. rewrite !key_core, Hin. reflexivity.
      * rewrite IH by assumption. reflexivity.
Qed.

Lemma Table_set_In (t : list A) (a x : A) :
  NoDup (map key t) ->
  In x (Table.set key t a) ->
  x = a \/ (In x t /\ key x <> key a).
Proof.
  induction t as [ | b r IH ]; cbn [map Table.set In]; intros Hnd Hin.
  - destruct Hin as [<- | []]. left; reflexivity.
  - inversion Hnd as [ | ? ? Hnotin Hnd' ]; subst.
    destruct (String.eqb (key b) (key a)) eqn:E.
    + apply String.eqb_eq in E.
      destruct Hin as [<- | Hin]; [ left; reflexivity | right ].
      split; [ right; exact Hin | ].
      intros Hk. apply Hnotin. rewrite E, <- Hk. apply in_map, Hin.
    + apply String.eqb_neq in E.
      destruct Hin as [<- | Hin].
      * right. split; [ left; reflexivity | exact E ].
      * destruct (IH Hnd' Hin) as [-> | [Hx Hk]];
          [ left; reflexivity | right ].
        split; [ right; exact Hx | exact Hk ].
Qed.


End CoreFacts.














Section StakeFacts.
Variable config : Config.







End StakeFacts.

Section OperationsKeepStakes.
Variable config : Config.










End OperationsKeepStakes.

Section OperationsKeepConsistency.
Variable config : Config.





Lemma getMarketStats_state (marketId : string) (s : State) :
  state_after (getMarketStats marketId) s = s.
Proof.
  unfold state_after, getMarketStats, load_market, bind, storage_getMarket.
  destruct (Table.get Market.id (markets (storage s)) marketId);
    reflexivity.
Qed.

Lemma calculatePayout_state (marketId outcomeId : string) (amount : number)
  (s : State) :
  state_after (calculatePayout marketId outcomeId amount) s = s.
Proof.
  unfold state_after, calculatePayout, load_market, bind,
    storage_getMarket.
  destruct (Table.get Market.id (markets (storage s)) marketId);
    reflexivity.
Qed.




End OperationsKeepConsistency.


(** ** Concrete scenarios *)

Lemma Num_eq_by_eqb (x y : number) : Num.eqb x y = true -> x = y.
Proof. apply Num_eqb_eq. Qed.


Lemma Some_eq_by_eqb (o : option number) (y : number) :
  match o with
  | Some x => Num.eqb x y
  | None => false
  end = true ->
  o = Some y.
Proof.
  destruct o as [x | ]; [ | discriminate ].
  intros H. f_equal. apply Num_eqb_eq, H.
Qed.

Example scenario_status_created :
  status_in Scenario.created "mkt_1" = Some OPEN.
Proof. vm_compute. reflexivity. Qed.

Example scenario_balance_placed :
  balance_of Scenario.config Scenario.placed "u1" = Num.ofZ 990.
Proof. apply Num_eq_by_eqb. vm_compute. reflexivity. Qed.

Example scenario_balance_cancelled :
  balance_of Scenario.config Scenario.cancelled "u1" = Num.ofZ 1000.
Proof. apply Num_eq_by_eqb. vm_compute. reflexivity. Qed.

Lemma scenario_reachable_placed :
  reachable Scenario.config Scenario.placed.
Proof.
  eapply reachable_step;
    [ eapply reachable_step; [ apply reachable_new | ] | ].
  - apply (step_createMarket Scenario.config State_new 0 "mkt_1"
             (fun _ => "out_1"%string) Scenario.input).
    reflexivity.
  - apply (step_placeBet Scenario.config Scenario.created 1 "bet_1"
             Scenario.bet_input).
    reflexivity.
Qed.

Lemma scenario_reachable_cancelled :
  reachable Scenario.config Scenario.cancelled.
Proof.
  eapply reachable_step; [ apply scenario_reachable_placed | ].
  apply (step_cancelMarket Scenario.config Scenario.placed 2 "mkt_1" None).
Qed.

(** C3. The claim fails on [closeMarket]: in the run create, bet,
    cancel, the market is CANCELLED, and a call of [closeMarket] then
    sets its status to CLOSED (the sibling
    [checkAndCloseExpiredMarkets] leaves it CANCELLED). *)
Theorem closeMarket_reopens_terminal_market :
  reachable Scenario.config Scenario.cancelled /\
  status_in Scenario.cancelled "mkt_1" = Some CANCELLED /\
  status_in Scenario.closed_after_cancel "mkt_1" = Some CLOSED /\
  status_in
    (state_after (checkAndCloseExpiredMarkets 5000) Scenario.cancelled)
    "mkt_1" = Some CANCELLED.
Proof.
  split; [ apply scenario_reachable_cancelled | ].
  repeat split; vm_compute; reflexivity.
Qed.

(** C5. The claim fails on the second [cancelMarket]: in the run
    create, bet 10, cancel, a second [cancelMarket] does not throw (its
    guard only rejects RESOLVED) and credits the bettor's stake once
    more: the balance goes 990, 1000, 1010. *)
Theorem cancelMarket_twice_refunds_twice :
  reachable Scenario.config Scenario.cancelled /\
  status_in Scenario.cancelled "mkt_1" = Some CANCELLED /\
  is_ok
    (result_of (cancelMarket Scenario.config 3 "mkt_1" None)
       Scenario.cancelled) = true /\
  balance_of Scenario.config Scenario.placed "u1" = Num.ofZ 990 /\
  balance_of Scenario.config Scenario.cancelled "u1" = Num.ofZ 1000 /\
  balance_of Scenario.config Scenario.cancelled_twice "u1" = Num.ofZ 1010.
Proof.
  split; [ apply scenario_reachable_cancelled | ].
  split; [ vm_compute; reflexivity | ].
  split; [ vm_compute; reflexivity | ].
  repeat split; apply Num_eq_by_eqb; vm_compute; reflexivity.
Qed.

(** C1. The claim fails in [resolveMarket]'s loop.  On the imported
    storage, bettor u1 holds two bets (10 and 30) on the winning outcome
    A: the payout map assigns u1 40, and the loop credits that 40 once
    per winning bet, so the balance rises by 80.  With B (no stake) as
    the winner the payout map assigns u1 the refund 40, and the loop
    credits nothing. *)
Theorem resolveMarket_credit_differs_from_payout_map :
  is_ok
    (result_of (resolveMarket Scenario.config 2000 Scenario.resolve_A)
       Scenario.imported) = true /\
  JsMap.get
    (calculatePayouts Scenario.resolved_market "A" Scenario.imported_stakes)
    "u1" = Some (Num.ofZ 40) /\
  balance_of Scenario.config
    (state_after (resolveMarket Scenario.config 2000 Scenario.resolve_A)
       Scenario.imported) "u1"
  = balance_of Scenario.config Scenario.imported "u1" + Num.ofZ 80 /\
  is_ok
    (result_of (resolveMarket Scenario.config 2000 Scenario.resolve_B)
       Scenario.imported) = true /\
  JsMap.get
    (calculatePayouts Scenario.resolved_market "B" Scenario.imported_stakes)
    "u1" = Some (Num.ofZ 40) /\
  balance_of Scenario.config
    (state_after (resolveMarket Scenario.config 2000 Scenario.resolve_B)
       Scenario.imported) "u1"
  = balance_of Scenario.config Scenario.imported "u1".
Proof.
  split; [ vm_compute; reflexivity | ].
  split; [ apply Some_eq_by_eqb; vm_compute; reflexivity | ].
  split; [ apply Num_eq_by_eqb; vm_compute; reflexivity | ].
  split; [ vm_compute; reflexivity | ].
  split; [ apply Some_eq_by_eqb; vm_compute; reflexivity | ].
  apply Num_eq_by_eqb; vm_compute; reflexivity.
Qed.







(** C9, witness: the bet of 10 on A placed by u1 on the fresh market. *)
Lemma placeBet_effect_witness :
  is_ok (result_of (placeBet Scenario.config 1 "bet_1" Scenario.bet_input)
           Scenario.created) = true /\
  exists (market market' : Market.t),
    Table.get Market.id (markets (storage Scenario.created)) "mkt_1"
      = Some market /\
    Table.get Market.id (markets (storage Scenario.placed)) "mkt_1"
      = Some market' /\
    Market.totalPool market' = Market.totalPool market + Num.ofZ 10 /\
    balance_of Scenario.config Scenario.placed "u1"
      = balance_of Scenario.config Scenario.created "u1" - Num.ofZ 10.
Proof.
  split; [ vm_compute; reflexivity | ].
  destruct (placeBet_effect Scenario.config 1 "bet_1" Scenario.bet_input
              Scenario.created)
    as (market & market' & outcome & outcome' & Hget & _ & Hget' & _
        & Hpool & _ & _ & Hbal & _).
  - vm_compute. reflexivity.
  - exists market, market'. repeat split; assumption.
Defined.

(* ================================================================== *)
(** * Further properties of the code *)

(** ** utils/validation.ts *)

Lemma Num_ltb_ge (x y : number) : Num.ltb x y = false <-> y <= x.
Proof.
  unfold Num.ltb. rewrite negb_false_iff. apply Qle_bool_iff.
Qed.

Lemma Num_leb_gt (x y : number) : Num.leb x y = false <-> y < x.
Proof.
  rewrite <- Num_ltb_lt. unfold Num.ltb, Num.leb.
  destruct (Qle_bool x y); cbn; split; congruence.
Qed.

Lemma validateCreateMarketInput_decides (now : Z)
  (input : CreateMarketInput.t) :
  (validateCreateMarketInput now input = Ok tt <->
   acceptable_market_input now input) /\
  (validateCreateMarketInput now input = Ok tt \/
   error_code (validateCreateMarketInput now input) = Some INVALID_CONFIG).
Proof.
  unfold validateCreateMarketInput, acceptable_market_input, throw.
  destruct input as [q d os c ot fee md ab lo hi];
    cbn [CreateMarketInput.question CreateMarketInput.outcomes
         CreateMarketInput.closesAt CreateMarketInput.feeRate
         CreateMarketInput.minBet CreateMarketInput.maxBet].
  destruct (String.eqb q "") eqn:Eq.
  { apply String.eqb_eq in Eq.
    split; [ split; [ discriminate | tauto ] | right; reflexivity ]. }
  apply String.eqb_neq in Eq.
  destruct (length os <? 2)%nat eqn:El.
  { apply Nat.ltb_lt in El.
    split; [ split; [ discriminate | intros (_ & H & _); lia ]
           | right; reflexivity ]. }
  apply Nat.ltb_ge in El.
  destruct (c <=? now)%Z eqn:Ec.
  { apply Z.leb_le in Ec.
    split; [ split; [ discriminate | intros (_ & _ & H & _); lia ]
           | right; reflexivity ]. }
  apply Z.leb_gt in Ec.
  assert (Hfee :
            match fee with
            | Some f => Num.ltb f 0 || Num.ltb Num.half f
            | None => false
            end = false <->
            (forall f, fee = Some f -> 0 <= f /\ f <= Num.half)).
  { destruct fee as [f | ].
    - rewrite orb_false_iff, !Num_ltb_ge. split.
      + intros H f' [= <-]. exact H.
      + intros H. apply H. reflexivity.
    - split; [ intros _ f [=] | reflexivity ]. }
  destruct (match fee with Some f => _ | None => false end).
  { split; [ split; [ discriminate | ] | right; reflexivity ].
    intros (_ & _ & _ & H & _). apply Hfee in H. discriminate H. }
  assert (Hmm :
            match lo, hi with
            | Some l, Some h => Num.ltb h l
            | _, _ => false
            end = false <->
            (forall l h, lo = Some l -> hi = Some h -> l <= h)).
  { destruct lo as [l | ]; [ destruct hi as [h | ] | ].
    - rewrite Num_ltb_ge. split.
      + intros H ? ? [= <-] [= <-]. exact H.
      + intros H. apply H; reflexivity.
    - split; [ intros _ ? ? _ [=] | reflexivity ].
    - split; [ intros _ ? ? [=] | reflexivity ]. }
  destruct (match lo, hi with Some l, Some h => _ | _, _ => false end).
  { split; [ split; [ discriminate | ] | right; reflexivity ].
    intros (_ & _ & _ & _ & H & _). apply Hmm in H. discriminate H. }
  assert (Hlo :
            match lo with Some l => Num.ltb l 0 | None => false end = false
            <-> (forall l, lo = Some l -> 0 <= l)).
  { destruct lo as [l | ].
    - rewrite Num_ltb_ge. split.
      + intros H ? [= <-]. exact H.
      + intros H. apply H; reflexivity.
    - split; [ intros _ ? [=] | reflexivity ]. }
  destruct (match lo with Some l => _ | None => false end).
  { split; [ split; [ discriminate | ] | right; reflexivity ].
    intros (_ & _ & _ & _ & _ & H & _). apply Hlo in H. discriminate H. }
  assert (Hhi :
            match hi with Some h => Num.ltb h 0 | None => false end = false
            <-> (forall h, hi = Some h -> 0 <= h)).
  { destruct hi as [h | ].
    - rewrite Num_ltb_ge. split.
      + intros H ? [= <-]. exact H.
      + intros H. apply H; reflexivity.
    - split; [ intros _ ? [=] | reflexivity ]. }
  destruct (match hi with Some h => _ | None => false end).
  { split; [ split; [ discriminate | ] | right; reflexivity ].
    intros (_ & _ & _ & _ & _ & _ & H). apply Hhi in H. discriminate H. }
  split; [ | left; reflexivity ].
  split; [ intros _ | reflexivity ].
  repeat split; try assumption; try lia.
  - apply Hfee; [ reflexivity | assumption ].
  - apply Hfee; [ reflexivity | assumption ].
  - apply Hmm. reflexivity.
  - apply Hlo. reflexivity.
  - apply Hhi. reflexivity.
Qed.


Lemma includes_In (l : list string) (x : string) :
  includes l x = true <-> In x l.
Proof.
  unfold includes. rewrite existsb_exists. split.
  - intros (y & Hin & Heq). apply String.eqb_eq in Heq. subst y. exact Hin.
  - intros Hin. exists x. split; [ exact Hin | apply String.eqb_refl ].
Qed.

Lemma validatePlaceBet_decides (now : Z) (input : placeBetInput.t)
  (market : Market.t) :
  (validatePlaceBet now input market = Ok tt <->
   acceptable_bet now input market) /\
  (validatePlaceBet now input market = Ok tt \/
   error_code (validatePlaceBet now input market) = Some INVALID_INPUT).
Proof.
  unfold validatePlaceBet, acceptable_bet, throw.
  rewrite <- find_outcome_exists.
  destruct (MarketStatus_eqb (Market.status market) OPEN) eqn:Est;
    cbn [negb].
  2:{ split; [ split; [ discriminate | ] | right; reflexivity ].
      intros (H & _). rewrite H in Est. discriminate Est. }
  assert (Hopen : Market.status market = OPEN)
    by (destruct (Market.status market); try discriminate Est; reflexivity).
  destruct (Market.closesAt market <? now)%Z eqn:Ec.
  { apply Z.ltb_lt in Ec.
    split; [ split; [ discriminate | intros (_ & H & _); lia ]
           | right; reflexivity ]. }
  apply Z.ltb_ge in Ec.
  destruct (find_outcome (Market.outcomes market)
              (placeBetInput.outcomeId input)) as [o | ].
  2:{ split; [ split; [ discriminate | ] | right; reflexivity ].
      intros (_ & _ & H & _). congruence. }
  destruct (Num.leb (placeBetInput.amount input) 0) eqn:Ea.
  { apply Num_leb_le in Ea.
    split; [ split; [ discriminate | ] | right; reflexivity ].
    intros (_ & _ & _ & H & _). exfalso.
    apply (Qcle_not_lt _ _ Ea H). }
  apply Num_leb_gt in Ea.
  assert (Hlo :
            match Market.minBet market with
            | Some lo => Num.ltb (placeBetInput.amount input) lo
            | None => false
            end = false <->
            (forall lo, Market.minBet market = Some lo ->
                        lo <= placeBetInput.amount input)).
  { destruct (Market.minBet market) as [lo | ].
    - rewrite Num_ltb_ge. split.
      + intros H ? [= <-]. exact H.
      + intros H. apply H; reflexivity.
    - split; [ intros _ ? [=] | reflexivity ]. }
  destruct (match Market.minBet market with Some _ => _ | None => false end).
  { split; [ split; [ discriminate | ] | right; reflexivity ].
    intros (_ & _ & _ & _ & H & _). apply Hlo in H. discriminate H. }
  assert (Hhi :
            match Market.maxBet market with
            | Some hi => Num.ltb hi (placeBetInput.amount input)
            | None => false
            end = false <->
            (forall hi, Market.maxBet market = Some hi ->
                        placeBetInput.amount input <= hi)).
  { destruct (Market.maxBet market) as [hi | ].
    - rewrite Num_ltb_ge. split.
      + intros H ? [= <-]. exact H.
      + intros H. apply H; reflexivity.
    - split; [ intros _ ? [=] | reflexivity ]. }
  destruct (match Market.maxBet market with Some _ => _ | None => false end).
  { split; [ split; [ discriminate | ] | right; reflexivity ].
    intros (_ & _ & _ & _ & _ & H & _). apply Hhi in H. discriminate H. }
  assert (Hal :
            match Market.allowedBettors market with
            | Some l => negb (includes l (placeBetInput.bettorId input))
            | None => false
            end = false <->
            (forall l, Market.allowedBettors market = Some l ->
                       In (placeBetInput.bettorId input) l)).
  { destruct (Market.allowedBettors market) as [l | ].
    - rewrite negb_false_iff, includes_In. split.
      + intros H ? [= <-]. exact H.
      + intros H. apply H; reflexivity.
    - split; [ intros _ ? [=] | reflexivity ]. }
  destruct (match Market.allowedBettors market with
            | Some _ => _ | None => false end).
  { split; [ split; [ discriminate | ] | right; reflexivity ].
    intros (_ & _ & _ & _ & _ & _ & H). apply Hal in H. discriminate H. }
  split; [ | left; reflexivity ].
  split; [ intros _ | reflexivity ].
  repeat split; try assumption; try discriminate.
  - apply Hlo. reflexivity.
  - apply Hhi. reflexivity.
  - apply Hal. reflexivity.
Qed.


(** ** utils/odds.ts *)

(** Moving (in)equalities on [Qc] to [Q], where [lra] decides them. *)
Ltac qc_to_q :=
  unfold Qcle, Qclt in *;
  repeat (rewrite this_plus in * || rewrite this_minus in *
          || rewrite this_mult in * || rewrite this_opp in *
          || rewrite this_ofZ in * || rewrite this_half in *);
  change (this (Q2Qc 0)) with 0%Q in *;
  change (this (Q2Qc 1)) with 1%Q in *.








(** ** utils/ids.ts *)



(** ** adapters/storage.ts: MemoryStorage *)

Section TableLaws.
Context {A : Type} (key : A -> string).

Lemma Table_set_length (t : list A) (a : A) :
  length (Table.set key t a) =
    match Table.get key t (key a) with
    | Some _ => length t
    | None => S (length t)
    end.
Proof.
  induction t as [ | b r IH ]; cbn [Table.set Table.get length];
    [ reflexivity | ].
  destruct (String.eqb (key b) (key a)); cbn [length]; [ reflexivity | ].
  rewrite IH. destruct (Table.get key r (key a)); reflexivity.
Qed.

Lemma Table_delete_get (t : list A) (k k' : string) :
  NoDup (map key t) ->
  Table.get key (Table_delete key t k) k' =
    if String.eqb k k' then None else Table.get key t k'.
Proof.
  induction t as [ | b r IH ]; cbn [Table_delete Table.get map];
    intros Hnd.
  - destruct (String.eqb k k'); reflexivity.
  - inversion Hnd as [ | ? ? Hnotin Hnd' ]; subst.
    destruct (String.eqb (key b) k) eqn:Ebk.
    + apply String.eqb_eq in Ebk. subst k.
      destruct (String.eqb (key b) k') eqn:E.
      * apply String.eqb_eq in E. subst k'.
        apply Table_get_None. exact Hnotin.
      * reflexivity.
    + cbn [Table.get]. destruct (String.eqb (key b) k') eqn:E.
      * apply String.eqb_eq in E. subst k'.
        rewrite String.eqb_sym, Ebk. reflexivity.
      * apply IH, Hnd'.
Qed.

Lemma Table_delete_incl (t : list A) (k : string) (x : string) :
  In x (map key (Table_delete key t k)) -> In x (map key t).
Proof.
  induction t as [ | b r IH ]; cbn [Table_delete map In]; [ tauto | ].
  destruct (String.eqb (key b) k); cbn [map In]; tauto.
Qed.

Lemma Table_delete_NoDup (t : list A) (k : string) :
  NoDup (map key t) -> NoDup (map key (Table_delete key t k)).
Proof.
  induction t as [ | b r IH ]; cbn [Table_delete map]; intros Hnd.
  - constructor.
  - inversion Hnd as [ | ? ? Hnotin Hnd' ]; subst.
    destruct (String.eqb (key b) k); [ exact Hnd' | ].
    cbn [map]. constructor; [ | apply IH, Hnd' ].
    intros Hin. apply Hnotin. apply (Table_delete_incl r k), Hin.
Qed.

Lemma Table_delete_length (t : list A) (k : string) :
  length (Table_delete key t k) =
    match Table.get key t k with
    | Some _ => pred (length t)
    | None => length t
    end.
Proof.
  induction t as [ | b r IH ]; cbn [Table_delete Table.get length];
    [ reflexivity | ].
  destruct (String.eqb (key b) k); cbn [length pred]; [ reflexivity | ].
  rewrite IH. destruct (Table.get key r k) eqn:E; [ | reflexivity ].
  destruct r; [ discriminate E | reflexivity ].
Qed.

Lemma Table_get_of_In (t : list A) (a : A) :
  NoDup (map key t) -> In a t -> Table.get key t (key a) = Some a.
Proof.
  induction t as [ | b r IH ]; cbn [Table.get map In]; intros Hnd Hin;
    [ destruct Hin | ].
  inversion Hnd as [ | ? ? Hnotin Hnd' ]; subst.
  destruct Hin as [-> | Hin]; [ rewrite String.eqb_refl; reflexivity | ].
  destruct (String.eqb (key b) (key a)) eqn:E; [ | apply IH; assumption ].
  apply String.eqb_eq in E. exfalso. apply Hnotin. rewrite E.
  apply in_map, Hin.
Qed.

(** Storing again what is stored changes nothing. *)
Lemma Table_set_same (t : list A) (a : A) :
  Table.get key t (key a) = Some a -> Table.set key t a = t.
Proof.
  induction t as [ | b r IH ]; cbn [Table.get Table.set];
    [ discriminate | ].
  destruct (String.eqb (key b) (key a)).
  - intros [= ->]. reflexivity.
  - intros H. rewrite IH by exact H. reflexivity.
Qed.

Lemma Table_import_fresh (l : list A) :
  forall acc : list A,
    NoDup (map key (acc ++ l)) ->
    fold_left (Table.set key) l acc = acc ++ l.
Proof.
  induction l as [ | a r IH ]; intros acc Hnd; cbn [fold_left].
  - rewrite app_nil_r. reflexivity.
  - assert (Hfresh : Table.get key acc (key a) = None).
    { apply Table_get_None. intros Hin.
      rewrite map_app in Hnd. cbn [map] in Hnd.
      apply NoDup_remove_2 in Hnd. apply Hnd, in_or_app.
      left. exact Hin. }
    rewrite (Table_set_fresh key acc a Hfresh).
    rewrite IH; rewrite <- app_assoc; [ reflexivity | exact Hnd ].
Qed.

Lemma Table_import_same (t : list A) (l : list A) :
  NoDup (map key t) -> incl l t ->
  fold_left (Table.set key) l t = t.
Proof.
  intros Hnd. induction l as [ | a r IH ]; intros Hincl; cbn [fold_left].
  - reflexivity.
  - rewrite Table_set_same.
    + apply IH. intros x Hx. apply Hincl. right. exact Hx.
    + apply Table_get_of_In; [ exact Hnd | ].
      apply Hincl. left. reflexivity.
Qed.

(** After an import, lookup finds the last imported value with the key,
    and what was stored under every other key. *)
Lemma Table_import_get (l : list A) (k : string) :
  forall acc : list A,
    Table.get key (fold_left (Table.set key) l acc) k =
      match Table.get key (rev l) k with
      | Some a => Some a
      | None => Table.get key acc k
      end.
Proof.
  induction l as [ | a r IH ]; intros acc; cbn [fold_left rev].
  - reflexivity.
  - rewrite IH, Table_get_set.
    assert (Happ : forall (l1 l2 : list A),
               Table.get key (l1 ++ l2) k =
                 match Table.get key l1 k with
                 | Some x => Some x
                 | None => Table.get key l2 k
                 end).
    { induction l1 as [ | x l1 IH1 ]; intros l2; cbn [app Table.get];
        [ reflexivity | ].
      destruct (String.eqb (key x) k); [ reflexivity | apply IH1 ]. }
    rewrite Happ. cbn [Table.get].
    destruct (Table.get key (rev r) k); [ reflexivity | ].
    destruct (String.eqb (key a) k); reflexivity.
Qed.

End TableLaws.

(** X10. A saved market, bet or user is what a lookup by its id then
    returns, lookups by any other id are unaffected, the count reported
    by [getStats] grows by one exactly when the id was not stored yet,
    and the keys stay unique. *)
Theorem MemoryStorage_save_get (st : MemoryStorage) (m : Market.t)
  (b : Bet.t) (u : User.t) :
  (forall k,
      MemoryStorage_getMarket (MemoryStorage_saveMarket st m) k =
        if String.eqb (Market.id m) k then Some m
        else MemoryStorage_getMarket st k) /\
  (forall k,
      MemoryStorage_getBet (MemoryStorage_saveBet st b) k =
        if String.eqb (Bet.id b) k then Some b
        else MemoryStorage_getBet st k) /\
  (forall k,
      MemoryStorage_getUser (MemoryStorage_saveUser st u) k =
        if String.eqb (User.id u) k then Some u
        else MemoryStorage_getUser st k) /\
  stats_markets (MemoryStorage_getStats (MemoryStorage_saveMarket st m)) =
    match MemoryStorage_getMarket st (Market.id m) with
    | Some _ => stats_markets (MemoryStorage_getStats st)
    | None => S (stats_markets (MemoryStorage_getStats st))
    end /\
  stats_bets (MemoryStorage_getStats (MemoryStorage_saveBet st b)) =
    match MemoryStorage_getBet st (Bet.id b) with
    | Some _ => stats_bets (MemoryStorage_getStats st)
    | None => S (stats_bets (MemoryStorage_getStats st))
    end /\
  stats_users (MemoryStorage_getStats (MemoryStorage_saveUser st u)) =
    match MemoryStorage_getUser st (User.id u) with
    | Some _ => stats_users (MemoryStorage_getStats st)
    | None => S (stats_users (MemoryStorage_getStats st))
    end /\
  (keys_unique st ->
   keys_unique (MemoryStorage_saveMarket st m) /\
   keys_unique (MemoryStorage_saveBet st b) /\
   keys_unique (MemoryStorage_saveUser st u)).
Proof.
  unfold MemoryStorage_getMarket, MemoryStorage_getBet,
    MemoryStorage_getUser, MemoryStorage_saveMarket, MemoryStorage_saveBet,
    MemoryStorage_saveUser, MemoryStorage_getStats, keys_unique.
  cbn [markets bets users stats_markets stats_bets stats_users].
  repeat split; try (intros k; apply Table_get_set);
    try apply Table_set_length;
    try tauto;
    apply Table_set_NoDup; tauto.
Qed.

(** X11. With unique keys, a deleted market or bet is no longer found,
    lookups by any other id are unaffected, the count reported by
    [getStats] drops by one exactly when the id was stored, and the keys
    stay unique. *)
Theorem MemoryStorage_delete_get (st : MemoryStorage) (id : string) :
  keys_unique st ->
  (forall k,
      MemoryStorage_getMarket (MemoryStorage_deleteMarket st id) k =
        if String.eqb id k then None else MemoryStorage_getMarket st k) /\
  (forall k,
      MemoryStorage_getBet (MemoryStorage_deleteBet st id) k =
        if String.eqb id k then None else MemoryStorage_getBet st k) /\
  stats_markets (MemoryStorage_getStats (MemoryStorage_deleteMarket st id)) =
    match MemoryStorage_getMarket st id with
    | Some _ => pred (stats_markets (MemoryStorage_getStats st))
    | None => stats_markets (MemoryStorage_getStats st)
    end /\
  stats_bets (MemoryStorage_getStats (MemoryStorage_deleteBet st id)) =
    match MemoryStorage_getBet st id with
    | Some _ => pred (stats_bets (MemoryStorage_getStats st))
    | None => stats_bets (MemoryStorage_getStats st)
    end /\
  keys_unique (MemoryStorage_deleteMarket st id) /\
  keys_unique (MemoryStorage_deleteBet st id).
Proof.
  unfold MemoryStorage_getMarket, MemoryStorage_getBet,
    MemoryStorage_deleteMarket, MemoryStorage_deleteBet,
    MemoryStorage_getStats, keys_unique.
  cbn [markets bets users stats_markets stats_bets].
  intros (Hm & Hb & Hu).
  repeat split; try assumption;
    try (intros k; apply Table_delete_get; assumption);
    try apply Table_delete_length;
    apply Table_delete_NoDup; assumption.
Qed.

(** X12. Export then import is a round trip: with unique keys, importing
    a storage's own export into a fresh storage rebuilds that storage,
    entry for entry and in the same order, and importing it into the
    storage itself changes nothing. *)
Theorem MemoryStorage_export_import (st : MemoryStorage) :
  keys_unique st ->
  MemoryStorage_importData MemoryStorage_new (MemoryStorage_exportData st)
    = st /\
  MemoryStorage_importData st (MemoryStorage_exportData st) = st.
Proof.
  intros (Hm & Hb & Hu). destruct st as [ms bs us].
  unfold MemoryStorage_importData, MemoryStorage_exportData,
    MemoryStorage_new, Table.values.
  cbn [markets bets users data_markets data_bets data_users] in *.
  split.
  - rewrite !Table_import_fresh by assumption. reflexivity.
  - rewrite !Table_import_same by (assumption || apply incl_refl).
    reflexivity.
Qed.

(** X13. [importData] overrides by id and keeps the rest: after an
    import, a lookup returns the last imported entry with that id if
    there is one, and otherwise what the storage held before. *)
Theorem MemoryStorage_import_get (st : MemoryStorage) (data : ExportedData)
  (k : string) :
  MemoryStorage_getMarket (MemoryStorage_importData st data) k =
    match Table.get Market.id (rev (data_markets data)) k with
    | Some m => Some m
    | None => MemoryStorage_getMarket st k
    end /\
  MemoryStorage_getBet (MemoryStorage_importData st data) k =
    match Table.get Bet.id (rev (data_bets data)) k with
    | Some b => Some b
    | None => MemoryStorage_getBet st k
    end /\
  MemoryStorage_getUser (MemoryStorage_importData st data) k =
    match Table.get User.id (rev (data_users data)) k with
    | Some u => Some u
    | None => MemoryStorage_getUser st k
    end.
Proof.
  unfold MemoryStorage_getMarket, MemoryStorage_getBet,
    MemoryStorage_getUser, MemoryStorage_importData.
  cbn [markets bets users].
  repeat split; apply Table_import_get.
Qed.

(** ** core/sdk.ts: how the calls run *)

Lemma Table_set_set {A : Type} (key : A -> string) (t : list A) (a a' : A) :
  key a = key a' ->
  Table.set key (Table.set key t a) a' = Table.set key t a'.
Proof.
  intros Hk. induction t as [ | b r IH ]; cbn [Table.set].
  - rewrite Hk, String.eqb_refl. reflexivity.
  - rewrite <- Hk. destruct (String.eqb (key b) (key a)) eqn:E;
      cbn [Table.set].
    + rewrite Hk, String.eqb_refl. reflexivity.
    + rewrite <- Hk, E, IH. reflexivity.
Qed.

(** A loop whose body never throws runs every iteration in turn. *)
Lemma for_of_run {A : Type} (body : A -> M unit) (l : list A) :
  (forall a s, is_ok (result_of (body a) s) = true) ->
  forall s,
    for_of l body s
    = (Ok tt, fold_left (fun s a => state_after (body a) s) l s).
Proof.
  intros Hbody. unfold result_of, state_after in *.
  induction l as [ | a r IH ]; intros s; cbn [for_of fold_left].
  - reflexivity.
  - unfold bind. specialize (Hbody a s).
    destruct (body a s) as [[ [] | e] s1]; [ | discriminate Hbody ].
    cbn [snd]. apply IH.
Qed.

Section RunFacts.
Variable config : Config.

Lemma getOrCreateUser_run (now : Z) (userId : string) (s : State) :
  result_of (getOrCreateUser config now userId) s
  = Ok (user_or_new config now (users (storage s)) userId) /\
  markets (storage (state_after (getOrCreateUser config now userId) s))
  = markets (storage s) /\
  bets (storage (state_after (getOrCreateUser config now userId) s))
  = bets (storage s) /\
  users (storage (state_after (getOrCreateUser config now userId) s))
  = match Table.get User.id (users (storage s)) userId with
    | Some _ => users (storage s)
    | None =>
        Table.set User.id (users (storage s))
          (user_or_new config now (users (storage s)) userId)
    end.
Proof.
  unfold result_of, state_after, getOrCreateUser, bind, storage_getUser,
    user_or_new.
  destruct (Table.get User.id (users (storage s)) userId);
    cbn; repeat split; reflexivity.
Qed.

Lemma user_or_new_id (now : Z) (us : list User.t) (userId : string) :
  User.id (user_or_new config now us userId) = userId.
Proof.
  unfold user_or_new.
  destruct (Table.get User.id us userId) as [u | ] eqn:E; [ | reflexivity ].
  apply (Table_get_key User.id _ _ _ E).
Qed.

Lemma credited_id (u : User.t) (delta : number) :
  User.id (credited u delta) = User.id u.
Proof. unfold credited. destruct (Num.ltb 0 delta); reflexivity. Qed.

Lemma credited_balance (u : User.t) (delta : number) :
  User.balance (credited u delta) = User.balance u + delta.
Proof. unfold credited. destruct (Num.ltb 0 delta); reflexivity. Qed.

(** [updateUserBalance] never throws and rewrites one user record. *)
Lemma updateUserBalance_run (now : Z) (userId : string) (delta : number)
  (s : State) :
  let u := credited (user_or_new config now (users (storage s)) userId)
             delta in
  result_of (updateUserBalance config now userId delta) s = Ok u /\
  markets (storage (state_after (updateUserBalance config now userId delta) s))
  = markets (storage s) /\
  bets (storage (state_after (updateUserBalance config now userId delta) s))
  = bets (storage s) /\
  users (storage (state_after (updateUserBalance config now userId delta) s))
  = Table.set User.id (users (storage s)) u.
Proof.
  cbv zeta.
  destruct (getOrCreateUser_run now userId s) as (Hres & Hm & Hb & Hu).
  unfold result_of, state_after in *.
  unfold updateUserBalance, bind.
  destruct (getOrCreateUser config now userId s) as [r s1].
  cbn [fst snd] in *. subst r.
  fold (credited (user_or_new config now (users (storage s)) userId) delta).
  cbn. rewrite Hm, Hb, Hu. repeat split; try reflexivity.
  destruct (Table.get User.id (users (storage s)) userId); [ reflexivity | ].
  apply Table_set_set. rewrite credited_id. reflexivity.
Qed.

Lemma resolve_bet_is_ok (now : Z) (market : Market.t) (w : string)
  (payouts : JsMap.t number) (b : Bet.t) (s : State) :
  is_ok (result_of (resolve_bet config now market w payouts b) s) = true.
Proof.
  unfold result_of, resolve_bet. unfold bind at 1.
  cbn [storage_saveBet].
  destruct (_ && _); [ | reflexivity ].
  unfold bind.
  match goal with
  | |- context [updateUserBalance config now ?u ?d ?s1] =>
      destruct (updateUserBalance_run now u d s1) as (Hres & _);
      unfold result_of in Hres;
      destruct (updateUserBalance config now u d s1) as [res s2]
  end.
  cbn [fst] in Hres. subst res. reflexivity.
Qed.

Lemma updateUserBalance_run_eq (now : Z) (userId : string) (delta : number)
  (s : State) :
  exists s',
    updateUserBalance config now userId delta s
    = (Ok (credited (user_or_new config now (users (storage s)) userId)
             delta), s') /\
    markets (storage s') = markets (storage s) /\
    bets (storage s') = bets (storage s) /\
    users (storage s')
    = Table.set User.id (users (storage s))
        (credited (user_or_new config now (users (storage s)) userId)
           delta).
Proof.
  destruct (updateUserBalance_run now userId delta s)
    as (Hres & Hm & Hb & Hu).
  unfold result_of, state_after in *.
  destruct (updateUserBalance config now userId delta s) as [res s'].
  cbn [fst snd] in *. subst res. exists s'. repeat split; assumption.
Qed.

(** The effect of one iteration of the loop of [cancelMarket]. *)
Lemma refund_bet_effect (now : Z) (market : Market.t) (b : Bet.t)
  (s : State) :
  let s' := state_after (refund_bet config now market b) s in
  markets (storage s') = markets (storage s) /\
  bets (storage s')
  = Table.set Bet.id (bets (storage s))
      (Bet.settle b refunded (Bet.amount b)) /\
  users (storage s')
  = Table.set User.id (users (storage s))
      (credited (user_or_new config now (users (storage s))
                   (Bet.bettorId b)) (Bet.amount b)).
Proof.
  cbv zeta.
  assert (Hrun : exists s',
             refund_bet config now market b s = (Ok tt, s') /\
             markets (storage s') = markets (storage s) /\
             bets (storage s')
             = Table.set Bet.id (bets (storage s))
                 (Bet.settle b refunded (Bet.amount b)) /\
             users (storage s')
             = Table.set User.id (users (storage s))
                 (credited (user_or_new config now (users (storage s))
                              (Bet.bettorId b)) (Bet.amount b))).
  { unfold refund_bet. unfold bind at 1. cbn [storage_saveBet]. unfold bind.
    match goal with
    | |- context [updateUserBalance config now ?u ?d ?s1] =>
        destruct (updateUserBalance_run_eq now u d s1)
          as (s2 & -> & Hm & Hb & Hu)
    end.
    eexists. split; [ reflexivity | ].
    cbn [emit snd storage]. rewrite Hm, Hb, Hu.
    repeat split; reflexivity. }
  destruct Hrun as (s' & Hrun & H).
  unfold state_after. rewrite Hrun. exact H.
Qed.

(** The effect of one iteration of the loop of [resolveMarket]. *)
Lemma resolve_bet_effect (now : Z) (market : Market.t) (w : string)
  (payouts : JsMap.t number) (b : Bet.t) (s : State) :
  let s' := state_after (resolve_bet config now market w payouts b) s in
  let isWinner := String.eqb (Bet.outcomeId b) w in
  let payout := Num.or0 (JsMap.get payouts (Bet.bettorId b)) in
  markets (storage s') = markets (storage s) /\
  bets (storage s')
  = Table.set Bet.id (bets (storage s))
      (Bet.settle b (if isWinner then won else lost)
         (if isWinner then payout else 0)) /\
  users (storage s')
  = if isWinner && Num.ltb 0 payout
    then Table.set User.id (users (storage s))
           (credited (user_or_new config now (users (storage s))
                        (Bet.bettorId b)) payout)
    else users (storage s).
Proof.
  cbv zeta.
  assert (Hrun : exists s',
             resolve_bet config now market w payouts b s = (Ok tt, s') /\
             markets (storage s') = markets (storage s) /\
             bets (storage s')
             = Table.set Bet.id (bets (storage s))
                 (Bet.settle b
                    (if String.eqb (Bet.outcomeId b) w then won else lost)
                    (if String.eqb (Bet.outcomeId b) w
                     then Num.or0 (JsMap.get payouts (Bet.bettorId b))
                     else 0)) /\
             users (storage s')
             = if String.eqb (Bet.outcomeId b) w
                  && Num.ltb 0 (Num.or0 (JsMap.get payouts (Bet.bettorId b)))
               then Table.set User.id (users (storage s))
                      (credited (user_or_new config now (users (storage s))
                                   (Bet.bettorId b))
                         (Num.or0 (JsMap.get payouts (Bet.bettorId b))))
               else users (storage s)).
  { unfold resolve_bet. unfold bind at 1. cbn [storage_saveBet].
    destruct (String.eqb (Bet.outcomeId b) w
              && Num.ltb 0 (Num.or0 (JsMap.get payouts (Bet.bettorId b)))).
    - unfold bind.
      match goal with
      | |- context [updateUserBalance config now ?u ?d ?s1] =>
          destruct (updateUserBalance_run_eq now u d s1)
            as (s2 & -> & Hm & Hb & Hu)
      end.
      eexists. split; [ reflexivity | ].
      cbn [emit snd storage]. rewrite Hm, Hb, Hu.
      repeat split; reflexivity.
    - eexists. split; [ reflexivity | ]. cbn. repeat split; reflexivity. }
  destruct Hrun as (s' & Hrun & H).
  unfold state_after. rewrite Hrun. exact H.
Qed.

End RunFacts.

Section LoopFacts.
Variable config : Config.

(** Writing back one credited user moves one balance. *)
Lemma balance_after_credit (now : Z) (s s' : State) (k : string)
  (delta : number) :
  users (storage s')
  = Table.set User.id (users (storage s))
      (credited (user_or_new config now (users (storage s)) k) delta) ->
  forall userId,
    balance_of config s' userId
    = balance_of config s userId
      + (if String.eqb k userId then delta else 0).
Proof.
  intros Hu userId. unfold balance_of. rewrite Hu, Table_get_set.
  rewrite credited_id, user_or_new_id.
  destruct (String.eqb k userId) eqn:E.
  - apply String.eqb_eq in E. subst userId.
    rewrite credited_balance. unfold user_or_new.
    destruct (Table.get User.id (users (storage s)) k); reflexivity.
  - ring.
Qed.


(** The loop of [resolveMarket] over the bets [l]: markets are not
    touched and each bet is written back settled. *)
Lemma resolve_loop_effect (now : Z) (market : Market.t) (w : string)
  (payouts : JsMap.t number) (l : list Bet.t) :
  forall s,
    let s' := fold_left
                (fun s b =>
                   state_after
                     (resolve_bet config now market w payouts b) s)
                l s in
    markets (storage s') = markets (storage s) /\
    bets (storage s')
    = fold_left (Table.set Bet.id)
        (map (fun b =>
                Bet.settle b
                  (if String.eqb (Bet.outcomeId b) w then won else lost)
                  (if String.eqb (Bet.outcomeId b) w
                   then Num.or0 (JsMap.get payouts (Bet.bettorId b))
                   else 0)) l)
        (bets (storage s)).
Proof.
  induction l as [ | b r IH ]; intros s; cbn [fold_left map].
  - split; reflexivity.
  - destruct (resolve_bet_effect config now market w payouts b s)
      as (Hm & Hb & _).
    destruct (IH (state_after
                    (resolve_bet config now market w payouts b) s))
      as (Hm' & Hb').
    cbv zeta in *. rewrite Hm', Hb', Hm, Hb. split; reflexivity.
Qed.

End LoopFacts.

Section SettledBets.
Context (f : Bet.t -> Bet.t).
Hypothesis f_id : forall b, Bet.id (f b) = Bet.id b.

Lemma Table_unique_entry {A : Type} (key : A -> string) (t : list A)
  (a a' : A) :
  NoDup (map key t) -> In a t -> In a' t -> key a = key a' -> a = a'.
Proof.
  intros Hnd Ha Ha' Hk.
  pose proof (Table_get_of_In key t a Hnd Ha) as H1.
  pose proof (Table_get_of_In key t a' Hnd Ha') as H2.
  rewrite Hk in H1. congruence.
Qed.

Lemma NoDup_map_filter {A B : Type} (g : A -> B) (p : A -> bool)
  (t : list A) :
  NoDup (map g t) -> NoDup (map g (filter p t)).
Proof.
  induction t as [ | a r IH ]; cbn [map filter]; intros Hnd;
    [ constructor | ].
  inversion Hnd as [ | ? ? Hnotin Hnd' ]; subst.
  destruct (p a); [ | apply IH, Hnd' ].
  cbn [map]. constructor; [ | apply IH, Hnd' ].
  intros Hin. apply Hnotin. apply in_map_iff in Hin.
  destruct Hin as (x & Hx & Hin). apply filter_In in Hin.
  rewrite <- Hx. apply in_map, Hin.
Qed.

(** Writing back the images under [f] of the entries selected by [p]:
    with unique keys, every stored bet is then found as its image if
    selected and as itself if not. *)
Lemma settled_bets_get (p : Bet.t -> bool) (B : list Bet.t) (b : Bet.t) :
  NoDup (map Bet.id B) ->
  In b B ->
  Table.get Bet.id
    (fold_left (Table.set Bet.id) (map f (filter p B)) B) (Bet.id b)
  = Some (if p b then f b else b).
Proof.
  intros Hnd Hin. rewrite Table_import_get.
  assert (Hkeys : map Bet.id (map f (filter p B))
                  = map Bet.id (filter p B)).
  { rewrite map_map. apply map_ext. exact f_id. }
  assert (HndL : NoDup (map Bet.id (rev (map f (filter p B))))).
  { rewrite map_rev. apply NoDup_rev. rewrite Hkeys.
    apply NoDup_map_filter, Hnd. }
  destruct (p b) eqn:Ep.
  - rewrite <- (f_id b).
    rewrite (Table_get_of_In Bet.id _ (f b) HndL); [ reflexivity | ].
    apply -> in_rev. apply in_map. apply filter_In. split; assumption.
  - destruct (Table.get Bet.id (rev (map f (filter p B))) (Bet.id b))
      as [x | ] eqn:E.
    + exfalso.
      pose proof (Table_get_key Bet.id _ _ _ E) as Hk.
      apply Table_get_In in E. apply in_rev in E.
      apply in_map_iff in E. destruct E as (b0 & <- & Hb0).
      apply filter_In in Hb0. destruct Hb0 as [Hb0 Hp0].
      rewrite f_id in Hk.
      rewrite (Table_unique_entry Bet.id B b0 b Hnd Hb0 Hin Hk) in Hp0.
      congruence.
    + apply Table_get_of_In; assumption.
Qed.

Lemma settled_bets_length (l : list Bet.t) :
  forall B : list Bet.t,
    incl (map Bet.id l) (map Bet.id B) ->
    length (fold_left (Table.set Bet.id) (map f l) B) = length B.
Proof.
  induction l as [ | a r IH ]; intros B Hincl; cbn [map fold_left];
    [ reflexivity | ].
  assert (Hlen : length (Table.set Bet.id B (f a)) = length B).
  { rewrite Table_set_length, f_id.
    destruct (Table.get Bet.id B (Bet.id a)) eqn:E; [ reflexivity | ].
    apply Table_get_None in E. exfalso. apply E, Hincl. left. reflexivity. }
  rewrite IH; [ exact Hlen | ].
  intros x Hx. rewrite Table_set_keys, f_id.
  destruct (Table.get Bet.id B (Bet.id a)); [ | apply in_or_app; left ];
    apply Hincl; right; exact Hx.
Qed.

End SettledBets.

(** ** core/sdk.ts: cancelMarket and resolveMarket *)

Section SettlementFacts.
Variable config : Config.



(** The balances after the loop of [resolveMarket] over the bets [l]. *)
Lemma resolve_loop_balance (now : Z) (market : Market.t) (w : string)
  (payouts : JsMap.t number) (l : list Bet.t) :
  forall s userId,
    balance_of config
      (fold_left
         (fun s b =>
            state_after (resolve_bet config now market w payouts b) s)
         l s) userId
    = balance_of config s userId
      + sum_numbers
          (map (fun b =>
                  if String.eqb (Bet.outcomeId b) w
                     && Num.ltb 0 (Num.or0 (JsMap.get payouts userId))
                  then Num.or0 (JsMap.get payouts userId) else 0)
             (filter (fun b => String.eqb (Bet.bettorId b) userId) l)).
Proof.
  induction l as [ | b r IH ]; intros s userId; cbn [fold_left filter].
  - unfold sum_numbers. cbn. ring.
  - rewrite IH.
    destruct (resolve_bet_effect config now market w payouts b s)
      as (_ & _ & Hu). cbv zeta in Hu.
    destruct (String.eqb (Bet.bettorId b) userId) eqn:Eb.
    + apply String.eqb_eq in Eb. subst userId.
      destruct (String.eqb (Bet.outcomeId b) w
                && Num.ltb 0 (Num.or0 (JsMap.get payouts (Bet.bettorId b))))
        eqn:Ew.
      * rewrite (balance_after_credit config now s _ _ _ Hu).
        rewrite String.eqb_refl.
        unfold sum_numbers. cbn [map fold_right]. rewrite Ew. ring.
      * unfold balance_of at 1. rewrite Hu. fold (balance_of config s
                                                    (Bet.bettorId b)).
        unfold sum_numbers. cbn [map fold_right]. rewrite Ew. ring.
    + f_equal.
      destruct (String.eqb (Bet.outcomeId b) w
                && Num.ltb 0 (Num.or0 (JsMap.get payouts (Bet.bettorId b)))).
      * rewrite (balance_after_credit config now s _ _ _ Hu).
        rewrite Eb. ring.
      * unfold balance_of. rewrite Hu. reflexivity.
Qed.

Lemma no_winning_bet_no_credit (w userId : string) (p : number)
  (l : list Bet.t) :
  (forall b, In b l -> Bet.bettorId b = userId -> Bet.outcomeId b <> w) ->
  sum_numbers
    (map (fun b =>
            if String.eqb (Bet.outcomeId b) w && Num.ltb 0 p
            then p else 0)
       (filter (fun b => String.eqb (Bet.bettorId b) userId) l)) = 0.
Proof.
  induction l as [ | b r IH ]; intros Hnone; [ reflexivity | ].
  cbn [filter].
  assert (Hr : forall b0, In b0 r -> Bet.bettorId b0 = userId ->
                          Bet.outcomeId b0 <> w)
    by (intros b0 Hb0; apply Hnone; right; exact Hb0).
  destruct (String.eqb (Bet.bettorId b) userId) eqn:Eu;
    [ | apply IH, Hr ].
  cbn [map]. change (sum_numbers (?x :: ?t)) with (x + sum_numbers t).
  rewrite (IH Hr). apply String.eqb_eq in Eu.
  pose proof (Hnone b (or_introl eq_refl) Eu) as Hne.
  apply String.eqb_neq in Hne. rewrite Hne. cbn [andb]. ring.
Qed.

Lemma resolveMarket_run (now : Z) (input : resolveMarketInput.t)
  (s : State) (m : Market.t) :
  Table.get Market.id (markets (storage s))
    (resolveMarketInput.marketId input) = Some m ->
  validateResolveMarket input m = Ok tt ->
  let w := resolveMarketInput.winningOutcomeId input in
  let l := bets_of_market (Market.id m) (bets (storage s)) in
  let payouts := calculatePayouts m w (map stake_of l) in
  let m' := Market.resolved m now w in
  exists s' : State,
    resolveMarket config now input s = (Ok m', s') /\
    markets (storage s') = Table.set Market.id (markets (storage s)) m' /\
    bets (storage s')
    = fold_left (Table.set Bet.id)
        (map (fun b =>
                Bet.settle b
                  (if String.eqb (Bet.outcomeId b) w then won else lost)
                  (if String.eqb (Bet.outcomeId b) w
                   then Num.or0 (JsMap.get payouts (Bet.bettorId b))
                   else 0)) l)
        (bets (storage s)) /\
    (forall userId,
        balance_of config s' userId
        = balance_of config s userId
          + sum_numbers
              (map (fun b =>
                      if String.eqb (Bet.outcomeId b) w
                         && Num.ltb 0 (Num.or0 (JsMap.get payouts userId))
                      then Num.or0 (JsMap.get payouts userId) else 0)
                 (filter (fun b => String.eqb (Bet.bettorId b) userId) l))).
Proof.
  intros Hget Hval. cbv zeta. unfold resolveMarket, load_market.
  unfold bind at 1 2. unfold storage_getMarket. rewrite Hget. cbn [ret].
  unfold bind at 1. unfold check. rewrite Hval.
  unfold bind at 1. unfold storage_getAllBets. unfold bind at 1.
  cbn [storage_saveMarket]. unfold bind at 1.
  rewrite (for_of_run _ _ (resolve_bet_is_ok config now _ _ _)).
  unfold Table.values.
  set (w := resolveMarketInput.winningOutcomeId input).
  set (l := bets_of_market (Market.id m) (bets (storage s))).
  set (payouts := calculatePayouts m w (map stake_of l)).
  set (m' := Market.resolved m now w).
  set (s1 := mkState _ (emitted s)).
  destruct (resolve_loop_effect config now m' w payouts l s1) as (Hm & Hb).
  pose proof (resolve_loop_balance now m' w payouts l s1) as Hbal.
  cbv zeta in Hm, Hb. set (s2 := fold_left _ l s1) in *.
  eexists. split; [ reflexivity | ].
  cbn [storage markets bets users snd emit].
  repeat split; try assumption.
Qed.

(** X15. [resolveMarket] on a stored market that passes
    [validateResolveMarket], in a storage with unique bet ids: the call
    returns the market with status RESOLVED, the given winner, the clock
    as resolvedAt, and pool and outcomes as they were, and stores it;
    every other market is unchanged; every stored bet of the market is
    written back as won (with the payout map's amount for its bettor as
    payout) when it is on the winning outcome and as lost (payout 0)
    otherwise, every other bet is unchanged and no bet appears or
    disappears; a user with no bet of the market on the winning outcome
    keeps their balance. *)
Theorem resolveMarket_settles (now : Z) (input : resolveMarketInput.t)
  (s : State) (m : Market.t) :
  NoDup (map Bet.id (bets (storage s))) ->
  Table.get Market.id (markets (storage s))
    (resolveMarketInput.marketId input) = Some m ->
  validateResolveMarket input m = Ok tt ->
  let marketId := resolveMarketInput.marketId input in
  let w := resolveMarketInput.winningOutcomeId input in
  let payouts :=
    calculatePayouts m w
      (map stake_of (bets_of_market marketId (bets (storage s)))) in
  let s' := state_after (resolveMarket config now input) s in
  result_of (resolveMarket config now input) s
    = Ok (Market.resolved m now w) /\
  Table.get Market.id (markets (storage s')) marketId
    = Some (Market.resolved m now w) /\
  (forall k, k <> marketId ->
             Table.get Market.id (markets (storage s')) k
             = Table.get Market.id (markets (storage s)) k) /\
  (forall b, In b (bets (storage s)) ->
             Table.get Bet.id (bets (storage s')) (Bet.id b)
             = Some (if String.eqb (Bet.marketId b) marketId
                     then
                       Bet.settle b
                         (if String.eqb (Bet.outcomeId b) w
                          then won else lost)
                         (if String.eqb (Bet.outcomeId b) w
                          then Num.or0 (JsMap.get payouts (Bet.bettorId b))
                          else 0)
                     else b)) /\
  length (bets (storage s')) = length (bets (storage s)) /\
  (forall userId,
      (forall b, In b (bets (storage s)) ->
                 Bet.marketId b = marketId ->
                 Bet.bettorId b = userId ->
                 Bet.outcomeId b <> w) ->
      balance_of config s' userId = balance_of config s userId).
Proof.
  intros Hnd Hget Hval. cbv zeta.
  destruct (resolveMarket_run now input s m Hget Hval)
    as (s' & Hrun & Hm & Hb & Hbal).
  cbv zeta in Hrun, Hm, Hb, Hbal.
  unfold result_of, state_after. rewrite Hrun. cbn [fst snd].
  pose proof (Table_get_key Market.id _ _ _ Hget) as Hkey.
  rewrite Hkey in *.
  split; [ reflexivity | ]. split; [ | split; [ | split; [ | split ] ] ].
  - rewrite Hm, Table_get_set. cbn [Market.resolved Market.id].
    rewrite Hkey, String.eqb_refl. reflexivity.
  - intros k Hk. rewrite Hm, Table_get_set. cbn [Market.resolved Market.id].
    rewrite Hkey. apply String.eqb_neq in Hk.
    rewrite String.eqb_sym, Hk. reflexivity.
  - intros b Hin. rewrite Hb. unfold bets_of_market.
    apply (settled_bets_get
             (fun b =>
                Bet.settle b
                  (if String.eqb (Bet.outcomeId b)
                        (resolveMarketInput.winningOutcomeId input)
                   then won else lost) _)
             (fun b => eq_refl)
             (fun b => String.eqb (Bet.marketId b)
                         (resolveMarketInput.marketId input)));
      assumption.
  - rewrite Hb.
    apply (settled_bets_length
             (fun b =>
                Bet.settle b
                  (if String.eqb (Bet.outcomeId b)
                        (resolveMarketInput.winningOutcomeId input)
                   then won else lost) _)
             (fun b => eq_refl)).
    unfold bets_of_market. intros x Hx. apply in_map_iff in Hx.
    destruct Hx as (b & <- & Hb0). apply filter_In in Hb0.
    apply in_map, Hb0.
  - intros userId Hnone. rewrite Hbal.
    match goal with
    | |- _ + sum_numbers ?L = _ =>
        assert (Hzero : sum_numbers L = 0)
    end.
    { apply no_winning_bet_no_credit. intros b Hb0 Hu Hw.
      unfold bets_of_market in Hb0. apply filter_In in Hb0.
      destruct Hb0 as [Hb0 Em]. apply String.eqb_eq in Em.
      exact (Hnone b Hb0 Em Hu Hw). }
    rewrite Hzero. ring.
Qed.

End SettlementFacts.

Section MoreSettlementFacts.
Variable config : Config.

Lemma winning_credit_sum (w userId : string) (p : number) (l : list Bet.t) :
  sum_numbers
    (map (fun b =>
            if String.eqb (Bet.outcomeId b) w && Num.ltb 0 p
            then p else 0)
       (filter (fun b => String.eqb (Bet.bettorId b) userId) l))
  = sum_numbers
      (map (fun _ => if Num.ltb 0 p then p else 0)
         (filter (fun b => String.eqb (Bet.bettorId b) userId
                           && String.eqb (Bet.outcomeId b) w) l)).
Proof.
  induction l as [ | b r IH ]; [ reflexivity | ].
  cbn [filter].
  destruct (String.eqb (Bet.bettorId b) userId); cbn [andb];
    [ | exact IH ].
  cbn [map]. change (sum_numbers (?x :: ?t)) with (x + sum_numbers t).
  rewrite IH.
  destruct (String.eqb (Bet.outcomeId b) w); cbn [andb map].
  - reflexivity.
  - ring.
Qed.

(** X16. A bettor holding exactly one bet of the market on the winning
    outcome is credited, by a [resolveMarket] that passes validation,
    exactly the amount the payout map holds for them when that amount is
    positive, and nothing otherwise. *)
Theorem resolveMarket_credits_single_winner (now : Z)
  (input : resolveMarketInput.t) (s : State) (m : Market.t)
  (userId : string) (bet : Bet.t) :
  Table.get Market.id (markets (storage s))
    (resolveMarketInput.marketId input) = Some m ->
  validateResolveMarket input m = Ok tt ->
  filter (fun b => String.eqb (Bet.bettorId b) userId
                   && String.eqb (Bet.outcomeId b)
                        (resolveMarketInput.winningOutcomeId input))
    (bets_of_market (resolveMarketInput.marketId input) (bets (storage s)))
  = [bet] ->
  let payout :=
    Num.or0
      (JsMap.get
         (calculatePayouts m (resolveMarketInput.winningOutcomeId input)
            (map stake_of
               (bets_of_market (resolveMarketInput.marketId input)
                  (bets (storage s)))))
         userId) in
  balance_of config (state_after (resolveMarket config now input) s) userId
  = balance_of config s userId
    + (if Num.ltb 0 payout then payout else 0).
Proof.
  intros Hget Hval Hone. cbv zeta.
  destruct (resolveMarket_run config now input s m Hget Hval)
    as (s' & Hrun & _ & _ & Hbal).
  cbv zeta in Hrun, Hbal.
  unfold state_after. rewrite Hrun. cbn [snd].
  rewrite Hbal, winning_credit_sum.
  rewrite (Table_get_key Market.id _ _ _ Hget), Hone.
  unfold sum_numbers. cbn [map fold_right]. ring.
Qed.

End MoreSettlementFacts.

(** ** core/sdk.ts: closeMarket, addFunds, createMarket *)

(** X17. [closeMarket] throws MARKET_NOT_FOUND and changes nothing when
    the market is not stored; on a stored OPEN market it returns the
    market with status CLOSED and every other field as stored, stores it,
    emits one market:closed event, and leaves every other market, the
    bets and the users as they were. *)
Theorem closeMarket_spec (marketId : string) (s : State) :
  (Table.get Market.id (markets (storage s)) marketId = None ->
   error_code (result_of (closeMarket marketId) s) = Some MARKET_NOT_FOUND /\
   state_after (closeMarket marketId) s = s) /\
  (forall m,
      Table.get Market.id (markets (storage s)) marketId = Some m ->
      Market.status m = OPEN ->
      let s' := state_after (closeMarket marketId) s in
      result_of (closeMarket marketId) s
        = Ok (Market.with_status m CLOSED) /\
      Table.get Market.id (markets (storage s')) marketId
        = Some (Market.with_status m CLOSED) /\
      (forall k, k <> marketId ->
                 Table.get Market.id (markets (storage s')) k
                 = Table.get Market.id (markets (storage s)) k) /\
      bets (storage s') = bets (storage s) /\
      users (storage s') = users (storage s) /\
      emitted s'
      = emitted s ++ [market_closed (Market.with_status m CLOSED)]).
Proof.
  unfold result_of, state_after, closeMarket, load_market, bind,
    storage_getMarket.
  split.
  - intros ->. split; reflexivity.
  - intros m Hget _. rewrite Hget. cbn.
    pose proof (Table_get_key Market.id _ _ _ Hget) as Hkey.
    repeat split.
    + rewrite Table_get_set. cbn [Market.with_status Market.id].
      rewrite Hkey, String.eqb_refl. reflexivity.
    + intros k Hk. rewrite Table_get_set.
      cbn [Market.with_status Market.id]. rewrite Hkey.
      apply String.eqb_neq in Hk. rewrite String.eqb_sym, Hk. reflexivity.
Qed.

(** X18. [addFunds] throws INVALID_INPUT and changes nothing when the
    amount is at most 0.  When the amount is above 0 it returns the
    user's record, raises that user's balance by exactly the amount
    (from the initial balance for a user created by the call), adds the
    amount to the user's totalWon, and leaves every other user's record,
    the markets and the bets as they were.  The two cases are the guard
    [amount <= 0] and its complement among the numbers that compare; an
    amount that is neither at most 0 nor above 0 (NaN) is in neither
    case and outside this statement. *)
Theorem addFunds_spec (config : Config) (now : Z) (userId : string)
  (amount : number) (s : State) :
  (amount <= 0 ->
   error_code (result_of (addFunds config now userId amount) s)
     = Some INVALID_INPUT /\
   state_after (addFunds config now userId amount) s = s) /\
  (0 < amount ->
   let s' := state_after (addFunds config now userId amount) s in
   let before := user_or_new config now (users (storage s)) userId in
   (exists u,
       result_of (addFunds config now userId amount) s = Ok u /\
       Table.get User.id (users (storage s')) userId = Some u /\
       User.balance u = User.balance before + amount /\
       User.totalWon u = User.totalWon before + amount /\
       User.totalBets u = User.totalBets before /\
       User.totalLost u = User.totalLost before) /\
   balance_of config s' userId = balance_of config s userId + amount /\
   (forall k, k <> userId ->
              Table.get User.id (users (storage s')) k
              = Table.get User.id (users (storage s)) k) /\
   markets (storage s') = markets (storage s) /\
   bets (storage s') = bets (storage s)).
Proof.
  unfold addFunds. split.
  - intros Hle. apply Num_leb_le in Hle. rewrite Hle.
    split; reflexivity.
  - intros Hpos. cbv zeta.
    assert (Hleb : Num.leb amount 0 = false) by (apply Num_leb_gt, Hpos).
    rewrite Hleb.
    destruct (updateUserBalance_run_eq config now userId amount s)
      as (s' & Hrun & Hm & Hb & Hu).
    unfold result_of, state_after. rewrite Hrun. cbn [fst snd].
    pose proof (balance_after_credit config now s s' userId amount Hu)
      as Hbal.
    apply Num_ltb_lt in Hpos.
    repeat split; try assumption.
    + eexists. split; [ reflexivity | ].
      rewrite Hu, Table_get_set, credited_id, user_or_new_id,
        String.eqb_refl.
      unfold credited. rewrite Hpos. repeat split; reflexivity.
    + rewrite Hbal, String.eqb_refl. reflexivity.
    + intros k Hk. rewrite Hu, Table_get_set, credited_id, user_or_new_id.
      apply String.eqb_neq in Hk. rewrite String.eqb_sym, Hk. reflexivity.
Qed.

Lemma mapi_from_length {A B : Type} (f : nat -> A -> B) (l : list A) :
  forall k, length (mapi_from f k l) = length l.
Proof.
  induction l as [ | x r IH ]; intros k; cbn; [ reflexivity | ].
  rewrite IH. reflexivity.
Qed.

Lemma mapi_from_nth {A B : Type} (f : nat -> A -> B) (l : list A) :
  forall k i,
    nth_error (mapi_from f k l) i
    = option_map (f (k + i)%nat) (nth_error l i).
Proof.
  induction l as [ | x r IH ]; intros k [ | i ]; cbn;
    try reflexivity.
  - rewrite Nat.add_0_r. reflexivity.
  - rewrite IH. replace (S k + i)%nat with (k + S i)%nat by lia.
    reflexivity.
Qed.

Lemma mapi_from_Forall {A B : Type} (f : nat -> A -> B) (P : B -> Prop)
  (l : list A) :
  (forall i x, P (f i x)) -> forall k, Forall P (mapi_from f k l).
Proof.
  intros Hf. induction l as [ | x r IH ]; intros k; cbn; constructor.
  - apply Hf.
  - apply IH.
Qed.

Lemma mapi_from_map {A B C : Type} (f : nat -> A -> B) (g : B -> C)
  (h : A -> C) (l : list A) :
  (forall i x, g (f i x) = h x) ->
  forall k, map g (mapi_from f k l) = map h l.
Proof.
  intros Hf. induction l as [ | x r IH ]; intros k; cbn;
    [ reflexivity | ].
  rewrite Hf, IH. reflexivity.
Qed.

(** X19. [createMarket] throws what [validateCreateMarketInput] throws
    on its input, changing nothing.  When the validation passes it
    returns a market that carries the given id, the configured appId, the
    input's question and close time, status OPEN, pool 0, the input's fee
    rate or else the default one, and one outcome per input outcome, in
    order, with the input's label, an explicit non-empty id kept, no
    stake, no bet, odds equal to the number of outcomes and probability
    one over that number; the market is stored under its id, every other
    market, the bets and the users are as they were, and one
    market:created event is emitted. *)
Theorem createMarket_spec (config : Config) (now : Z) (marketId : string)
  (gen : nat -> string) (input : CreateMarketInput.t) (s : State) :
  (forall e,
      validateCreateMarketInput now input = Throw e ->
      result_of (createMarket config now marketId gen input) s = Throw e /\
      state_after (createMarket config now marketId gen input) s = s) /\
  (validateCreateMarketInput now input = Ok tt ->
   let s' := state_after (createMarket config now marketId gen input) s in
   let n := Num.ofNat (length (CreateMarketInput.outcomes input)) in
   exists market : Market.t,
     result_of (createMarket config now marketId gen input) s = Ok market /\
     Table.get Market.id (markets (storage s')) marketId = Some market /\
     Market.id market = marketId /\
     Market.appId market = appId config /\
     Market.question market = CreateMarketInput.question input /\
     Market.closesAt market = CreateMarketInput.closesAt input /\
     Market.createdAt market = now /\
     Market.status market = OPEN /\
     Market.totalPool market = 0 /\
     Market.winningOutcomeId market = None /\
     Market.feeRate market
       = match CreateMarketInput.feeRate input with
         | Some f => f
         | None => defaultFeeRate config
         end /\
     map MarketOutcome.label (Market.outcomes market)
       = map OutcomeInput_label (CreateMarketInput.outcomes input) /\
     Forall (fun o =>
               MarketOutcome.totalBets o = 0 /\
               MarketOutcome.betCount o = 0%Z /\
               MarketOutcome.odds o = n /\
               MarketOutcome.probability o = 1 / n)
       (Market.outcomes market) /\
     (forall i oid l,
         nth_error (CreateMarketInput.outcomes input) i
           = Some (OutcomeObject oid l) ->
         oid <> EmptyString ->
         option_map MarketOutcome.id (nth_error (Market.outcomes market) i)
         = Some oid) /\
     (forall k, k <> marketId ->
                Table.get Market.id (markets (storage s')) k
                = Table.get Market.id (markets (storage s)) k) /\
     bets (storage s') = bets (storage s) /\
     users (storage s') = users (storage s) /\
     emitted s' = emitted s ++ [market_created market]).
Proof.
  unfold result_of, state_after, createMarket. unfold bind at 1 3 5 7.
  unfold check. split.
  - intros e He. rewrite He. split; reflexivity.
  - intros Hacc. rewrite Hacc. cbv zeta.
    eexists. cbn.
    split; [ reflexivity | ].
    split; [ rewrite Table_get_set; cbn [Market.id];
             rewrite String.eqb_refl; reflexivity | ].
    do 9 (split; [ reflexivity | ]).
    split.
    { apply mapi_from_map. intros i [l | oid l]; reflexivity. }
    split.
    { apply mapi_from_Forall. intros i [l | oid l]; repeat split. }
    split.
    { intros i oid l Hnth Hne. cbn [Market.outcomes].
      rewrite mapi_from_nth, Hnth.
      cbn [option_map MarketOutcome.id].
      apply String.eqb_neq in Hne. rewrite Hne. reflexivity. }
    split.
    { intros k Hk. rewrite Table_get_set. cbn [Market.id].
      apply String.eqb_neq in Hk. rewrite String.eqb_sym, Hk.
      reflexivity. }
    repeat split.
Qed.

(** ** core/sdk.ts: placeBet *)

Section PlaceBetFacts.
Variable config : Config.

Lemma balance_of_user_or_new (now : Z) (s : State) (userId : string) :
  User.balance (user_or_new config now (users (storage s)) userId)
  = balance_of config s userId.
Proof.
  unfold user_or_new, balance_of.
  destruct (Table.get User.id (users (storage s)) userId); reflexivity.
Qed.

Lemma getOrCreateUser_run_eq (now : Z) (userId : string) (s : State) :
  exists s',
    getOrCreateUser config now userId s
    = (Ok (user_or_new config now (users (storage s)) userId), s') /\
    markets (storage s') = markets (storage s) /\
    bets (storage s') = bets (storage s) /\
    (forall k, balance_of config s' k = balance_of config s k) /\
    user_or_new config now (users (storage s')) userId
    = user_or_new config now (users (storage s)) userId.
Proof.
  destruct (getOrCreateUser_run config now userId s)
    as (Hres & Hm & Hb & Hu).
  unfold result_of, state_after in *.
  destruct (getOrCreateUser config now userId s) as [res s'].
  cbn [fst snd] in *. subst res. exists s'.
  repeat split; try assumption.
  - intros k. unfold balance_of. rewrite Hu.
    destruct (Table.get User.id (users (storage s)) userId) eqn:E;
      [ reflexivity | ].
    rewrite Table_get_set, user_or_new_id.
    destruct (String.eqb userId k) eqn:Ek; [ | reflexivity ].
    apply String.eqb_eq in Ek. subst k. rewrite E.
    unfold user_or_new. rewrite E. reflexivity.
  - rewrite Hu.
    destruct (Table.get User.id (users (storage s)) userId) eqn:E;
      [ reflexivity | ].
    unfold user_or_new at 1.
    rewrite Table_get_set, user_or_new_id, String.eqb_refl. reflexivity.
Qed.

(** The run of a [placeBet] that passes its three guards. *)
Lemma placeBet_run (now : Z) (betId : string) (input : placeBetInput.t)
  (s : State) (m : Market.t) :
  Table.get Market.id (markets (storage s)) (placeBetInput.marketId input)
    = Some m ->
  validatePlaceBet now input m = Ok tt ->
  Num.ltb (balance_of config s (placeBetInput.bettorId input))
    (placeBetInput.amount input) = false ->
  exists (bet : Bet.t) (market' : Market.t) (s' : State)
         (pre : list SDKEvent),
    placeBet config now betId input s = (Ok bet, s') /\
    bet = Bet.mk betId (Market.id m) (placeBetInput.bettorId input)
            (placeBetInput.outcomeId input) (placeBetInput.amount input)
            (calculatePotentialPayout (placeBetInput.amount input)
               (placeBetInput.outcomeId input) m)
            confirmed None now
            (match find_outcome (calculateOdds m)
                     (placeBetInput.outcomeId input) with
             | Some o => MarketOutcome.odds o
             | None => 0
             end) /\
    Market.id market' = Market.id m /\
    markets (storage s') = Table.set Market.id (markets (storage s)) market' /\
    bets (storage s') = Table.set Bet.id (bets (storage s)) bet /\
    emitted s' = pre ++ [bet_placed bet market'].
Proof.
  intros Hget Hval Hbal. unfold placeBet, load_market.
  unfold bind at 1 2. unfold storage_getMarket at 1. rewrite Hget.
  cbn [ret]. unfold bind at 1. unfold check at 1. rewrite Hval.
  unfold bind at 1.
  destruct (getOrCreateUser_run_eq now (placeBetInput.bettorId input) s)
    as (s1 & -> & Hm1 & Hb1 & _ & _).
  rewrite balance_of_user_or_new, Hbal.
  unfold bind at 1.
  destruct (updateUserBalance_run_eq config now
              (placeBetInput.bettorId input)
              (- placeBetInput.amount input) s1)
    as (s2 & -> & Hm2 & Hb2 & _).
  cbn. eexists _, _, _, _.
  split; [ reflexivity | ].
  split; [ reflexivity | ].
  cbn [storage markets bets emitted].
  rewrite Hm2, Hb2, Hm1, Hb1.
  split; [ | split; [ | split; [ | reflexivity ] ] ]; reflexivity.
Qed.

Lemma placeBet_decides (now : Z) (betId : string)
  (input : placeBetInput.t) (s : State) :
  let call := placeBet config now betId input in
  let bettor := placeBetInput.bettorId input in
  (Table.get Market.id (markets (storage s)) (placeBetInput.marketId input)
   = None ->
   error_code (result_of call s) = Some MARKET_NOT_FOUND /\
   state_after call s = s) /\
  (forall m,
      Table.get Market.id (markets (storage s))
        (placeBetInput.marketId input) = Some m ->
      (~ acceptable_bet now input m ->
       error_code (result_of call s) = Some INVALID_INPUT /\
       state_after call s = s) /\
      (acceptable_bet now input m ->
       balance_of config s bettor < placeBetInput.amount input ->
       error_code (result_of call s) = Some INSUFFICIENT_BALANCE /\
       markets (storage (state_after call s)) = markets (storage s) /\
       bets (storage (state_after call s)) = bets (storage s) /\
       (forall k, balance_of config (state_after call s) k
                  = balance_of config s k)) /\
      (acceptable_bet now input m ->
       placeBetInput.amount input <= balance_of config s bettor ->
       is_ok (result_of call s) = true)).
Proof.
  cbv zeta. split.
  - intros Hget. unfold result_of, state_after, placeBet, load_market.
    unfold bind at 1 2 9 10. unfold storage_getMarket. rewrite Hget.
    split; reflexivity.
  - intros m Hget.
    destruct (validatePlaceBet_decides now input m) as [Hiff Hcode].
    split; [ | split ].
    + intros Hno.
      assert (Hrun : exists e,
                 placeBet config now betId input s = (Throw e, s) /\
                 code e = INVALID_INPUT).
      { unfold placeBet, load_market.
        unfold bind at 1 2. unfold storage_getMarket at 1. rewrite Hget.
        cbn [ret]. unfold bind at 1. unfold check at 1.
        destruct (validatePlaceBet now input m) as [ [] | e ].
        - exfalso. apply Hno, Hiff. reflexivity.
        - destruct Hcode as [Hok | Hc]; [ discriminate Hok | ].
          exists e. split; [ reflexivity | ].
          injection Hc as Hc. exact Hc. }
      destruct Hrun as (e & Hrun & Hc).
      unfold result_of, state_after. rewrite Hrun. cbn. rewrite Hc.
      split; reflexivity.
    + intros Hacc Hlt. apply Hiff in Hacc. apply Num_ltb_lt in Hlt.
      assert (Hrun : exists e s',
                 placeBet config now betId input s = (Throw e, s') /\
                 code e = INSUFFICIENT_BALANCE /\
                 markets (storage s') = markets (storage s) /\
                 bets (storage s') = bets (storage s) /\
                 (forall k, balance_of config s' k = balance_of config s k)).
      { unfold placeBet, load_market.
        unfold bind at 1 2. unfold storage_getMarket at 1. rewrite Hget.
        cbn [ret]. unfold bind at 1. unfold check at 1. rewrite Hacc.
        unfold bind at 1.
        destruct (getOrCreateUser_run_eq now
                    (placeBetInput.bettorId input) s)
          as (s1 & -> & Hm1 & Hb1 & Hbal1 & _).
        rewrite balance_of_user_or_new, Hlt.
        eexists _, s1. split; [ reflexivity | ].
        repeat split; assumption. }
      destruct Hrun as (e & s' & Hrun & Hc & H).
      unfold result_of, state_after. rewrite Hrun. cbn. rewrite Hc.
      split; [ reflexivity | exact H ].
    + intros Hacc Hle. apply Hiff in Hacc. apply Num_ltb_ge in Hle.
      destruct (placeBet_run now betId input s m Hget Hacc Hle)
        as (bet & market' & s' & pre & Hrun & _).
      unfold result_of. rewrite Hrun. reflexivity.
Qed.

(** X20. Which way a [placeBet] goes.  It throws MARKET_NOT_FOUND and
    changes nothing when the market is not stored.  On a stored market
    it throws what [validatePlaceBet] throws, changing nothing; when the
    validation passes and the bettor's balance is below the amount it
    throws INSUFFICIENT_BALANCE, leaving markets, bets and every balance
    as they were; and when the validation passes and the balance is not
    below the amount it returns. *)
Theorem placeBet_outcome (now : Z) (betId : string)
  (input : placeBetInput.t) (s : State) :
  let call := placeBet config now betId input in
  let bettor := placeBetInput.bettorId input in
  (Table.get Market.id (markets (storage s)) (placeBetInput.marketId input)
   = None ->
   error_code (result_of call s) = Some MARKET_NOT_FOUND /\
   state_after call s = s) /\
  (forall m,
      Table.get Market.id (markets (storage s))
        (placeBetInput.marketId input) = Some m ->
      (forall e,
          validatePlaceBet now input m = Throw e ->
          result_of call s = Throw e /\ state_after call s = s) /\
      (validatePlaceBet now input m = Ok tt ->
       balance_of config s bettor < placeBetInput.amount input ->
       error_code (result_of call s) = Some INSUFFICIENT_BALANCE /\
       markets (storage (state_after call s)) = markets (storage s) /\
       bets (storage (state_after call s)) = bets (storage s) /\
       (forall k, balance_of config (state_after call s) k
                  = balance_of config s k)) /\
      (validatePlaceBet now input m = Ok tt ->
       ~ balance_of config s bettor < placeBetInput.amount input ->
       is_ok (result_of call s) = true)).
Proof.
  destruct (placeBet_decides now betId input s) as [Hnone Hsome].
  cbv zeta in *. split; [ exact Hnone | ].
  intros m Hget.
  destruct (Hsome m Hget) as (_ & Hlow & Hret).
  destruct (validatePlaceBet_decides now input m) as [Hiff _].
  split; [ | split ].
  - intros e He.
    unfold result_of, state_after, placeBet, load_market.
    unfold bind at 1 2 9 10. unfold storage_getMarket. rewrite Hget.
    cbn [ret]. unfold bind at 1 8. unfold check. rewrite He.
    split; reflexivity.
  - intros Hval. apply Hlow, Hiff, Hval.
  - intros Hval Hnot. apply Hret; [ apply Hiff, Hval | ].
    apply Qcnot_lt_le, Hnot.
Qed.


End PlaceBetFacts.

(** ** core/sdk.ts: checkAndCloseExpiredMarkets *)

Section RewriteSelected.
Context {A : Type} (key : A -> string) (f : A -> A) (p : A -> bool).
Hypothesis f_key : forall a, key (f a) = key a.

Lemma Table_set_in_place (pre r : list A) (a a' : A) :
  ~ In (key a) (map key pre) -> key a' = key a ->
  Table.set key (pre ++ a :: r) a' = pre ++ a' :: r.
Proof.
  intros Hnotin Hk. induction pre as [ | b pre IH ]; cbn [app Table.set].
  - rewrite Hk, String.eqb_refl. reflexivity.
  - cbn [map In] in Hnotin.
    destruct (String.eqb (key b) (key a')) eqn:E.
    + apply String.eqb_eq in E. exfalso. apply Hnotin. left.
      rewrite E, Hk. reflexivity.
    + rewrite IH; [ reflexivity | tauto ].
Qed.

(** Writing back, one after the other, the images of the selected
    entries of a table with unique keys rewrites them in place. *)
Lemma Table_rewrite_selected (r : list A) :
  forall pre : list A,
    NoDup (map key (pre ++ r)) ->
    fold_left (Table.set key) (map f (filter p r)) (pre ++ r)
    = pre ++ map (fun a => if p a then f a else a) r.
Proof.
  induction r as [ | a r IH ]; intros pre Hnd; cbn [filter map fold_left].
  - reflexivity.
  - assert (Hnotin : ~ In (key a) (map key pre)).
    { rewrite map_app in Hnd. cbn [map] in Hnd.
      apply NoDup_remove_2 in Hnd. intros Hin. apply Hnd, in_or_app.
      left. exact Hin. }
    destruct (p a); cbn [map fold_left].
    + rewrite (Table_set_in_place pre r a (f a) Hnotin (f_key a)).
      change (pre ++ f a :: r) with (pre ++ [f a] ++ r).
      rewrite app_assoc, IH.
      * rewrite <- app_assoc. reflexivity.
      * rewrite <- app_assoc. cbn [app].
        rewrite map_app in *. cbn [map] in *. rewrite f_key. exact Hnd.
    + change (pre ++ a :: r) with (pre ++ [a] ++ r).
      rewrite app_assoc, IH.
      * rewrite <- app_assoc. reflexivity.
      * rewrite <- app_assoc. exact Hnd.
Qed.

Lemma Table_get_map (g : A -> A) (t : list A) (k : string) :
  (forall a, key (g a) = key a) ->
  Table.get key (map g t) k = option_map g (Table.get key t k).
Proof.
  intros Hg. induction t as [ | a r IH ]; cbn [map Table.get];
    [ reflexivity | ].
  rewrite Hg. destruct (String.eqb (key a) k); [ reflexivity | exact IH ].
Qed.

End RewriteSelected.

Lemma close_expired_run (now : Z) (ms : list Market.t) :
  forall (closed : list Market.t) (s : State),
    let closing :=
      map (fun m => Market.with_status m CLOSED)
        (filter (expired_open now) ms) in
    exists s',
      close_expired now ms closed s = (Ok (closed ++ closing), s') /\
      markets (storage s')
      = fold_left (Table.set Market.id) closing (markets (storage s)) /\
      bets (storage s') = bets (storage s) /\
      users (storage s') = users (storage s) /\
      emitted s' = emitted s ++ map market_closed closing.
Proof.
  induction ms as [ | m r IH ]; intros closed s;
    cbn [close_expired filter].
  - exists s. cbn. rewrite !app_nil_r. repeat split; reflexivity.
  - fold (expired_open now m). destruct (expired_open now m).
    + unfold bind. cbn [storage_saveMarket emit].
      match goal with
      | |- context [close_expired now r ?c ?s0] =>
          destruct (IH c s0) as (s' & Hrun & Hm & Hb & Hu & He)
      end.
      exists s'. cbv zeta in *. rewrite Hrun.
      cbn [storage markets bets users emitted map fold_left] in *.
      rewrite <- !app_assoc in *. cbn [app] in *.
      repeat split; assumption.
    + apply IH.
Qed.

Lemma nothing_left_to_close (now : Z) (t : list Market.t) :
  filter (expired_open now)
    (map (fun m => if expired_open now m
                   then Market.with_status m CLOSED else m) t) = [].
Proof.
  induction t as [ | m r IH ]; [ reflexivity | ].
  cbn [map filter].
  destruct (expired_open now m) eqn:E.
  - cbn. exact IH.
  - rewrite E. exact IH.
Qed.

(** X22. [checkAndCloseExpiredMarkets], in a storage with unique market
    ids: it returns, in storage order and with status CLOSED, exactly
    the markets that were OPEN with a close time at or before the clock;
    it rewrites those markets' status in place and leaves every other
    market, the bets and the users as they were; it emits one
    market:closed event per returned market; and calling it again with
    the same clock finds nothing to close. *)
Theorem checkAndCloseExpiredMarkets_spec (now : Z) (s : State) :
  NoDup (map Market.id (markets (storage s))) ->
  let s' := state_after (checkAndCloseExpiredMarkets now) s in
  let closing :=
    map (fun m => Market.with_status m CLOSED)
      (filter (expired_open now) (markets (storage s))) in
  result_of (checkAndCloseExpiredMarkets now) s = Ok closing /\
  markets (storage s')
  = map (fun m => if expired_open now m
                  then Market.with_status m CLOSED else m)
      (markets (storage s)) /\
  (forall k,
      Table.get Market.id (markets (storage s')) k
      = option_map
          (fun m => if expired_open now m
                    then Market.with_status m CLOSED else m)
          (Table.get Market.id (markets (storage s)) k)) /\
  bets (storage s') = bets (storage s) /\
  users (storage s') = users (storage s) /\
  emitted s' = emitted s ++ map market_closed closing /\
  result_of (checkAndCloseExpiredMarkets now) s' = Ok [].
Proof.
  intros Hnd. cbv zeta.
  assert (Hrun : forall s0,
             exists s1,
               checkAndCloseExpiredMarkets now s0
               = (Ok (map (fun m => Market.with_status m CLOSED)
                        (filter (expired_open now) (markets (storage s0)))),
                  s1) /\
               markets (storage s1)
               = fold_left (Table.set Market.id)
                   (map (fun m => Market.with_status m CLOSED)
                      (filter (expired_open now) (markets (storage s0))))
                   (markets (storage s0)) /\
               bets (storage s1) = bets (storage s0) /\
               users (storage s1) = users (storage s0) /\
               emitted s1
               = emitted s0
                 ++ map market_closed
                      (map (fun m => Market.with_status m CLOSED)
                         (filter (expired_open now) (markets (storage s0))))).
  { intros s0. unfold checkAndCloseExpiredMarkets, bind,
      storage_getAllMarkets, Table.values.
    destruct (close_expired_run now (markets (storage s0)) [] s0)
      as (s1 & Hr & H).
    exists s1. cbv zeta in Hr. rewrite Hr. split; [ reflexivity | exact H ]. }
  destruct (Hrun s) as (s1 & Hr & Hm & Hb & Hu & He).
  unfold result_of at 1, state_after. rewrite Hr. cbn [fst snd].
  assert (Hmap : markets (storage s1)
                 = map (fun m => if expired_open now m
                                 then Market.with_status m CLOSED else m)
                     (markets (storage s))).
  { rewrite Hm.
    apply (Table_rewrite_selected Market.id
             (fun m => Market.with_status m CLOSED) (expired_open now)
             (fun m => eq_refl) (markets (storage s)) []).
    exact Hnd. }
  split; [ reflexivity | ]. split; [ exact Hmap | ].
  split.
  { intros k. rewrite Hmap. apply Table_get_map.
    intros m. destruct (expired_open now m); reflexivity. }
  split; [ exact Hb | ]. split; [ exact Hu | ]. split; [ exact He | ].
  destruct (Hrun s1) as (s2 & Hr2 & _).
  unfold result_of. rewrite Hr2. cbn [fst]. f_equal.
  rewrite Hmap, nothing_left_to_close. reflexivity.
Qed.

(** ** The ledger invariant *)

Section ViewFacts.
Context {A C : Type} (key : A -> string) (view : A -> C)
  (key_of_view : C -> string).
Hypothesis key_view : forall a, key a = key_of_view (view a).

Lemma Table_get_same_views (t t' : list A) (k : string) :
  map view t' = map view t ->
  match Table.get key t k, Table.get key t' k with
  | Some a, Some a' => view a' = view a
  | None, None => True
  | _, _ => False
  end.
Proof.
  revert t'. induction t as [ | a r IH ]; intros [ | a' r' ]; cbn [map];
    try discriminate; [ intros _; exact I | ].
  intros [= Hv Hrest]. cbn [Table.get].
  rewrite (key_view a), (key_view a'), Hv.
  destruct (String.eqb (key_of_view (view a)) k); [ exact Hv | ].
  apply IH, Hrest.
Qed.

Lemma Table_set_In_weak (t : list A) (a x : A) :
  In x (Table.set key t a) -> x = a \/ In x t.
Proof.
  induction t as [ | b r IH ]; cbn [Table.set In].
  - intros [<- | []]. left; reflexivity.
  - destruct (String.eqb (key b) (key a)); cbn [In].
    + intros [<- | Hin]; [ left; reflexivity | right; right; exact Hin ].
    + intros [<- | Hin]; [ right; left; reflexivity | ].
      destruct (IH Hin) as [-> | H]; [ left; reflexivity | right; right; exact H ].
Qed.

Lemma Table_set_keys_grow (t : list A) (a : A) (k : string) :
  In k (map key t) -> In k (map key (Table.set key t a)).
Proof.
  intros Hin. rewrite Table_set_keys.
  destruct (Table.get key t (key a)); [ exact Hin | ].
  apply in_or_app. left. exact Hin.
Qed.

Lemma Table_set_key_in (t : list A) (a : A) :
  In (key a) (map key (Table.set key t a)).
Proof.
  rewrite Table_set_keys.
  destruct (Table.get key t (key a)) as [x | ] eqn:E.
  - rewrite <- (Table_get_key key _ _ _ E).
    apply in_map. apply (Table_get_In key _ _ _ E).
  - apply in_or_app. right. left. reflexivity.
Qed.

Lemma Table_get_app (t1 t2 : list A) (k : string) :
  Table.get key (t1 ++ t2) k =
    match Table.get key t1 k with
    | Some x => Some x
    | None => Table.get key t2 k
    end.
Proof.
  induction t1 as [ | x t1 IH ]; cbn [app Table.get]; [ reflexivity | ].
  destruct (String.eqb (key x) k); [ reflexivity | exact IH ].
Qed.

End ViewFacts.

Lemma market_key_book (m : Market.t) : Market.id m = fst (market_book m).
Proof. reflexivity. Qed.

Lemma bet_key_slip (b : Bet.t) : Bet.id b = fst (bet_slip b).
Proof. reflexivity. Qed.

(** What two markets with the same book share. *)
Lemma market_book_fields (m m' : Market.t) :
  market_book m' = market_book m ->
  Market.id m' = Market.id m /\
  Market.totalPool m' = Market.totalPool m /\
  map MarketOutcome.totalBets (Market.outcomes m')
    = map MarketOutcome.totalBets (Market.outcomes m) /\
  map MarketOutcome.betCount (Market.outcomes m')
    = map MarketOutcome.betCount (Market.outcomes m) /\
  map MarketOutcome.id (Market.outcomes m')
    = map MarketOutcome.id (Market.outcomes m) /\
  length (Market.outcomes m') = length (Market.outcomes m) /\
  market_terms m' = market_terms m.
Proof.
  intros Hbook.
  pose proof (f_equal fst Hbook) as Hid.
  pose proof (f_equal (fun x => fst (snd x)) Hbook) as Hfrozen.
  pose proof (f_equal (fun x => snd (snd x)) Hbook) as Hout.
  unfold market_book in Hid, Hfrozen, Hout. cbn [fst snd] in Hid, Hfrozen, Hout.
  unfold market_terms.
  assert (Hpool : Market.totalPool m' = Market.totalPool m)
    by (apply (f_equal Market.totalPool) in Hfrozen; exact Hfrozen).
  assert (Hproj : forall (g : string * string * number * Z -> number),
             map g (map outcome_book (Market.outcomes m'))
             = map g (map outcome_book (Market.outcomes m)))
    by (intros g; rewrite Hout; reflexivity).
  repeat split; try assumption.
  - pose proof (f_equal (map (fun x : string * string * number * Z =>
                                snd (fst x))) Hout) as H.
    rewrite !map_map in H. exact H.
  - pose proof (f_equal (map (fun x : string * string * number * Z =>
                                snd x)) Hout) as H.
    rewrite !map_map in H. exact H.
  - pose proof (f_equal (map (fun x : string * string * number * Z =>
                                fst (fst (fst x)))) Hout) as H.
    rewrite !map_map in H. exact H.
  - pose proof (f_equal (@length _) Hout) as H.
    rewrite !length_map in H. exact H.
  - f_equal.
    + rewrite Hfrozen. reflexivity.
    + pose proof (f_equal (map (fun x : string * string * number * Z =>
                                  (fst (fst (fst x)), snd (fst (fst x)))))
                    Hout) as H.
      rewrite !map_map in H. exact H.
Qed.

Lemma outcome_exists_ids (m m' : Market.t) (k : string) :
  map MarketOutcome.id (Market.outcomes m')
    = map MarketOutcome.id (Market.outcomes m) ->
  outcome_exists m k -> outcome_exists m' k.
Proof.
  intros Hids (o & Hin & Hid).
  apply (in_map MarketOutcome.id) in Hin. rewrite Hid, <- Hids in Hin.
  apply in_map_iff in Hin. destruct Hin as (o' & Ho' & Hin').
  exists o'. split; assumption.
Qed.

(** The number of bets on a market is read off the slips. *)
Lemma bets_of_market_slips (marketId : string) (B B' : list Bet.t) :
  map bet_slip B' = map bet_slip B ->
  length (bets_of_market marketId B') = length (bets_of_market marketId B).
Proof.
  unfold bets_of_market. revert B'.
  induction B as [ | b r IH ]; intros [ | b' r' ]; cbn [map];
    try discriminate; [ reflexivity | ].
  intros [= Hid Hm Hu Ho Ha Hrest]. cbn [filter]. rewrite Hm.
  destruct (String.eqb (Bet.marketId b) marketId); cbn [length];
    rewrite (IH _ Hrest); reflexivity.
Qed.

Lemma NoDup_snoc {A : Type} (l : list A) (a : A) :
  NoDup l -> ~ In a l -> NoDup (l ++ [a]).
Proof.
  intros Hl Ha. induction l as [ | x r IH ]; cbn [app].
  - constructor; [ intros [] | constructor ].
  - inversion Hl as [ | ? ? Hx Hr ]; subst. constructor.
    + intros Hin. apply in_app_or in Hin. destruct Hin as [Hin | [<- | []]].
      * exact (Hx Hin).
      * apply Ha. left. reflexivity.
    + apply IH; [ exact Hr | ]. intros Hin. apply Ha. right. exact Hin.
Qed.

Lemma sum_numbers_update_first (p : MarketOutcome.t -> bool)
  (amount : number) (os : list MarketOutcome.t) (o : MarketOutcome.t) :
  find p os = Some o ->
  sum_numbers (map MarketOutcome.totalBets
                 (update_first p (fun o => MarketOutcome.add_bet o amount) os))
  = sum_numbers (map MarketOutcome.totalBets os) + amount.
Proof.
  induction os as [ | x r IH ]; cbn [find update_first]; [ discriminate | ].
  destruct (p x).
  - intros _. cbn [map]. unfold sum_numbers. cbn [fold_right].
    cbn [MarketOutcome.add_bet MarketOutcome.totalBets]. ring.
  - intros H. cbn [map]. unfold sum_numbers in *. cbn [fold_right].
    rewrite (IH H). ring.
Qed.

Lemma sum_Z_update_first (p : MarketOutcome.t -> bool)
  (amount : number) (os : list MarketOutcome.t) (o : MarketOutcome.t) :
  find p os = Some o ->
  sum_Z (map MarketOutcome.betCount
           (update_first p (fun o => MarketOutcome.add_bet o amount) os))
  = (sum_Z (map MarketOutcome.betCount os) + 1)%Z.
Proof.
  induction os as [ | x r IH ]; cbn [find update_first]; [ discriminate | ].
  destruct (p x).
  - intros _. cbn [map]. unfold sum_Z. cbn [fold_right].
    cbn [MarketOutcome.add_bet MarketOutcome.betCount]. lia.
  - intros H. cbn [map]. unfold sum_Z in *. cbn [fold_right].
    rewrite (IH H). lia.
Qed.

Lemma update_first_ids (p : MarketOutcome.t -> bool) (amount : number)
  (os : list MarketOutcome.t) :
  map MarketOutcome.id
    (update_first p (fun o => MarketOutcome.add_bet o amount) os)
  = map MarketOutcome.id os.
Proof.
  induction os as [ | x r IH ]; cbn [update_first]; [ reflexivity | ].
  destruct (p x); cbn [map]; [ reflexivity | rewrite IH; reflexivity ].
Qed.

Lemma update_first_length {A : Type} (p : A -> bool) (f : A -> A)
  (l : list A) :
  length (update_first p f l) = length l.
Proof.
  induction l as [ | x r IH ]; cbn [update_first]; [ reflexivity | ].
  destruct (p x); cbn [length]; [ reflexivity | rewrite IH; reflexivity ].
Qed.

Lemma sum_numbers_zero (os : list MarketOutcome.t) :
  Forall (fun o => MarketOutcome.totalBets o = 0 /\
                   MarketOutcome.betCount o = 0%Z) os ->
  sum_numbers (map MarketOutcome.totalBets os) = 0 /\
  sum_Z (map MarketOutcome.betCount os) = 0%Z.
Proof.
  induction 1 as [ | o r [Ht Hc] _ [IH1 IH2] ]; cbn [map].
  - split; reflexivity.
  - unfold sum_numbers, sum_Z in *. cbn [fold_right].
    rewrite Ht, Hc, IH1, IH2. split; [ ring | reflexivity ].
Qed.

Lemma bets_of_market_snoc (k : string) (B : list Bet.t) (b : Bet.t) :
  length (bets_of_market k (B ++ [b]))
  = (length (bets_of_market k B)
     + if String.eqb (Bet.marketId b) k then 1 else 0)%nat.
Proof.
  unfold bets_of_market. rewrite filter_app, length_app. cbn [filter].
  destruct (String.eqb (Bet.marketId b) k); reflexivity.
Qed.

Lemma Math_abs_nonpos (d : number) : ~ 0 < d -> Num.Math_abs d = - d.
Proof.
  intros Hd. unfold Num.Math_abs.
  destruct (Num.ltb d 0) eqn:E; [ reflexivity | ].
  assert (d <= 0) by (apply Qcnot_lt_le; exact Hd).
  assert (0 <= d).
  { apply Qcnot_lt_le. intros Hlt. apply Num_ltb_lt in Hlt. congruence. }
  assert (d = 0) by (apply Qcle_antisym; assumption).
  subst d. ring.
Qed.

Lemma credited_adds_up (config : Config) (u : User.t) (delta : number) :
  account_adds_up config u -> account_adds_up config (credited u delta).
Proof.
  intros [Hbal Hlost]. unfold credited, account_adds_up.
  destruct (Num.ltb 0 delta) eqn:E; cbn [User.balance User.totalWon
    User.totalBets User.totalLost]; (split; [ | exact Hlost ]).
  - rewrite Hbal. ring.
  - rewrite Math_abs_nonpos.
    + rewrite Hbal. ring.
    + intros Hlt. apply Num_ltb_lt in Hlt. congruence.
Qed.

Section LedgerMoves.
Variable config : Config.

Lemma In_same_view {A C : Type} (view : A -> C) (t t' : list A) (a' : A) :
  map view t' = map view t -> In a' t' ->
  exists a, In a t /\ view a = view a'.
Proof.
  intros Hmap Hin. apply (in_map view) in Hin. rewrite Hmap in Hin.
  apply in_map_iff in Hin. destruct Hin as (a & Hv & Ha).
  exists a. split; assumption.
Qed.

Lemma market_ids_of_books (t : list Market.t) :
  map Market.id t = map fst (map market_book t).
Proof. rewrite map_map. reflexivity. Qed.

Lemma bet_ids_of_slips (t : list Bet.t) :
  map Bet.id t = map fst (map bet_slip t).
Proof. rewrite map_map. reflexivity. Qed.

(** Rewriting markets and bets without touching books and slips keeps
    the ledger sound. *)
Lemma ledger_sound_same_books (st : MemoryStorage)
  (M : list Market.t) (B : list Bet.t) :
  ledger_sound config st ->
  map market_book M = map market_book (markets st) ->
  map bet_slip B = map bet_slip (bets st) ->
  ledger_sound config (mkStorage M B (users st)).
Proof.
  intros [ (Hkm & Hkb & Hku) Hbooks Hbets Hacc Hsolv ] HM HB.
  constructor; cbn [markets bets users].
  - repeat split; cbn [markets bets users].
    + rewrite market_ids_of_books, HM, <- market_ids_of_books. exact Hkm.
    + rewrite bet_ids_of_slips, HB, <- bet_ids_of_slips. exact Hkb.
    + exact Hku.
  - intros m' Hin. cbn [markets bets].
    destruct (In_same_view market_book _ _ _ HM Hin) as (m & Hm & Hbook).
    destruct (market_book_fields _ _ (eq_sym Hbook))
      as (Hid & Hpool & Htot & Hcnt & _ & Hlen & _).
    destruct (Hbooks m Hm) as (H1 & H2 & H3).
    rewrite Htot, Hcnt, Hpool, Hlen, Hid, (bets_of_market_slips _ _ _ HB).
    repeat split; assumption.
  - intros b' Hin. cbn [markets bets users].
    destruct (In_same_view bet_slip _ _ _ HB Hin) as (b & Hb & Hslip).
    injection Hslip as _ Hm Hu Ho Ha.
    destruct (Hbets b Hb) as (Hpos & (m & Hget & Hex) & Huser).
    rewrite <- Ha, <- Hm, <- Ho, <- Hu. split; [ exact Hpos | ].
    split; [ | exact Huser ].
    pose proof (Table_get_same_views Market.id market_book fst
                  market_key_book (markets st) M (Bet.marketId b) HM) as Hv.
    rewrite Hget in Hv.
    destruct (Table.get Market.id M (Bet.marketId b)) as [m' | ];
      [ | contradiction ].
    exists m'. split; [ reflexivity | ].
    destruct (market_book_fields _ _ Hv) as (_ & _ & _ & _ & Hids & _).
    apply (outcome_exists_ids m m' _ Hids Hex).
  - exact Hacc.
  - exact Hsolv.
Qed.

(** Writing a user whose account adds up keeps the ledger sound. *)
Lemma ledger_sound_user (st : MemoryStorage) (u : User.t) :
  ledger_sound config st ->
  account_adds_up config u ->
  (0 <= initialBalance config -> 0 <= User.balance u) ->
  ledger_sound config
    (mkStorage (markets st) (bets st) (Table.set User.id (users st) u)).
Proof.
  intros [ (Hkm & Hkb & Hku) Hbooks Hbets Hacc Hsolv ] Hu Hpos.
  constructor; cbn [markets bets users].
  - repeat split; cbn [markets bets users]; try assumption.
    apply Table_set_NoDup. exact Hku.
  - exact Hbooks.
  - intros b Hb. destruct (Hbets b Hb) as (H1 & H2 & H3).
    cbn [markets bets users]. repeat split; try assumption.
    apply Table_set_keys_grow. exact H3.
  - intros x Hx. apply Table_set_In_weak in Hx.
    destruct Hx as [-> | Hx]; [ exact Hu | exact (Hacc x Hx) ].
  - intros Hinit x Hx. apply Table_set_In_weak in Hx.
    destruct Hx as [-> | Hx]; [ exact (Hpos Hinit) | exact (Hsolv Hinit x Hx) ].
Qed.

Lemma user_or_new_sound (st : MemoryStorage) (now : Z) (userId : string) :
  ledger_sound config st ->
  account_adds_up config (user_or_new config now (users st) userId) /\
  (0 <= initialBalance config ->
   0 <= User.balance (user_or_new config now (users st) userId)).
Proof.
  intros [ _ _ _ Hacc Hsolv ]. unfold user_or_new.
  destruct (Table.get User.id (users st) userId) as [u | ] eqn:E.
  - apply Table_get_In in E. split; [ exact (Hacc u E) | ].
    intros Hinit. exact (Hsolv Hinit u E).
  - split; [ | intros Hinit; exact Hinit ].
    unfold account_adds_up.
    cbn [User.balance User.totalWon User.totalBets User.totalLost].
    split; [ ring | reflexivity ].
Qed.

Lemma ledger_sound_credit (st : MemoryStorage) (now : Z) (userId : string)
  (delta : number) :
  ledger_sound config st ->
  0 <= delta ->
  ledger_sound config
    (mkStorage (markets st) (bets st)
       (Table.set User.id (users st)
          (credited (user_or_new config now (users st) userId) delta))).
Proof.
  intros Hs Hd. destruct (user_or_new_sound st now userId Hs) as [Ha Hp].
  apply ledger_sound_user; [ exact Hs | apply credited_adds_up, Ha | ].
  intros Hinit. rewrite credited_balance.
  specialize (Hp Hinit). qc_to_q. lra.
Qed.

Lemma filter_nothing {A : Type} (p : A -> bool) (l : list A) :
  (forall a, In a l -> p a = false) -> filter p l = [].
Proof.
  induction l as [ | x r IH ]; intros H; cbn [filter]; [ reflexivity | ].
  rewrite (H x (or_introl eq_refl)). apply IH.
  intros a Ha. apply H. right. exact Ha.
Qed.

Lemma ledger_sound_create (st : MemoryStorage) (market : Market.t) :
  ledger_sound config st ->
  ~ In (Market.id market) (map Market.id (markets st)) ->
  Market.totalPool market = 0 ->
  (2 <= length (Market.outcomes market))%nat ->
  Forall (fun o => MarketOutcome.totalBets o = 0 /\
                   MarketOutcome.betCount o = 0%Z)
    (Market.outcomes market) ->
  ledger_sound config
    (mkStorage (markets st ++ [market]) (bets st) (users st)).
Proof.
  intros [ (Hkm & Hkb & Hku) Hbooks Hbets Hacc Hsolv ] Hfresh Hpool Hlen Hzero.
  constructor; cbn [markets bets users]; try assumption.
  - repeat split; cbn [markets bets users]; try assumption.
    rewrite map_app. apply NoDup_snoc; assumption.
  - intros m Hin. cbn [markets bets]. apply in_app_or in Hin.
    destruct Hin as [Hin | [<- | []]]; [ exact (Hbooks m Hin) | ].
    destruct (sum_numbers_zero _ Hzero) as [H1 H2].
    rewrite H1, H2, Hpool. split; [ reflexivity | ]. split; [ | exact Hlen ].
    assert (Hnone : bets_of_market (Market.id market) (bets st) = []).
    { unfold bets_of_market.
      apply filter_nothing. intros b Hb.
      destruct (String.eqb (Bet.marketId b) (Market.id market)) eqn:E;
        [ | reflexivity ].
      apply String.eqb_eq in E.
      destruct (Hbets b Hb) as (_ & (m & Hget & _) & _).
      exfalso. apply Hfresh. rewrite <- E.
      rewrite <- (Table_get_key Market.id _ _ _ Hget).
      apply in_map. apply (Table_get_In Market.id _ _ _ Hget). }
    rewrite Hnone. reflexivity.
  - intros b Hb. destruct (Hbets b Hb) as (H1 & (m & Hget & Hex) & H3).
    cbn [markets bets users]. repeat split; try assumption.
    exists m. split; [ | exact Hex ].
    rewrite Table_get_app, Hget. reflexivity.
Qed.

End LedgerMoves.

Section LedgerPlace.
Variable config : Config.

Lemma staked_book_fields (m market' : Market.t) (bet : Bet.t)
  (outcome : MarketOutcome.t) :
  find_outcome (Market.outcomes m) (Bet.outcomeId bet) = Some outcome ->
  market_book market'
  = market_book (staked m (Bet.outcomeId bet) (Bet.amount bet)) ->
  Market.id market' = Market.id m /\
  Market.totalPool market' = Market.totalPool m + Bet.amount bet /\
  sum_numbers (map MarketOutcome.totalBets (Market.outcomes market'))
  = sum_numbers (map MarketOutcome.totalBets (Market.outcomes m))
    + Bet.amount bet /\
  sum_Z (map MarketOutcome.betCount (Market.outcomes market'))
  = (sum_Z (map MarketOutcome.betCount (Market.outcomes m)) + 1)%Z /\
  map MarketOutcome.id (Market.outcomes market')
  = map MarketOutcome.id (Market.outcomes m) /\
  length (Market.outcomes market') = length (Market.outcomes m).
Proof.
  intros Hfind Hbook.
  destruct (market_book_fields _ _ Hbook)
    as (Hid & Hpool & Htot & Hcnt & Hids & Hlen & _).
  unfold staked in Hid, Hpool, Htot, Hcnt, Hids, Hlen.
  cbn [Market.with_totalPool Market.with_outcomes Market.id Market.totalPool
       Market.outcomes] in Hid, Hpool, Htot, Hcnt, Hids, Hlen.
  unfold find_outcome in Hfind.
  rewrite Htot, Hcnt, Hids, Hlen.
  rewrite (sum_numbers_update_first _ _ _ _ Hfind).
  rewrite (sum_Z_update_first _ _ _ _ Hfind).
  rewrite update_first_ids, update_first_length.
  repeat split; assumption.
Qed.

Lemma ledger_sound_place (st : MemoryStorage) (now : Z)
  (m market' : Market.t) (bet : Bet.t) (outcome : MarketOutcome.t) :
  ledger_sound config st ->
  In m (markets st) ->
  find_outcome (Market.outcomes m) (Bet.outcomeId bet) = Some outcome ->
  0 < Bet.amount bet ->
  Bet.amount bet
  <= User.balance (user_or_new config now (users st) (Bet.bettorId bet)) ->
  market_book market'
  = market_book (staked m (Bet.outcomeId bet) (Bet.amount bet)) ->
  ~ In (Bet.id bet) (map Bet.id (bets st)) ->
  Bet.marketId bet = Market.id m ->
  ledger_sound config
    (mkStorage (Table.set Market.id (markets st) market')
       (bets st ++ [bet])
       (Table.set User.id (users st)
          (credited (user_or_new config now (users st) (Bet.bettorId bet))
             (- Bet.amount bet)))).
Proof.
  intros Hs Hm Hfind Hpos Hbal Hbook Hfresh Hmid.
  destruct (user_or_new_sound config st now (Bet.bettorId bet) Hs)
    as [Hadd Hnonneg].
  destruct Hs as [ (Hkm & Hkb & Hku) Hbooks Hbets Hacc Hsolv ].
  destruct (staked_book_fields _ _ _ _ Hfind Hbook)
    as (Hid & Hpool & Htot & Hcnt & Hids & Hlen).
  assert (Hgetm : Table.get Market.id (markets st) (Market.id m) = Some m)
    by (apply Table_get_of_In; assumption).
  assert (Hex' : forall k, outcome_exists m k -> outcome_exists market' k)
    by (intros k; apply outcome_exists_ids; exact Hids).
  constructor; cbn [markets bets users].
  - repeat split; cbn [markets bets users].
    + apply Table_set_NoDup. exact Hkm.
    + rewrite map_app. apply NoDup_snoc; assumption.
    + apply Table_set_NoDup. exact Hku.
  - intros x Hx. cbn [markets bets].
    apply (Table_set_In Market.id) in Hx; [ | exact Hkm ].
    rewrite bets_of_market_snoc.
    destruct Hx as [-> | [Hx Hne]].
    + destruct (Hbooks m Hm) as (H1 & H2 & H3).
      rewrite Htot, Hcnt, Hpool, Hlen, Hid, Hmid, String.eqb_refl, H1, H2.
      repeat split; [ lia | exact H3 ].
    + destruct (Hbooks x Hx) as (H1 & H2 & H3).
      assert (E : String.eqb (Bet.marketId bet) (Market.id x) = false).
      { apply String.eqb_neq. rewrite Hmid, <- Hid.
        intros Heq. apply Hne. symmetry. exact Heq. }
      rewrite E, Nat.add_0_r. repeat split; assumption.
  - intros b Hb. cbn [markets bets users]. apply in_app_or in Hb.
    destruct Hb as [Hb | [<- | []]].
    + destruct (Hbets b Hb) as (H1 & (m0 & Hget & Hex) & H3).
      split; [ exact H1 | ]. split.
      * rewrite Table_get_set.
        destruct (String.eqb (Market.id market') (Bet.marketId b)) eqn:E.
        -- exists market'. split; [ reflexivity | ].
           apply String.eqb_eq in E. rewrite Hid in E.
           rewrite <- E, Hgetm in Hget. injection Hget as <-.
           apply Hex'. exact Hex.
        -- exists m0. split; assumption.
      * apply Table_set_keys_grow. exact H3.
    + split; [ exact Hpos | ]. split.
      * exists market'. split.
        -- rewrite Table_get_set, Hid, Hmid, String.eqb_refl. reflexivity.
        -- apply Hex'. apply find_outcome_exists. rewrite Hfind. discriminate.
      * pose proof (Table_set_key_in User.id (users st)
                      (credited (user_or_new config now (users st)
                                   (Bet.bettorId bet)) (- Bet.amount bet)))
          as Hkey.
        rewrite credited_id, user_or_new_id in Hkey. exact Hkey.
  - intros x Hx. apply Table_set_In_weak in Hx.
    destruct Hx as [-> | Hx]; [ | exact (Hacc x Hx) ].
    apply credited_adds_up. exact Hadd.
  - intros Hinit x Hx. apply Table_set_In_weak in Hx.
    destruct Hx as [-> | Hx]; [ | exact (Hsolv Hinit x Hx) ].
    rewrite credited_balance. qc_to_q. lra.
Qed.

(** Every move keeps the ledger sound. *)
Lemma move_sound (st st' : MemoryStorage) :
  move config st st' -> ledger_sound config st -> ledger_sound config st'.
Proof.
  intros Hmove Hs.
  destruct Hmove as [ st m' Hin | st b' Hin | st now userId
                    | st now userId delta Hpos | st now b Hin
                    | st market Hfresh Hpool Hlen Hzero
                    | st now m market' bet outcome Hm Hfind Hpos Hbal Hbook
                        Hfresh Hmid ].
  - apply ledger_sound_same_books; [ exact Hs | | reflexivity ].
    apply (Table_set_same_core Market.id market_book fst market_key_book);
      [ apply (ledger_keys _ _ Hs) | exact Hin ].
  - apply ledger_sound_same_books; [ exact Hs | reflexivity | ].
    apply (Table_set_same_core Bet.id bet_slip fst bet_key_slip);
      [ apply (ledger_keys _ _ Hs) | exact Hin ].
  - destruct (user_or_new_sound config st now userId Hs) as [Ha Hp].
    apply ledger_sound_user; assumption.
  - apply ledger_sound_credit; [ exact Hs | ]. apply Qclt_le_weak. exact Hpos.
  - apply ledger_sound_credit; [ exact Hs | ].
    apply in_map_iff in Hin. destruct Hin as (b0 & Hslip & Hb0).
    injection Hslip as _ _ _ _ Ha. rewrite <- Ha.
    apply Qclt_le_weak. apply (ledger_bets _ _ Hs b0 Hb0).
  - apply ledger_sound_create; assumption.
  - apply (ledger_sound_place st now m market' bet outcome); assumption.
Qed.

Lemma ledger_sound_new : ledger_sound config MemoryStorage_new.
Proof.
  constructor; cbn.
  - repeat split; constructor.
  - intros m [].
  - intros b [].
  - intros u [].
  - intros _ u [].
Qed.

Lemma moves_sound (st st' : MemoryStorage) :
  moves config st st' -> ledger_sound config st -> ledger_sound config st'.
Proof.
  induction 1 as [ st | st1 st2 st3 Hmove _ IH ]; intros Hs; [ exact Hs | ].
  apply IH. apply (move_sound _ _ Hmove Hs).
Qed.

Lemma moves_trans (st1 st2 st3 : MemoryStorage) :
  moves config st1 st2 -> moves config st2 st3 -> moves config st1 st3.
Proof.
  intros H12. revert st3.
  induction H12 as [ st | a b c Hmove _ IH ]; intros st3 H; [ exact H | ].
  apply (moves_next config a b st3 Hmove). apply IH. exact H.
Qed.

Lemma moves_one (st st' : MemoryStorage) :
  move config st st' -> moves config st st'.
Proof.
  intros H. apply (moves_next config st st' st' H). constructor.
Qed.

End LedgerPlace.

(** ** Every call changes the storage by moves *)

Section StepMoves.
Variable config : Config.

Lemma storage_ext (a b : MemoryStorage) :
  markets a = markets b -> bets a = bets b -> users a = users b -> a = b.
Proof.
  destruct a, b. cbn. intros -> -> ->. reflexivity.
Qed.

Lemma calculateOdds_book (m : Market.t) :
  map outcome_book (calculateOdds m) = map outcome_book (Market.outcomes m).
Proof.
  unfold calculateOdds. cbv zeta. rewrite map_map. apply map_ext.
  intros o. unfold outcome_book.
  destruct (_ || _); reflexivity.
Qed.

Lemma getOrCreateUser_moves (now : Z) (userId : string) (s : State) :
  moves config (storage s)
    (storage (state_after (getOrCreateUser config now userId) s)).
Proof.
  destruct (getOrCreateUser_run config now userId s) as (_ & Hm & Hb & Hu).
  destruct (Table.get User.id (users (storage s)) userId) as [u | ] eqn:E.
  - rewrite (storage_ext _ (storage s) Hm Hb Hu). constructor.
  - apply moves_one.
    rewrite (storage_ext _
               (mkStorage (markets (storage s)) (bets (storage s))
                  (Table.set User.id (users (storage s))
                     (user_or_new config now (users (storage s)) userId)))
               Hm Hb Hu).
    apply move_touch.
Qed.

Lemma updateUserBalance_storage (now : Z) (userId : string)
  (delta : number) (s : State) :
  storage (state_after (updateUserBalance config now userId delta) s)
  = mkStorage (markets (storage s)) (bets (storage s))
      (Table.set User.id (users (storage s))
         (credited (user_or_new config now (users (storage s)) userId)
            delta)).
Proof.
  destruct (updateUserBalance_run config now userId delta s)
    as (_ & Hm & Hb & Hu).
  apply storage_ext; assumption.
Qed.

Lemma refund_bet_moves (now : Z) (market : Market.t) (b : Bet.t)
  (s : State) :
  In (bet_slip b) (map bet_slip (bets (storage s))) ->
  moves config (storage s)
    (storage (state_after (refund_bet config now market b) s)).
Proof.
  intros Hin.
  destruct (refund_bet_effect config now market b s) as (Hm & Hb & Hu).
  cbv zeta in Hm, Hb, Hu.
  eapply moves_next; [ apply (move_refund config (storage s) now b Hin) | ].
  apply moves_one.
  rewrite (storage_ext _
             (mkStorage (markets (storage s))
                (Table.set Bet.id (bets (storage s))
                   (Bet.settle b refunded (Bet.amount b)))
                (Table.set User.id (users (storage s))
                   (credited
                      (user_or_new config now (users (storage s))
                         (Bet.bettorId b)) (Bet.amount b))))
             Hm Hb Hu).
  apply (move_settle config
           (mkStorage (markets (storage s)) (bets (storage s)) _)
           (Bet.settle b refunded (Bet.amount b))).
  exact Hin.
Qed.

Lemma resolve_bet_moves (now : Z) (market : Market.t) (w : string)
  (payouts : JsMap.t number) (b : Bet.t) (s : State) :
  In (bet_slip b) (map bet_slip (bets (storage s))) ->
  moves config (storage s)
    (storage (state_after (resolve_bet config now market w payouts b) s)).
Proof.
  intros Hin.
  destruct (resolve_bet_effect config now market w payouts b s)
    as (Hm & Hb & Hu).
  cbv zeta in Hm, Hb, Hu.
  set (b' := Bet.settle b _ _) in Hb.
  destruct (String.eqb (Bet.outcomeId b) w
            && Num.ltb 0 (Num.or0 (JsMap.get payouts (Bet.bettorId b))))
    eqn:E.
  - apply andb_prop in E. destruct E as [_ Hpos].
    apply Num_ltb_lt in Hpos.
    eapply moves_next;
      [ apply (move_credit config (storage s) now (Bet.bettorId b) _ Hpos) | ].
    apply moves_one.
    rewrite (storage_ext _
               (mkStorage (markets (storage s))
                  (Table.set Bet.id (bets (storage s)) b')
                  (Table.set User.id (users (storage s))
                     (credited
                        (user_or_new config now (users (storage s))
                           (Bet.bettorId b))
                        (Num.or0 (JsMap.get payouts (Bet.bettorId b))))))
               Hm Hb Hu).
    apply (move_settle config
             (mkStorage (markets (storage s)) (bets (storage s)) _) b').
    exact Hin.
  - apply moves_one.
    rewrite (storage_ext _
               (mkStorage (markets (storage s))
                  (Table.set Bet.id (bets (storage s)) b')
                  (users (storage s)))
               Hm Hb Hu).
    apply (move_settle config (storage s) b'). exact Hin.
Qed.

(** A loop that settles stored bets. *)
Lemma settling_loop_moves (body : Bet.t -> M unit) (l : list Bet.t) :
  (forall b s,
      In (bet_slip b) (map bet_slip (bets (storage s))) ->
      moves config (storage s) (storage (state_after (body b) s)) /\
      markets (storage (state_after (body b) s)) = markets (storage s) /\
      exists b', bet_slip b' = bet_slip b /\
                 bets (storage (state_after (body b) s))
                 = Table.set Bet.id (bets (storage s)) b') ->
  forall s,
    NoDup (map Bet.id (bets (storage s))) ->
    (forall b, In b l ->
               In (bet_slip b) (map bet_slip (bets (storage s)))) ->
    let s' := fold_left (fun s a => state_after (body a) s) l s in
    moves config (storage s) (storage s') /\
    markets (storage s') = markets (storage s) /\
    map bet_slip (bets (storage s')) = map bet_slip (bets (storage s)).
Proof.
  intros Hbody. induction l as [ | b r IH ]; intros s Hnd Hin; cbn [fold_left].
  - repeat split. constructor.
  - destruct (Hbody b s (Hin b (or_introl eq_refl)))
      as (Hmv & Hm & b' & Hslip & Hb).
    assert (Hsame : map bet_slip (bets (storage (state_after (body b) s)))
                    = map bet_slip (bets (storage s))).
    { rewrite Hb.
      apply (Table_set_same_core Bet.id bet_slip fst bet_key_slip);
        [ exact Hnd | ].
      rewrite Hslip. apply (Hin b). left. reflexivity. }
    destruct (IH (state_after (body b) s)) as (Hmv' & Hm' & Hb').
    + rewrite bet_ids_of_slips, Hsame, <- bet_ids_of_slips. exact Hnd.
    + intros x Hx. rewrite Hsame. apply Hin. right. exact Hx.
    + cbv zeta. repeat split.
      * apply (moves_trans config _ _ _ Hmv Hmv').
      * rewrite Hm'. exact Hm.
      * rewrite Hb'. exact Hsame.
Qed.

Lemma stored_bets_slips (marketId : string) (s : State) (b : Bet.t) :
  In b (bets_of_market marketId (Table.values (bets (storage s)))) ->
  In (bet_slip b) (map bet_slip (bets (storage s))).
Proof.
  unfold bets_of_market, Table.values. intros Hin.
  apply filter_In in Hin. apply in_map, Hin.
Qed.

Lemma stored_market_book (s : State) (marketId : string) (m m' : Market.t) :
  Table.get Market.id (markets (storage s)) marketId = Some m ->
  market_book m' = market_book m ->
  In (market_book m') (map market_book (markets (storage s))).
Proof.
  intros Hget ->. apply in_map. apply (Table_get_In Market.id _ _ _ Hget).
Qed.

Lemma saveMarket_moves (m : Market.t) (s : State) :
  In (market_book m) (map market_book (markets (storage s))) ->
  moves config (storage s) (storage (state_after (storage_saveMarket m) s)).
Proof.
  intros Hin. apply moves_one. cbn. apply move_retouch. exact Hin.
Qed.

Lemma getMarket_moves (marketId : string) (s : State) :
  moves config (storage s) (storage (state_after (getMarket marketId) s)).
Proof.
  unfold state_after, getMarket, bind, storage_getMarket.
  destruct (Table.get Market.id (markets (storage s)) marketId)
    as [m | ] eqn:Hget; cbn [ret snd]; [ | constructor ].
  apply (saveMarket_moves (Market.with_outcomes m (calculateOdds m)) s).
  apply (stored_market_book s marketId m); [ exact Hget | ].
  unfold market_book. cbn [Market.with_outcomes Market.outcomes Market.id].
  rewrite calculateOdds_book. reflexivity.
Qed.

Lemma closeMarket_moves (marketId : string) (s : State) :
  moves config (storage s) (storage (state_after (closeMarket marketId) s)).
Proof.
  unfold state_after, closeMarket, load_market, bind, storage_getMarket.
  destruct (Table.get Market.id (markets (storage s)) marketId)
    as [m | ] eqn:Hget; cbn [ret raise snd]; [ | constructor ].
  apply (saveMarket_moves (Market.with_status m CLOSED) s).
  apply (stored_market_book s marketId m); [ exact Hget | reflexivity ].
Qed.

End StepMoves.

Section StepMovesLoops.
Variable config : Config.

Lemma resolve_bet_settles (now : Z) (market : Market.t) (w : string)
  (payouts : JsMap.t number) (b : Bet.t) (s : State) :
  In (bet_slip b) (map bet_slip (bets (storage s))) ->
  moves config (storage s)
    (storage (state_after (resolve_bet config now market w payouts b) s)) /\
  markets (storage (state_after (resolve_bet config now market w payouts b) s))
  = markets (storage s) /\
  exists b', bet_slip b' = bet_slip b /\
             bets (storage
                     (state_after (resolve_bet config now market w payouts b)
                        s))
             = Table.set Bet.id (bets (storage s)) b'.
Proof.
  intros Hin. split; [ apply resolve_bet_moves; exact Hin | ].
  destruct (resolve_bet_effect config now market w payouts b s)
    as (Hm & Hb & _).
  cbv zeta in Hm, Hb. split; [ exact Hm | ].
  eexists. split; [ | exact Hb ]. reflexivity.
Qed.

Lemma refund_bet_settles (now : Z) (market : Market.t) (b : Bet.t)
  (s : State) :
  In (bet_slip b) (map bet_slip (bets (storage s))) ->
  moves config (storage s)
    (storage (state_after (refund_bet config now market b) s)) /\
  markets (storage (state_after (refund_bet config now market b) s))
  = markets (storage s) /\
  exists b', bet_slip b' = bet_slip b /\
             bets (storage (state_after (refund_bet config now market b) s))
             = Table.set Bet.id (bets (storage s)) b'.
Proof.
  intros Hin. split; [ apply refund_bet_moves; exact Hin | ].
  destruct (refund_bet_effect config now market b s) as (Hm & Hb & _).
  cbv zeta in Hm, Hb. split; [ exact Hm | ].
  eexists. split; [ | exact Hb ]. reflexivity.
Qed.

Lemma resolveMarket_moves (now : Z) (input : resolveMarketInput.t)
  (s : State) :
  NoDup (map Bet.id (bets (storage s))) ->
  moves config (storage s)
    (storage (state_after (resolveMarket config now input) s)).
Proof.
  intros Hnd. unfold state_after, resolveMarket, load_market.
  unfold bind at 1 2. unfold storage_getMarket.
  destruct (Table.get Market.id (markets (storage s))
              (resolveMarketInput.marketId input)) as [m | ] eqn:Hget;
    cbn [ret raise snd]; [ | constructor ].
  unfold bind at 1. unfold check.
  destruct (validateResolveMarket input m) as [ [] | e ];
    cbn [snd]; [ | constructor ].
  unfold bind at 1. unfold storage_getAllBets. unfold bind at 1.
  cbn [storage_saveMarket]. unfold bind at 1.
  rewrite (for_of_run _ _ (resolve_bet_is_ok config now _ _ _)).
  set (w := resolveMarketInput.winningOutcomeId input).
  set (l := bets_of_market (Market.id m) (Table.values (bets (storage s)))).
  set (payouts := calculatePayouts m w (map stake_of l)).
  set (m' := Market.resolved m now w).
  set (s1 := mkState _ (emitted s)).
  destruct (settling_loop_moves config
              (resolve_bet config now m' w payouts) l
              (resolve_bet_settles now m' w payouts) s1)
    as (Hmv & _ & _).
  - exact Hnd.
  - intros b Hb. apply (stored_bets_slips (Market.id m) s b Hb).
  - cbv zeta in Hmv. cbn [snd storage emit bind ret].
    eapply moves_next; [ | exact Hmv ].
    apply (move_retouch config (storage s) m').
    apply (stored_market_book s _ m m' Hget). reflexivity.
Qed.

Lemma cancelMarket_moves (now : Z) (marketId : string)
  (reason : option string) (s : State) :
  NoDup (map Bet.id (bets (storage s))) ->
  moves config (storage s)
    (storage (state_after (cancelMarket config now marketId reason) s)).
Proof.
  intros Hnd. unfold state_after, cancelMarket, load_market.
  unfold bind at 1 2. unfold storage_getMarket.
  destruct (Table.get Market.id (markets (storage s)) marketId)
    as [m | ] eqn:Hget; cbn [ret raise snd]; [ | constructor ].
  destruct (MarketStatus_eqb (Market.status m) RESOLVED);
    [ constructor | ].
  unfold bind at 1. unfold storage_getAllBets. unfold bind at 1.
  rewrite (for_of_run _ _ (refund_bet_is_ok config now m)).
  set (l := bets_of_market (Market.id m) (Table.values (bets (storage s)))).
  destruct (settling_loop_moves config (refund_bet config now m) l
              (refund_bet_settles now m) s Hnd)
    as (Hmv & Hm & _).
  - intros b Hb. apply (stored_bets_slips (Market.id m) s b Hb).
  - cbv zeta in Hmv, Hm. set (s1 := fold_left _ l s) in *.
    set (m' := match reason with Some _ => _ | None => _ end).
    assert (Hbook : market_book m' = market_book m).
    { unfold m'. destruct reason as [r | ]; [ | reflexivity ].
      destruct (String.eqb r ""); reflexivity. }
    cbn [snd storage emit bind ret storage_saveMarket].
    apply (moves_trans config _ _ _ Hmv). apply moves_one.
    apply (move_retouch config (storage s1) m').
    rewrite Hm. apply (stored_market_book s marketId m m' Hget Hbook).
Qed.

Lemma close_expired_moves (now : Z) (ms : list Market.t) :
  forall (closed : list Market.t) (s : State),
    NoDup (map Market.id (markets (storage s))) ->
    (forall m, In m ms ->
               In (market_book m) (map market_book (markets (storage s)))) ->
    moves config (storage s)
      (storage (state_after (close_expired now ms closed) s)).
Proof.
  induction ms as [ | m r IH ]; intros closed s Hnd Hin;
    cbn [close_expired].
  - constructor.
  - destruct (_ && _).
    + set (m' := Market.with_status m CLOSED).
      set (s1 := state_after (emit (market_closed m'))
                   (state_after (storage_saveMarket m') s)).
      change (moves config (storage s)
                (storage
                   (state_after (close_expired now r (closed ++ [m'])) s1))).
      assert (Hbook : In (market_book m')
                        (map market_book (markets (storage s))))
        by (apply (Hin m); left; reflexivity).
      assert (Hsame : map market_book (markets (storage s1))
                      = map market_book (markets (storage s))).
      { cbn. apply (Table_set_same_core Market.id market_book fst
                      market_key_book); assumption. }
      eapply moves_next;
        [ apply (move_retouch config (storage s) m' Hbook) | ].
      apply (IH (closed ++ [m']) s1).
      * rewrite market_ids_of_books, Hsame, <- market_ids_of_books.
        exact Hnd.
      * intros m0 Hm0. rewrite Hsame. apply Hin. right. exact Hm0.
    + apply IH; [ exact Hnd | ].
      intros m' Hm'. apply Hin. right. exact Hm'.
Qed.

Lemma checkAndCloseExpiredMarkets_moves (now : Z) (s : State) :
  NoDup (map Market.id (markets (storage s))) ->
  moves config (storage s)
    (storage (state_after (checkAndCloseExpiredMarkets now) s)).
Proof.
  intros Hnd. unfold checkAndCloseExpiredMarkets, state_after, bind,
    storage_getAllMarkets, Table.values.
  apply (close_expired_moves now (markets (storage s)) [] s Hnd).
  intros m Hm. apply in_map, Hm.
Qed.

Lemma addFunds_moves (now : Z) (userId : string) (amount : number)
  (s : State) :
  moves config (storage s)
    (storage (state_after (addFunds config now userId amount) s)).
Proof.
  unfold addFunds. destruct (Num.leb amount 0) eqn:E.
  - constructor.
  - rewrite updateUserBalance_storage. apply moves_one.
    apply move_credit. apply Qcnot_le_lt. intros Hle.
    apply Num_leb_le in Hle. congruence.
Qed.

Lemma createMarket_moves (now : Z) (marketId : string)
  (gen : nat -> string) (input : CreateMarketInput.t) (s : State) :
  Table.get Market.id (markets (storage s)) marketId = None ->
  moves config (storage s)
    (storage (state_after (createMarket config now marketId gen input) s)).
Proof.
  intros Hfresh. unfold state_after, createMarket.
  unfold bind at 1. unfold check.
  destruct (validateCreateMarketInput now input) as [ [] | e ] eqn:Hval;
    cbn [snd]; [ | constructor ].
  apply (proj1 (validateCreateMarketInput_decides now input)) in Hval.
  destruct Hval as (_ & Hlen & _).
  set (market := Market.mk marketId _ _ _ _ _ _ _ _ _ _ _ _ _ _ _ _).
  cbn [bind storage_saveMarket emit ret snd storage].
  rewrite (Table_set_fresh Market.id _ market Hfresh).
  apply moves_one. apply move_create.
  - apply Table_get_None. exact Hfresh.
  - reflexivity.
  - cbn [market Market.outcomes]. rewrite mapi_from_length. exact Hlen.
  - cbn [market Market.outcomes]. apply mapi_from_Forall.
    intros i [ l | oid l ]; split; reflexivity.
Qed.

End StepMovesLoops.

Section StepMovesPlace.
Variable config : Config.

Lemma user_or_new_stored (now : Z) (us : list User.t) (userId : string) :
  user_or_new config now
    (Table.set User.id us (user_or_new config now us userId)) userId
  = user_or_new config now us userId.
Proof.
  unfold user_or_new at 1. rewrite Table_get_set.
  rewrite user_or_new_id, String.eqb_refl. reflexivity.
Qed.

Lemma placeBet_moves (now : Z) (betId : string) (input : placeBetInput.t)
  (s : State) :
  Table.get Bet.id (bets (storage s)) betId = None ->
  moves config (storage s)
    (storage (state_after (placeBet config now betId input) s)).
Proof.
  intros Hfresh. unfold state_after, placeBet, load_market.
  unfold bind at 1 2. unfold storage_getMarket at 1.
  destruct (Table.get Market.id (markets (storage s))
              (placeBetInput.marketId input)) as [m | ] eqn:Hget;
    cbn [ret raise snd]; [ | constructor ].
  unfold bind at 1. unfold check at 1.
  destruct (validatePlaceBet now input m) as [ [] | e ] eqn:Hval;
    cbn [snd]; [ | constructor ].
  apply (proj1 (validatePlaceBet_decides now input m)) in Hval.
  destruct Hval as (_ & _ & Hex & Hpos & _).
  unfold bind at 1.
  pose proof (getOrCreateUser_moves config now
                (placeBetInput.bettorId input) s) as Hmv1.
  destruct (getOrCreateUser_run config now (placeBetInput.bettorId input) s)
    as (Hres & Hm1 & Hb1 & Hu1).
  unfold result_of, state_after in *.
  destruct (getOrCreateUser config now (placeBetInput.bettorId input) s)
    as [r s1].
  cbn [fst snd] in *. subst r.
  set (u := user_or_new config now (users (storage s))
              (placeBetInput.bettorId input)) in *.
  assert (Hu : user_or_new config now (users (storage s1))
                 (placeBetInput.bettorId input) = u).
  { rewrite Hu1.
    destruct (Table.get User.id (users (storage s))
                (placeBetInput.bettorId input)) eqn:E; [ reflexivity | ].
    apply user_or_new_stored. }
  destruct (Num.ltb (User.balance u) (placeBetInput.amount input)) eqn:Hbal;
    [ exact Hmv1 | ].
  unfold bind at 1.
  pose proof (updateUserBalance_storage config now
                (placeBetInput.bettorId input)
                (- placeBetInput.amount input) s1) as Hst2.
  destruct (updateUserBalance_run config now (placeBetInput.bettorId input)
              (- placeBetInput.amount input) s1) as (Hres2 & _).
  unfold result_of, state_after in *.
  destruct (updateUserBalance config now (placeBetInput.bettorId input)
              (- placeBetInput.amount input) s1) as [r2 s2].
  cbn [fst snd] in *. cbv zeta in Hres2. subst r2.
  set (bet := Bet.mk betId _ _ _ _ _ _ _ _ _).
  set (market := Market.with_outcomes _ (calculateOdds _)).
  cbn [bind storage_saveBet storage_saveMarket emit ret snd storage
       markets bets users].
  rewrite Hst2. cbn [markets bets users]. rewrite Hu.
  apply (moves_trans config _ _ _ Hmv1). apply moves_one.
  rewrite (Table_set_fresh Bet.id (bets (storage s1)) bet)
    by (rewrite Hb1; exact Hfresh).
  apply find_outcome_exists in Hex.
  destruct (find_outcome (Market.outcomes m) (placeBetInput.outcomeId input))
    as [outcome | ] eqn:Hfind; [ | contradiction Hex; reflexivity ].
  pose proof (move_place config (storage s1) now m market bet outcome) as Hmove.
  cbn [Bet.outcomeId Bet.amount Bet.bettorId Bet.id Bet.marketId bet]
    in Hmove.
  rewrite Hu in Hmove. apply Hmove.
  - rewrite Hm1. apply (Table_get_In Market.id _ _ _ Hget).
  - exact Hfind.
  - exact Hpos.
  - apply Qcnot_lt_le. intros Hlt. apply Num_ltb_lt in Hlt. congruence.
  - unfold market, market_book, staked.
    cbn [Market.with_outcomes Market.with_totalPool Market.outcomes
         Market.id].
    rewrite calculateOdds_book. reflexivity.
  - rewrite Hb1. apply Table_get_None. exact Hfresh.
  - reflexivity.
Qed.

(** Every call other than [clear] changes the storage by moves. *)
Lemma step_moves (s s' : State) :
  keys_unique (storage s) ->
  step config s s' ->
  s' = state_after clear s \/ moves config (storage s) (storage s').
Proof.
  intros (Hkm & Hkb & Hku) Hstep.
  destruct Hstep as
    [ s now marketId gen input Hfresh | s marketId | s st a | s marketId
    | s now input | s now marketId reason | s marketId
    | s now betId input Hfresh | s betId | s marketId | s userId
    | s marketId outcomeId amount | s now userId | s userId
    | s now userId amount | s | s now | s ];
    [ right .. | left; reflexivity ].
  - apply createMarket_moves. exact Hfresh.
  - apply getMarket_moves.
  - constructor.
  - apply closeMarket_moves.
  - apply resolveMarket_moves. exact Hkb.
  - apply cancelMarket_moves. exact Hkb.
  - rewrite getMarketStats_state. constructor.
  - apply placeBet_moves. exact Hfresh.
  - constructor.
  - constructor.
  - constructor.
  - rewrite calculatePayout_state. constructor.
  - apply getOrCreateUser_moves.
  - constructor.
  - apply addFunds_moves.
  - constructor.
  - apply checkAndCloseExpiredMarkets_moves. exact Hkm.
Qed.

Lemma step_sound (s s' : State) :
  ledger_sound config (storage s) -> step config s s' ->
  ledger_sound config (storage s').
Proof.
  intros Hs Hstep.
  destruct (step_moves s s' (ledger_keys _ _ Hs) Hstep) as [-> | Hmv].
  - apply ledger_sound_new.
  - apply (moves_sound config _ _ Hmv Hs).
Qed.

Lemma reachable_sound (s : State) :
  reachable config s -> ledger_sound config (storage s).
Proof.
  induction 1 as [ | s s' _ IH Hstep ].
  - apply ledger_sound_new.
  - apply (step_sound s s'); assumption.
Qed.

End StepMovesPlace.

(** ** The stake and the count of each outcome *)

Section OutcomeBooks.
Variable config : Config.












End OutcomeBooks.

(** ** What a call keeps of a market *)

Section MarketTerms.
Variable config : Config.

Lemma Table_set_In_other {A : Type} (key : A -> string) (t : list A)
  (a x : A) :
  In x t -> key x <> key a -> In x (Table.set key t a).
Proof.
  intros Hin Hne. induction t as [ | b r IH ]; [ destruct Hin | ].
  cbn [Table.set]. destruct (String.eqb (key b) (key a)) eqn:E.
  - destruct Hin as [-> | Hin]; [ | right; exact Hin ].
    apply String.eqb_eq in E. contradiction.
  - destruct Hin as [-> | Hin]; [ left; reflexivity | right ].
    apply IH, Hin.
Qed.

Lemma Table_set_In_new {A : Type} (key : A -> string) (t : list A) (a : A) :
  In a (Table.set key t a).
Proof.
  induction t as [ | b r IH ]; cbn [Table.set].
  - left. reflexivity.
  - destruct (String.eqb (key b) (key a)); [ left; reflexivity | ].
    right. exact IH.
Qed.

Lemma staked_terms (m : Market.t) (outcomeId : string) (amount : number) :
  market_terms (staked m outcomeId amount) = market_terms m.
Proof.
  unfold market_terms, staked.
  cbn [Market.with_totalPool Market.with_outcomes Market.outcomes frozen
       Market.id Market.appId Market.question Market.description
       Market.outcomeType Market.totalPool Market.feeRate Market.createdAt
       Market.closesAt Market.allowedBettors Market.minBet Market.maxBet].
  f_equal.
  induction (Market.outcomes m) as [ | o r IH ]; cbn [update_first];
    [ reflexivity | ].
  destruct (String.eqb (MarketOutcome.id o) outcomeId); cbn [map];
    [ reflexivity | rewrite IH; reflexivity ].
Qed.

Lemma market_terms_id (m m' : Market.t) :
  market_terms m' = market_terms m -> Market.id m' = Market.id m.
Proof.
  unfold market_terms. intros H.
  apply (f_equal (fun x => Market.id (fst x))) in H. exact H.
Qed.

(** Overwriting a market by one with the terms of the stored market of
    the same id keeps every stored market's terms. *)
Lemma retouch_keeps_terms (M : list Market.t) (m0 m' : Market.t) :
  NoDup (map Market.id M) ->
  In m0 M -> market_terms m' = market_terms m0 ->
  forall m, In m M ->
    exists m1, In m1 (Table.set Market.id M m') /\
               market_terms m1 = market_terms m.
Proof.
  intros Hnd Hm0 Hterms m Hm.
  destruct (String.eqb (Market.id m) (Market.id m')) eqn:E.
  - apply String.eqb_eq in E. exists m'. split; [ apply Table_set_In_new | ].
    rewrite (market_terms_id _ _ Hterms) in E.
    rewrite (Table_unique_entry Market.id M m m0 Hnd Hm Hm0 E).
    exact Hterms.
  - apply String.eqb_neq in E. exists m. split; [ | reflexivity ].
    apply Table_set_In_other; assumption.
Qed.

Lemma move_keeps_terms (st st' : MemoryStorage) :
  move config st st' ->
  NoDup (map Market.id (markets st)) ->
  forall m, In m (markets st) ->
    exists m', In m' (markets st') /\ market_terms m' = market_terms m.
Proof.
  intros Hmove Hnd m Hm.
  destruct Hmove as [ st m' Hin | st b' Hin | st now userId
                    | st now userId delta Hpos | st now b Hin
                    | st market Hfresh Hpool Hlen Hzero
                    | st now m0 market' bet outcome Hm0 Hfind Hpos Hbal Hbook
                        Hfresh Hmid ];
    cbn [markets];
    try (exists m; split; [ exact Hm | reflexivity ]).
  - apply in_map_iff in Hin. destruct Hin as (m0 & Hbook & Hm0).
    apply (retouch_keeps_terms _ m0 m' Hnd Hm0); [ | exact Hm ].
    apply (market_book_fields _ _ (eq_sym Hbook)).
  - exists m. split; [ apply in_or_app; left; exact Hm | reflexivity ].
  - apply (retouch_keeps_terms _ m0 market' Hnd Hm0); [ | exact Hm ].
    rewrite <- (staked_terms m0 (Bet.outcomeId bet) (Bet.amount bet)).
    apply (market_book_fields _ _ Hbook).
Qed.

Lemma moves_keep_terms (st st' : MemoryStorage) :
  moves config st st' ->
  ledger_sound config st ->
  forall m, In m (markets st) ->
    exists m', In m' (markets st') /\ market_terms m' = market_terms m.
Proof.
  induction 1 as [ st | st1 st2 st3 Hmove _ IH ]; intros Hs m Hm.
  - exists m. split; [ exact Hm | reflexivity ].
  - destruct (move_keeps_terms _ _ Hmove (proj1 (ledger_keys _ _ Hs)) m Hm)
      as (m2 & Hm2 & Ht2).
    destruct (IH (move_sound config _ _ Hmove Hs) m2 Hm2) as (m3 & Hm3 & Ht3).
    exists m3. split; [ exact Hm3 | ]. rewrite Ht3. exact Ht2.
Qed.


End MarketTerms.

(** ** Invariants of the states the facade reaches *)



(** X25. No method ever writes totalLost: in every state the facade
    reaches from a fresh storage, the totalLost of every stored user is
    the 0 it was created with. *)
Theorem reachable_totalLost_never_written (config : Config) (s : State)
  (userId : string) (u : User.t) :
  reachable config s ->
  Table.get User.id (users (storage s)) userId = Some u ->
  User.totalLost u = 0.
Proof.
  intros Hreach Hget.
  apply (ledger_accounts _ _ (reachable_sound config s Hreach) u).
  apply (Table_get_In User.id _ _ _ Hget).
Qed.


(** X28. A call of the facade other than clear, made in a state reached
    from a fresh storage, removes no stored market and keeps each stored
    market's terms: its id, appId, question, description, outcome type,
    fee rate, creation and closing times, allowed bettors, bet limits,
    and the ids and labels of its outcomes, in order. *)
Theorem step_keeps_market_terms (config : Config) (s s' : State)
  (marketId : string) (m : Market.t) :
  reachable config s ->
  step config s s' ->
  s' <> state_after clear s ->
  Table.get Market.id (markets (storage s)) marketId = Some m ->
  exists m', Table.get Market.id (markets (storage s')) marketId = Some m' /\
             market_terms m' = market_terms m.
Proof.
  intros Hreach Hstep Hclear Hget.
  pose proof (reachable_sound config s Hreach) as Hs.
  destruct (step_moves config s s' (ledger_keys _ _ Hs) Hstep)
    as [Heq | Hmv]; [ contradiction | ].
  destruct (moves_keep_terms config _ _ Hmv Hs m
              (Table_get_In Market.id _ _ _ Hget)) as (m' & Hin & Hterms).
  exists m'. split; [ | exact Hterms ].
  rewrite <- (Table_get_key Market.id _ _ _ Hget).
  rewrite <- (market_terms_id _ _ Hterms).
  apply Table_get_of_In; [ | exact Hin ].
  apply (ledger_keys _ _ (moves_sound config _ _ Hmv Hs)).
Qed.

(** ** The further properties at concrete inputs *)





Lemma scenario_keys_unique : keys_unique (storage Scenario.placed).
Proof.
  apply (ledger_keys Scenario.config).
  apply reachable_sound. apply scenario_reachable_placed.
Qed.





(** X11, witness: deleting the market of the storage after create and
    bet. *)
Lemma MemoryStorage_delete_get_witness :
  keys_unique (storage Scenario.placed) /\
  MemoryStorage_getMarket
    (MemoryStorage_deleteMarket (storage Scenario.placed) "mkt_1") "mkt_1"
  = None /\
  keys_unique (MemoryStorage_deleteMarket (storage Scenario.placed) "mkt_1").
Proof.
  split; [ apply scenario_keys_unique | ].
  destruct (MemoryStorage_delete_get (storage Scenario.placed) "mkt_1"
              scenario_keys_unique) as (Hget & _ & _ & _ & Hkeys & _).
  split; [ | exact Hkeys ].
  rewrite Hget, String.eqb_refl. reflexivity.
Defined.

(** X12, witness: the storage after create and bet. *)
Lemma MemoryStorage_export_import_witness :
  keys_unique (storage Scenario.placed) /\
  MemoryStorage_importData MemoryStorage_new
    (MemoryStorage_exportData (storage Scenario.placed))
  = storage Scenario.placed.
Proof.
  split; [ apply scenario_keys_unique | ].
  apply (MemoryStorage_export_import (storage Scenario.placed)
           scenario_keys_unique).
Defined.


(** X15, witness: resolving the imported market in favour of A. *)
Lemma resolveMarket_settles_witness :
  NoDup (map Bet.id (bets (storage Scenario.imported))) /\
  Table.get Market.id (markets (storage Scenario.imported)) "mkt_r"
    = Some Scenario.resolved_market /\
  validateResolveMarket Scenario.resolve_A Scenario.resolved_market
    = Ok tt /\
  result_of (resolveMarket Scenario.config 2000 Scenario.resolve_A)
    Scenario.imported
  = Ok (Market.resolved Scenario.resolved_market 2000 "A").
Proof.
  assert (Hnd : NoDup (map Bet.id (bets (storage Scenario.imported)))).
  { cbn. repeat constructor; cbn; intuition discriminate. }
  split; [ exact Hnd | ]. split; [ reflexivity | ].
  split; [ vm_compute; reflexivity | ].
  apply (resolveMarket_settles Scenario.config 2000 Scenario.resolve_A
           Scenario.imported Scenario.resolved_market Hnd);
    [ reflexivity | vm_compute; reflexivity ].
Defined.

(** X16, witness: u1 holds one bet, of 10 on A, of the market with 40 on
    A, resolved in favour of A. *)
Lemma resolveMarket_credits_single_winner_witness :
  Table.get Market.id (markets (storage Sample.two_bettors)) "mkt_r"
    = Some Scenario.resolved_market /\
  validateResolveMarket Scenario.resolve_A Scenario.resolved_market
    = Ok tt /\
  balance_of Scenario.config
    (state_after (resolveMarket Scenario.config 2000 Scenario.resolve_A)
       Sample.two_bettors) "u1"
  = balance_of Scenario.config Sample.two_bettors "u1"
    + (if Num.ltb 0
            (Num.or0
               (JsMap.get
                  (calculatePayouts Scenario.resolved_market "A"
                     (map stake_of
                        (bets_of_market "mkt_r"
                           (bets (storage Sample.two_bettors)))))
                  "u1"))
       then Num.or0
              (JsMap.get
                 (calculatePayouts Scenario.resolved_market "A"
                    (map stake_of
                       (bets_of_market "mkt_r"
                          (bets (storage Sample.two_bettors)))))
                 "u1")
       else 0).
Proof.
  split; [ reflexivity | ]. split; [ vm_compute; reflexivity | ].
  apply (resolveMarket_credits_single_winner Scenario.config 2000
           Scenario.resolve_A Sample.two_bettors Scenario.resolved_market
           "u1" Sample.first_bet);
    [ reflexivity | vm_compute; reflexivity | reflexivity ].
Defined.


(** X22, witness: the sweep at time 2000 of the storage after create and
    bet, whose market closes at 1000. *)
Lemma checkAndCloseExpiredMarkets_spec_witness :
  NoDup (map Market.id (markets (storage Scenario.placed))) /\
  result_of (checkAndCloseExpiredMarkets 2000)
    (state_after (checkAndCloseExpiredMarkets 2000) Scenario.placed)
  = Ok [] /\
  status_in (state_after (checkAndCloseExpiredMarkets 2000) Scenario.placed)
    "mkt_1" = Some CLOSED.
Proof.
  pose proof (proj1 scenario_keys_unique) as Hnd.
  split; [ exact Hnd | ]. split.
  - apply (checkAndCloseExpiredMarkets_spec 2000 Scenario.placed Hnd).
  - vm_compute. reflexivity.
Defined.



(** X25, witness: the account of u1 after the bet of 10. *)
Lemma reachable_totalLost_never_written_witness :
  reachable Scenario.config Scenario.placed /\
  exists u,
    Table.get User.id (users (storage Scenario.placed)) "u1" = Some u /\
    User.totalLost u = 0.
Proof.
  split; [ apply scenario_reachable_placed | ].
  destruct (Table.get User.id (users (storage Scenario.placed)) "u1")
    as [u | ] eqn:E; [ | vm_compute in E; discriminate E ].
  exists u. split; [ reflexivity | ].
  apply (reachable_totalLost_never_written Scenario.config Scenario.placed
           "u1" u scenario_reachable_placed E).
Defined.


(** X28, witness: cancelling the market after create and bet keeps its
    terms. *)
Lemma step_keeps_market_terms_witness :
  reachable Scenario.config Scenario.placed /\
  step Scenario.config Scenario.placed Scenario.cancelled /\
  Scenario.cancelled <> state_after clear Scenario.placed /\
  exists m m',
    Table.get Market.id (markets (storage Scenario.placed)) "mkt_1"
      = Some m /\
    Table.get Market.id (markets (storage Scenario.cancelled)) "mkt_1"
      = Some m' /\
    market_terms m' = market_terms m.
Proof.
  assert (Hstep : step Scenario.config Scenario.placed Scenario.cancelled)
    by apply (step_cancelMarket Scenario.config Scenario.placed 2 "mkt_1"
                None).
  assert (Hne : Scenario.cancelled <> state_after clear Scenario.placed).
  { intros H.
    apply (f_equal (fun s => length (markets (storage s)))) in H.
    vm_compute in H. discriminate H. }
  split; [ apply scenario_reachable_placed | ].
  split; [ exact Hstep | ]. split; [ exact Hne | ].
  destruct (Table.get Market.id (markets (storage Scenario.placed)) "mkt_1")
    as [m | ] eqn:E; [ | vm_compute in E; discriminate E ].
  destruct (step_keeps_market_terms Scenario.config Scenario.placed
              Scenario.cancelled "mkt_1" m scenario_reachable_placed Hstep
              Hne E) as (m' & Hget & Hterms).
  exists m, m'. repeat split; assumption.
Defined.

(* ================================================================== *)
(** * Properties over binary64 *)

(** ** Numbers *)

Lemma Qfloor_half_bounds (q : Q) :
  Qle (Qminus (inject_Z (F64.nearest_up q)) (Qmake 1 2)) q /\
  Qlt q (Qplus (inject_Z (F64.nearest_up q)) (Qmake 1 2)).
Proof.
  unfold F64.nearest_up.
  pose proof (Qfloor_le (Qplus q (Qmake 1 2))) as Hlo.
  pose proof (Qlt_floor (Qplus q (Qmake 1 2))) as Hhi.
  rewrite inject_Z_plus in Hhi.
  change (inject_Z 1) with (Qmake 1 1) in Hhi.
  split; lra.
Qed.

(** [Math.round] of a finite double is a nearest integer, a tie going
    up. *)
Lemma Math_round_nearest (x : F64.t) :
  F64.is_finite x = true -> nearest_integer x (F64.Math_round x).
Proof.
  destruct x as [s | s | | s m e]; try discriminate; intros _.
  - exists 0%Z. cbn. repeat split; try (unfold Qle, Qlt; cbn; lia).
    destruct s; [ right; split; reflexivity | left; reflexivity ].
  - exists (F64.nearest_up (F64.to_Q (S754_finite s m e))).
    destruct (Qfloor_half_bounds (F64.to_Q (S754_finite s m e))) as [Hlo Hhi].
    split; [ exact Hlo | ]. split; [ exact Hhi | ].
    unfold F64.Math_round.
    destruct (F64.nearest_up (F64.to_Q (S754_finite s m e)) =? 0)%Z eqn:E.
    + apply Z.eqb_eq in E. rewrite E.
      destruct s; [ right; split; reflexivity | left; reflexivity ].
    + left. reflexivity.
Qed.

(** ** utils/odds.ts over binary64 *)

(** C6 (as amended). [calculateOdds] keeps the number and order of the
    outcomes and, for the outcome at any index: id, label, totalBets and
    betCount are unchanged; when the outcome has no stake or the pool is
    empty, odds is the number of outcomes and probability is one over
    that number; otherwise odds is
    [Math.round(q * 100) / 100] for the binary64 quotient
    [q = (totalPool - totalPool * feeRate) / totalBets] and probability is
    [Math.round(p * 1000) / 1000] for the binary64 quotient
    [p = totalBets / totalPool]: when the product is finite, the integer
    nearest to the double [q * 100] (resp. [p * 1000]), a tie going up,
    divided by 100 (resp. 1000).  It is the product as computed in
    binary64 that is rounded, not the exact quotient. *)
Theorem calculateOdds_binary64_spec (market : Binary64.Market.t) (i : nat)
  (outcome : Binary64.MarketOutcome.t) :
  nth_error (Binary64.Market.outcomes market) i = Some outcome ->
  let n := F64.of_nat (length (Binary64.Market.outcomes market)) in
  let totalPool := Binary64.Market.totalPool market in
  let payoutPool :=
    F64.sub totalPool (F64.mul totalPool (Binary64.Market.feeRate market)) in
  let q := F64.div payoutPool (Binary64.MarketOutcome.totalBets outcome) in
  let p := F64.div (Binary64.MarketOutcome.totalBets outcome) totalPool in
  length (Binary64.calculateOdds market)
  = length (Binary64.Market.outcomes market) /\
  exists o' : Binary64.MarketOutcome.t,
    nth_error (Binary64.calculateOdds market) i = Some o' /\
    outcome_stake o' = outcome_stake outcome /\
    (F64.eqb (Binary64.MarketOutcome.totalBets outcome) F64.zero = true \/
     F64.eqb totalPool F64.zero = true ->
     Binary64.MarketOutcome.odds o' = n /\
     Binary64.MarketOutcome.probability o' = F64.div F64.one n) /\
    (F64.eqb (Binary64.MarketOutcome.totalBets outcome) F64.zero = false ->
     F64.eqb totalPool F64.zero = false ->
     Binary64.MarketOutcome.odds o'
     = F64.div (F64.Math_round (F64.mul q F64.hundred)) F64.hundred /\
     Binary64.MarketOutcome.probability o'
     = F64.div (F64.Math_round (F64.mul p F64.thousand)) F64.thousand /\
     (F64.is_finite (F64.mul q F64.hundred) = true ->
      rounded_in_binary64 F64.hundred q (Binary64.MarketOutcome.odds o')) /\
     (F64.is_finite (F64.mul p F64.thousand) = true ->
      rounded_in_binary64 F64.thousand p
        (Binary64.MarketOutcome.probability o'))).
Proof.
  intros Hnth n totalPool payoutPool q p.
  split; [ unfold Binary64.calculateOdds; apply length_map | ].
  unfold Binary64.calculateOdds. rewrite nth_error_map, Hnth.
  cbn [option_map]. fold totalPool.
  destruct (F64.eqb (Binary64.MarketOutcome.totalBets outcome) F64.zero)
    eqn:Etb;
    [ | destruct (F64.eqb totalPool F64.zero) eqn:Etp ];
    cbn [orb];
    (eexists; split; [ reflexivity | ]);
    (split; [ reflexivity | ]);
    cbn [Binary64.MarketOutcome.with_odds Binary64.MarketOutcome.odds
         Binary64.MarketOutcome.probability].
  - split; [ intros _; split; reflexivity | discriminate ].
  - split; [ intros _; split; reflexivity | intros _; discriminate ].
  - split; [ intros [H | H]; discriminate H | ].
    intros _ _. fold payoutPool. fold q. fold p.
    unfold Binary64.round_to.
    split; [ reflexivity | ]. split; [ reflexivity | ].
    split; intros Hfin; eexists; (split; [ | reflexivity ]);
      apply Math_round_nearest; exact Hfin.
Qed.

(** C6, witness: 40 of a pool of 41 are on A, no fee.  The quotient
    41/40 times 100 is the double just below 102.5; odds is 1.02. *)
Lemma calculateOdds_binary64_spec_witness :
  nth_error (Binary64.Market.outcomes Sample64.tie) 0
    = Some Sample64.tie_A /\
  exists o' : Binary64.MarketOutcome.t,
    nth_error (Binary64.calculateOdds Sample64.tie) 0 = Some o' /\
    Binary64.MarketOutcome.odds o' = F64.decimal 102 100 /\
    rounded_in_binary64 F64.hundred
      (F64.div (F64.of_Z 41) (F64.of_Z 40))
      (Binary64.MarketOutcome.odds o').
Proof.
  split; [ reflexivity | ].
  destruct (calculateOdds_binary64_spec Sample64.tie 0 Sample64.tie_A
              eq_refl)
    as (_ & o' & Hnth & _ & _ & Hlive).
  destruct Hlive as (Hodds & _ & Hround & _);
    [ vm_compute; reflexivity | vm_compute; reflexivity | ].
  exists o'. split; [ exact Hnth | ]. split.
  - rewrite Hodds. vm_compute. reflexivity.
  - apply Hround. vm_compute. reflexivity.
Defined.

Lemma nearest_cents_unique (k lo : Z) (x : Q) :
  Qlt (Qminus (inject_Z lo) (Qmake 1 2)) x ->
  Qlt x (Qplus (inject_Z lo) (Qmake 1 2)) ->
  Qle (Qminus (inject_Z k) (Qmake 1 2)) x ->
  Qle x (Qplus (inject_Z k) (Qmake 1 2)) ->
  k = lo.
Proof.
  intros H1 H2 H3 H4.
  assert (Hk1 : Qlt (inject_Z k) (inject_Z (lo + 1))).
  { rewrite inject_Z_plus. change (inject_Z 1) with (Qmake 1 1). lra. }
  assert (Hk2 : Qlt (inject_Z (lo - 1)) (inject_Z k)).
  { unfold Z.sub. rewrite inject_Z_plus.
    change (inject_Z (- (1))) with (Qmake (-1) 1). lra. }
  rewrite <- Zlt_Qlt in Hk1, Hk2. lia.
Qed.

(** C6, counterexample.  With 0.4 of a pool of 0.53 on outcome A and no
    fee, the quotient of pool and stake lies strictly below 1.325, as an
    exact quotient and as the binary64 quotient alike, so 1.32 is its
    rounding to two decimals; the binary64 product by 100 is 132.5 and
    [calculateOdds] returns 1.33.  With 0.08 of a pool of 0.43 the exact
    quotient times 100 lies strictly between 536.5 and 537.5 and
    [calculateOdds] returns 5.38.  And with 40 of a pool of 41 on A the
    exact quotient is 1.025, which [Math.round] would take up to 1.03;
    [calculateOdds] returns 1.02. *)
Lemma calculateOdds_rounds_the_binary64_product :
  (exists o' : Binary64.MarketOutcome.t,
      nth_error (Binary64.calculateOdds Sample64.near) 0 = Some o' /\
      Binary64.MarketOutcome.odds o' = F64.decimal 133 100 /\
      F64.add
        (F64.add F64.zero (Binary64.MarketOutcome.totalBets Sample64.near_A))
        (Binary64.MarketOutcome.totalBets Sample64.near_B)
      = Binary64.Market.totalPool Sample64.near /\
      ~ rounded_exactly 100
          (Qdiv
             (Qmult (F64.to_Q (Binary64.Market.totalPool Sample64.near))
                (Qminus (inject_Z 1)
                   (F64.to_Q (Binary64.Market.feeRate Sample64.near))))
             (F64.to_Q (Binary64.MarketOutcome.totalBets Sample64.near_A)))
          (Binary64.MarketOutcome.odds o') /\
      ~ rounded_exactly 100
          (F64.to_Q
             (F64.div
                (F64.sub (Binary64.Market.totalPool Sample64.near)
                   (F64.mul (Binary64.Market.totalPool Sample64.near)
                      (Binary64.Market.feeRate Sample64.near)))
                (Binary64.MarketOutcome.totalBets Sample64.near_A)))
          (Binary64.MarketOutcome.odds o')) /\
  (exists o' : Binary64.MarketOutcome.t,
      nth_error (Binary64.calculateOdds Sample64.small) 0 = Some o' /\
      Binary64.MarketOutcome.odds o' = F64.decimal 538 100 /\
      ~ rounded_exactly 100
          (Qdiv
             (Qmult (F64.to_Q (Binary64.Market.totalPool Sample64.small))
                (Qminus (inject_Z 1)
                   (F64.to_Q (Binary64.Market.feeRate Sample64.small))))
             (F64.to_Q (Binary64.MarketOutcome.totalBets Sample64.small_A)))
          (Binary64.MarketOutcome.odds o')) /\
  (exists o' : Binary64.MarketOutcome.t,
      nth_error (Binary64.calculateOdds Sample64.tie) 0 = Some o' /\
      Qeq
        (Qdiv
           (Qmult (F64.to_Q (Binary64.Market.totalPool Sample64.tie))
              (Qminus (inject_Z 1)
                 (F64.to_Q (Binary64.Market.feeRate Sample64.tie))))
           (F64.to_Q (Binary64.MarketOutcome.totalBets Sample64.tie_A)))
        (Qmake 1025 1000) /\
      Binary64.MarketOutcome.odds o' = F64.decimal 102 100 /\
      Binary64.MarketOutcome.odds o' <> F64.decimal 103 100).
Proof.
  split; [ | split ].
  - eexists. split; [ reflexivity | ]. split; [ vm_compute; reflexivity | ].
    split; [ vm_compute; reflexivity | ].
    split; intros (k & Hlo & Hhi & Hy);
      (assert (Hk : k = 132%Z);
       [ apply (nearest_cents_unique k 132 _) in Hlo;
         [ exact Hlo | vm_compute; reflexivity | vm_compute; reflexivity
         | exact Hhi ]
       | subst k; vm_compute in Hy; discriminate Hy ]).
  - eexists. split; [ reflexivity | ]. split; [ vm_compute; reflexivity | ].
    intros (k & Hlo & Hhi & Hy).
    assert (Hk : k = 537%Z).
    { apply (nearest_cents_unique k 537 _) in Hlo; [ exact Hlo | | | exact Hhi ].
      - vm_compute. reflexivity.
      - vm_compute. reflexivity. }
    subst k. vm_compute in Hy. discriminate Hy.
  - eexists. split; [ reflexivity | ]. split; [ vm_compute; reflexivity | ].
    split; [ vm_compute; reflexivity | ].
    vm_compute. discriminate.
Qed.

(** ** Comparisons of doubles *)

Lemma SFcompare_antisym (x y : F64.t) :
  SFcompare y x = option_map CompOpp (SFcompare x y).
Proof.
  destruct x as [sx | sx | | sx mx ex], y as [sy | sy | | sy my ey];
    try reflexivity;
    try (destruct sx; reflexivity);
    try (destruct sy; reflexivity);
    try (destruct sx, sy; reflexivity).
  cbn [SFcompare option_map].
  rewrite (Z.compare_antisym ex ey).
  change (Pos.compare_cont Eq my mx) with (Pos.compare my mx).
  change (Pos.compare_cont Eq mx my) with (Pos.compare mx my).
  rewrite (Pos.compare_antisym mx my).
  destruct sx, sy; cbn [CompOpp]; try reflexivity;
    destruct (ex ?= ey)%Z; cbn [CompOpp]; try reflexivity;
    destruct (mx ?= my)%positive; reflexivity.
Qed.

Lemma SFcompare_nan (x y : F64.t) :
  SFcompare x y = None <-> F64.is_nan x = true \/ F64.is_nan y = true.
Proof.
  destruct x as [sx | sx | | sx mx ex], y as [sy | sy | | sy my ey];
    cbn; split; intros H; try discriminate H; try reflexivity;
    try (left; reflexivity); try (right; reflexivity);
    try (destruct H; discriminate);
    try (destruct sx; discriminate H);
    try (destruct sy; discriminate H).
Qed.

(** [x < y] is false exactly when a side is NaN or [y <= x]. *)
Lemma F64_ltb_false (x y : F64.t) :
  F64.ltb x y = false <->
  F64.is_nan x = true \/ F64.is_nan y = true \/ F64.leb y x = true.
Proof.
  unfold F64.ltb, F64.leb, SFltb, SFleb.
  rewrite (SFcompare_antisym x y).
  pose proof (SFcompare_nan x y) as Hnan.
  destruct (SFcompare x y) as [ [ | | ] | ]; cbn [option_map CompOpp];
    split; intros H; try discriminate H; try reflexivity;
    try (right; right; reflexivity).
  - destruct H as [H | [H | H]]; [ | | discriminate H ];
      assert (Hn : None = Some Lt :> option comparison)
        by (symmetry; apply Hnan; tauto); discriminate Hn.
  - destruct (proj1 Hnan eq_refl) as [H' | H']; tauto.
Qed.

(** [x <= y] is false exactly when a side is NaN or [y < x]. *)
Lemma F64_leb_false (x y : F64.t) :
  F64.leb x y = false <->
  F64.is_nan x = true \/ F64.is_nan y = true \/ F64.ltb y x = true.
Proof.
  unfold F64.ltb, F64.leb, SFltb, SFleb.
  rewrite (SFcompare_antisym x y).
  pose proof (SFcompare_nan x y) as Hnan.
  destruct (SFcompare x y) as [ [ | | ] | ]; cbn [option_map CompOpp];
    split; intros H; try discriminate H; try reflexivity;
    try (right; right; reflexivity).
  - destruct H as [H | [H | H]]; [ | | discriminate H ];
      assert (Hn : None = Some Eq :> option comparison)
        by (symmetry; apply Hnan; tauto); discriminate Hn.
  - destruct H as [H | [H | H]]; [ | | discriminate H ];
      assert (Hn : None = Some Lt :> option comparison)
        by (symmetry; apply Hnan; tauto); discriminate Hn.
  - destruct (proj1 Hnan eq_refl) as [H' | H']; tauto.
Qed.

Lemma F64_ltb_not_nan (x y : F64.t) :
  F64.ltb x y = true -> F64.is_nan x = false /\ F64.is_nan y = false.
Proof.
  unfold F64.ltb, SFltb. intros H.
  destruct x as [sx | sx | | sx mx ex], y as [sy | sy | | sy my ey];
    cbn in *; try discriminate H; split; reflexivity.
Qed.

(** Rounding never turns a non-negative mantissa into NaN. *)
Lemma shr_1_nonneg (mrs : shr_record) :
  (0 <= shr_m mrs)%Z -> (0 <= shr_m (shr_1 mrs))%Z.
Proof.
  destruct mrs as [m r s]. cbn [shr_m]. intros Hm.
  destruct m as [ | [ p | p | ] | p ]; cbn; lia.
Qed.

Lemma iter_shr_1_nonneg (p : positive) :
  forall mrs : shr_record,
    (0 <= shr_m mrs)%Z -> (0 <= shr_m (iter_pos shr_1 p mrs))%Z.
Proof.
  induction p as [ p IH | p IH | ]; intros mrs Hm; cbn [iter_pos].
  - apply IH, IH, shr_1_nonneg, Hm.
  - apply IH, IH, Hm.
  - apply shr_1_nonneg, Hm.
Qed.

Lemma shr_fexp_nonneg (m e : Z) (l : location) :
  (0 <= m)%Z -> (0 <= shr_m (fst (shr_fexp F64.prec F64.emax m e l)))%Z.
Proof.
  intros Hm. unfold shr_fexp, shr.
  assert (H0 : (0 <= shr_m (shr_record_of_loc m l))%Z)
    by (destruct l as [ | [ | | ] ]; exact Hm).
  destruct (_ - e)%Z; cbn [fst]; try exact H0.
  apply iter_shr_1_nonneg, H0.
Qed.

Lemma binary_round_aux_not_nan (sx : bool) (mx ex : Z) (lx : location) :
  (0 <= mx)%Z ->
  F64.is_nan (binary_round_aux F64.prec F64.emax sx mx ex lx) = false.
Proof.
  intros Hm. unfold binary_round_aux.
  pose proof (shr_fexp_nonneg mx ex lx Hm) as H1.
  destruct (shr_fexp F64.prec F64.emax mx ex lx) as [mrs' e'].
  cbn [fst] in H1.
  assert (H2 : (0 <= round_nearest_even (shr_m mrs')
                       (loc_of_shr_record mrs'))%Z).
  { unfold round_nearest_even.
    destruct (loc_of_shr_record mrs') as [ | [ | | ] ]; try exact H1.
    - destruct (Z.even (shr_m mrs')); lia.
    - lia. }
  pose proof (shr_fexp_nonneg _ e' loc_Exact H2) as H3.
  destruct (shr_fexp F64.prec F64.emax _ e' loc_Exact) as [mrs'' e''].
  cbn [fst] in H3.
  destruct (shr_m mrs'') as [ | m | m ]; [ reflexivity | | lia ].
  destruct (e'' <=? _)%Z; reflexivity.
Qed.

Lemma of_Z_not_nan (z : Z) : F64.is_nan (F64.of_Z z) = false.
Proof.
  unfold F64.of_Z, binary_normalize.
  destruct z as [ | m | m ]; [ reflexivity | | ];
    unfold binary_round;
    destruct (shl_align _ _ _) as [mz ez];
    apply binary_round_aux_not_nan; lia.
Qed.

(** ** utils/odds.ts over binary64: what calculateOdds reads *)

(** X3. [calculateOdds] reads only the pool, the fee rate and, of each
    outcome, everything but its odds and probability: two markets that
    agree on these get the same outcomes back, whatever odds and
    probabilities they store. *)
Theorem calculateOdds_ignores_stored_odds (m1 m2 : Binary64.Market.t) :
  Binary64.Market.totalPool m1 = Binary64.Market.totalPool m2 ->
  Binary64.Market.feeRate m1 = Binary64.Market.feeRate m2 ->
  map outcome_stake (Binary64.Market.outcomes m1)
  = map outcome_stake (Binary64.Market.outcomes m2) ->
  Binary64.calculateOdds m1 = Binary64.calculateOdds m2.
Proof.
  intros Hpool Hfee Hos.
  assert (Hlen : length (Binary64.Market.outcomes m1)
                 = length (Binary64.Market.outcomes m2)).
  { apply (f_equal (@length _)) in Hos. rewrite !length_map in Hos.
    exact Hos. }
  unfold Binary64.calculateOdds. rewrite Hpool, Hfee, Hlen.
  set (g := fun outcome : Binary64.MarketOutcome.t => _).
  clear Hlen. revert Hos.
  generalize (Binary64.Market.outcomes m2) as os2.
  induction (Binary64.Market.outcomes m1) as [ | o1 r1 IH ];
    intros [ | o2 r2 ]; cbn [map]; try discriminate; [ reflexivity | ].
  intros Hos. injection Hos as Hid Hlabel Htb Hbc Hrest.
  f_equal; [ | apply IH, Hrest ].
  unfold g, Binary64.MarketOutcome.with_odds.
  rewrite Hid, Hlabel, Htb, Hbc. reflexivity.
Qed.

(** X3, witness: the market with 40 of 41 on A, and the same market
    carrying the odds just computed: recomputing changes nothing. *)
Lemma calculateOdds_ignores_stored_odds_witness :
  map outcome_stake
    (Binary64.Market.outcomes
       (Binary64.Market.with_outcomes Sample64.tie
          (Binary64.calculateOdds Sample64.tie)))
  = map outcome_stake (Binary64.Market.outcomes Sample64.tie) /\
  Binary64.Market.outcomes
    (Binary64.Market.with_outcomes Sample64.tie
       (Binary64.calculateOdds Sample64.tie))
  <> Binary64.Market.outcomes Sample64.tie /\
  Binary64.calculateOdds
    (Binary64.Market.with_outcomes Sample64.tie
       (Binary64.calculateOdds Sample64.tie))
  = Binary64.calculateOdds Sample64.tie.
Proof.
  split; [ reflexivity | ]. split; [ vm_compute; discriminate | ].
  apply (calculateOdds_ignores_stored_odds
           (Binary64.Market.with_outcomes Sample64.tie
              (Binary64.calculateOdds Sample64.tie))
           Sample64.tie); reflexivity.
Defined.

(** ** utils/validation.ts over binary64 *)

Lemma F64_zero_not_nan : F64.is_nan F64.zero = false.
Proof. reflexivity. Qed.

Lemma F64_half_not_nan : F64.is_nan F64.half = false.
Proof. reflexivity. Qed.

(** The guard [isNaN(c) || c <= now] of a close time. *)
Lemma closesAt_guard (now : Z) (c : F64.t) :
  F64.is_nan c || F64.leb c (F64.of_Z now) = false <->
  F64.ltb (F64.of_Z now) c = true.
Proof.
  rewrite orb_false_iff, F64_leb_false. split.
  - intros (Hc & [H | [H | H]]); [ congruence | | exact H ].
    rewrite of_Z_not_nan in H. discriminate H.
  - intros H. destruct (F64_ltb_not_nan _ _ H) as [_ Hc].
    split; [ exact Hc | right; right; exact H ].
Qed.

(** The guard [f < 0 || f > 0.5] of a fee rate. *)
Lemma feeRate_guard (f : F64.t) :
  F64.ltb f F64.zero || F64.ltb F64.half f = false <->
  F64.is_nan f = true \/
  (F64.leb F64.zero f = true /\ F64.leb f F64.half = true).
Proof.
  rewrite orb_false_iff, !F64_ltb_false.
  rewrite F64_zero_not_nan, F64_half_not_nan. split.
  - intros ([H1 | [H1 | H1]] & [H2 | [H2 | H2]]);
      try discriminate; tauto.
  - intros [H | [H1 H2]]; tauto.
Qed.

(** The guard [x < 0] of a bet bound. *)
Lemma bound_guard (x : F64.t) :
  F64.ltb x F64.zero = false <->
  F64.is_nan x = true \/ F64.leb F64.zero x = true.
Proof.
  rewrite F64_ltb_false, F64_zero_not_nan. split.
  - intros [H | [H | H]]; try discriminate; tauto.
  - tauto.
Qed.

Lemma validateCreateMarketInput64_decides (now : Z)
  (input : Binary64.CreateMarketInput.t) :
  (Binary64.validateCreateMarketInput now input = Ok tt <->
   acceptable_market_input64 now input) /\
  (Binary64.validateCreateMarketInput now input = Ok tt \/
   error_code (Binary64.validateCreateMarketInput now input)
   = Some INVALID_CONFIG).
Proof.
  unfold Binary64.validateCreateMarketInput, acceptable_market_input64,
    throw.
  destruct input as [q d os c ot fee md ab lo hi];
    cbn [Binary64.CreateMarketInput.question
         Binary64.CreateMarketInput.outcomes
         Binary64.CreateMarketInput.closesAt
         Binary64.CreateMarketInput.feeRate
         Binary64.CreateMarketInput.minBet
         Binary64.CreateMarketInput.maxBet].
  destruct (String.eqb q "") eqn:Eq.
  { apply String.eqb_eq in Eq.
    split; [ split; [ discriminate | tauto ] | right; reflexivity ]. }
  apply String.eqb_neq in Eq.
  destruct (length os <? 2)%nat eqn:El.
  { apply Nat.ltb_lt in El.
    split; [ split; [ discriminate | intros (_ & H & _); lia ]
           | right; reflexivity ]. }
  apply Nat.ltb_ge in El.
  pose proof (closesAt_guard now c) as Hc.
  destruct (F64.is_nan c || F64.leb c (F64.of_Z now)).
  { split; [ split; [ discriminate | ] | right; reflexivity ].
    intros (_ & _ & H & _). apply Hc in H. discriminate H. }
  assert (Hfee :
            match fee with
            | Some f => F64.ltb f F64.zero || F64.ltb F64.half f
            | None => false
            end = false <->
            (forall f, fee = Some f ->
                       F64.is_nan f = true \/
                       (F64.leb F64.zero f = true /\
                        F64.leb f F64.half = true))).
  { destruct fee as [f | ].
    - rewrite feeRate_guard. split.
      + intros H f' [= <-]. exact H.
      + intros H. apply H. reflexivity.
    - split; [ intros _ f [=] | reflexivity ]. }
  destruct (match fee with Some f => _ | None => false end).
  { split; [ split; [ discriminate | ] | right; reflexivity ].
    intros (_ & _ & _ & H & _). apply Hfee in H. discriminate H. }
  assert (Hmm :
            match lo, hi with
            | Some l, Some h => F64.ltb h l
            | _, _ => false
            end = false <->
            (forall l h, lo = Some l -> hi = Some h ->
                         F64.is_nan l = true \/ F64.is_nan h = true \/
                         F64.leb l h = true)).
  { destruct lo as [l | ]; [ destruct hi as [h | ] | ].
    - rewrite F64_ltb_false. split.
      + intros H ? ? [= <-] [= <-]. tauto.
      + intros H. specialize (H l h eq_refl eq_refl). tauto.
    - split; [ intros _ ? ? _ [=] | reflexivity ].
    - split; [ intros _ ? ? [=] | reflexivity ]. }
  destruct (match lo, hi with Some l, Some h => _ | _, _ => false end).
  { split; [ split; [ discriminate | ] | right; reflexivity ].
    intros (_ & _ & _ & _ & H & _). apply Hmm in H. discriminate H. }
  assert (Hlo :
            match lo with Some l => F64.ltb l F64.zero | None => false end
            = false
            <-> (forall l, lo = Some l ->
                           F64.is_nan l = true \/
                           F64.leb F64.zero l = true)).
  { destruct lo as [l | ].
    - rewrite bound_guard. split.
      + intros H ? [= <-]. exact H.
      + intros H. apply H; reflexivity.
    - split; [ intros _ ? [=] | reflexivity ]. }
  destruct (match lo with Some l => _ | None => false end).
  { split; [ split; [ discriminate | ] | right; reflexivity ].
    intros (_ & _ & _ & _ & _ & H & _). apply Hlo in H. discriminate H. }
  assert (Hhi :
            match hi with Some h => F64.ltb h F64.zero | None => false end
            = false
            <-> (forall h, hi = Some h ->
                           F64.is_nan h = true \/
                           F64.leb F64.zero h = true)).
  { destruct hi as [h | ].
    - rewrite bound_guard. split.
      + intros H ? [= <-]. exact H.
      + intros H. apply H; reflexivity.
    - split; [ intros _ ? [=] | reflexivity ]. }
  destruct (match hi with Some h => _ | None => false end).
  { split; [ split; [ discriminate | ] | right; reflexivity ].
    intros (_ & _ & _ & _ & _ & _ & H). apply Hhi in H. discriminate H. }
  split; [ | left; reflexivity ].
  split; [ intros _ | reflexivity ].
  split; [ exact Eq | ]. split; [ exact El | ].
  split; [ apply Hc; reflexivity | ].
  split; [ apply Hfee; reflexivity | ].
  split; [ apply Hmm; reflexivity | ].
  split; [ apply Hlo; reflexivity | apply Hhi; reflexivity ].
Qed.

(** X1. Over binary64, [validateCreateMarketInput] returns exactly on
    the inputs with a non-empty question, at least two outcomes, a close
    time that is a number after the clock, a fee rate (if given) that is
    NaN or lies in [0, 0.5], and bet bounds (if given) each of which is
    NaN or non-negative, with minBet <= maxBet unless one of them is NaN;
    every throw carries the code INVALID_CONFIG.  The range checks are
    comparisons, which NaN fails: only closesAt is tested with isNaN, so
    a NaN fee rate or bet bound is accepted. *)
Theorem validateCreateMarketInput_binary64_spec (now : Z)
  (input : Binary64.CreateMarketInput.t) :
  (Binary64.validateCreateMarketInput now input = Ok tt <->
   acceptable_market_input64 now input) /\
  (Binary64.validateCreateMarketInput now input = Ok tt \/
   error_code (Binary64.validateCreateMarketInput now input)
   = Some INVALID_CONFIG) /\
  (forall q d os c ot md ab,
      q <> EmptyString -> (2 <= length os)%nat ->
      F64.ltb (F64.of_Z now) c = true ->
      Binary64.validateCreateMarketInput now
        (Binary64.CreateMarketInput.mk q d os c ot (Some F64.NaN) md ab
           (Some F64.NaN) (Some F64.NaN))
      = Ok tt).
Proof.
  split; [ apply validateCreateMarketInput64_decides | ].
  split; [ apply validateCreateMarketInput64_decides | ].
  intros q d os c ot md ab Hq Hos Hc.
  apply validateCreateMarketInput64_decides.
  unfold acceptable_market_input64.
  cbn [Binary64.CreateMarketInput.question
       Binary64.CreateMarketInput.outcomes
       Binary64.CreateMarketInput.closesAt
       Binary64.CreateMarketInput.feeRate
       Binary64.CreateMarketInput.minBet
       Binary64.CreateMarketInput.maxBet].
  repeat split; try assumption.
  - intros f [= <-]. left. reflexivity.
  - intros lo hi [= <-] _. left. reflexivity.
  - intros lo [= <-]. left. reflexivity.
  - intros hi [= <-]. left. reflexivity.
Qed.

Lemma find_outcome64_guard (os : list Binary64.MarketOutcome.t)
  (k : string) :
  Binary64.find_outcome os k <> None <->
  exists o, Binary64.find_outcome os k = Some o.
Proof.
  destruct (Binary64.find_outcome os k) as [o | ]; split.
  - intros _. exists o. reflexivity.
  - discriminate.
  - congruence.
  - intros [o [=]].
Qed.

Lemma validatePlaceBet64_decides (now : Z)
  (input : Binary64.placeBetInput.t) (market : Binary64.Market.t) :
  (Binary64.validatePlaceBet now input market = Ok tt <->
   acceptable_bet64 now input market) /\
  (Binary64.validatePlaceBet now input market = Ok tt \/
   error_code (Binary64.validatePlaceBet now input market)
   = Some INVALID_INPUT).
Proof.
  unfold Binary64.validatePlaceBet, acceptable_bet64, throw.
  destruct (MarketStatus_eqb (Binary64.Market.status market) OPEN) eqn:Est;
    cbn [negb].
  2:{ split; [ split; [ discriminate | ] | right; reflexivity ].
      intros (H & _). rewrite H in Est. discriminate Est. }
  assert (Hopen : Binary64.Market.status market = OPEN)
    by (destruct (Binary64.Market.status market); try discriminate Est;
        reflexivity).
  pose proof (F64_ltb_false (Binary64.Market.closesAt market)
                (F64.of_Z now)) as Hc.
  rewrite of_Z_not_nan in Hc.
  destruct (F64.ltb (Binary64.Market.closesAt market) (F64.of_Z now)).
  { split; [ split; [ discriminate | ] | right; reflexivity ].
    intros (_ & H & _).
    assert (H' : true = false) by (apply Hc; tauto). discriminate H'. }
  destruct (Binary64.find_outcome (Binary64.Market.outcomes market)
              (Binary64.placeBetInput.outcomeId input)) as [o | ].
  2:{ split; [ split; [ discriminate | ] | right; reflexivity ].
      intros (_ & _ & H & _). congruence. }
  pose proof (F64_leb_false (Binary64.placeBetInput.amount input)
                F64.zero) as Ha.
  rewrite F64_zero_not_nan in Ha.
  destruct (F64.leb (Binary64.placeBetInput.amount input) F64.zero).
  { split; [ split; [ discriminate | ] | right; reflexivity ].
    intros (_ & _ & _ & H & _).
    assert (H' : true = false) by (apply Ha; tauto). discriminate H'. }
  assert (Hlo :
            match Binary64.Market.minBet market with
            | Some lo => F64.ltb (Binary64.placeBetInput.amount input) lo
            | None => false
            end = false <->
            (forall lo, Binary64.Market.minBet market = Some lo ->
                F64.is_nan (Binary64.placeBetInput.amount input) = true \/
                F64.is_nan lo = true \/
                F64.leb lo (Binary64.placeBetInput.amount input) = true)).
  { destruct (Binary64.Market.minBet market) as [lo | ].
    - rewrite F64_ltb_false. split.
      + intros H ? [= <-]. exact H.
      + intros H. apply H; reflexivity.
    - split; [ intros _ ? [=] | reflexivity ]. }
  destruct (match Binary64.Market.minBet market with
            | Some _ => _ | None => false end).
  { split; [ split; [ discriminate | ] | right; reflexivity ].
    intros (_ & _ & _ & _ & H & _). apply Hlo in H. discriminate H. }
  assert (Hhi :
            match Binary64.Market.maxBet market with
            | Some hi => F64.ltb hi (Binary64.placeBetInput.amount input)
            | None => false
            end = false <->
            (forall hi, Binary64.Market.maxBet market = Some hi ->
                F64.is_nan (Binary64.placeBetInput.amount input) = true \/
                F64.is_nan hi = true \/
                F64.leb (Binary64.placeBetInput.amount input) hi = true)).
  { destruct (Binary64.Market.maxBet market) as [hi | ].
    - rewrite F64_ltb_false. split.
      + intros H ? [= <-]. tauto.
      + intros H. specialize (H hi eq_refl). tauto.
    - split; [ intros _ ? [=] | reflexivity ]. }
  destruct (match Binary64.Market.maxBet market with
            | Some _ => _ | None => false end).
  { split; [ split; [ discriminate | ] | right; reflexivity ].
    intros (_ & _ & _ & _ & _ & H & _). apply Hhi in H. discriminate H. }
  assert (Hal :
            match Binary64.Market.allowedBettors market with
            | Some l =>
                negb (includes l (Binary64.placeBetInput.bettorId input))
            | None => false
            end = false <->
            (forall l, Binary64.Market.allowedBettors market = Some l ->
                       In (Binary64.placeBetInput.bettorId input) l)).
  { destruct (Binary64.Market.allowedBettors market) as [l | ].
    - rewrite negb_false_iff, includes_In. split.
      + intros H ? [= <-]. exact H.
      + intros H. apply H; reflexivity.
    - split; [ intros _ ? [=] | reflexivity ]. }
  destruct (match Binary64.Market.allowedBettors market with
            | Some _ => _ | None => false end).
  { split; [ split; [ discriminate | ] | right; reflexivity ].
    intros (_ & _ & _ & _ & _ & _ & H). apply Hal in H. discriminate H. }
  split; [ | left; reflexivity ].
  split; [ intros _ | reflexivity ].
  split; [ exact Hopen | ].
  split; [ destruct (proj1 Hc eq_refl) as [H | [H | H]];
           [ tauto | discriminate H | tauto ] | ].
  split; [ discriminate | ].
  split; [ destruct (proj1 Ha eq_refl) as [H | [H | H]];
           [ tauto | discriminate H | tauto ] | ].
  split; [ apply Hlo; reflexivity | ].
  split; [ apply Hhi; reflexivity | apply Hal; reflexivity ].
Qed.

(** X2. Over binary64, [validatePlaceBet] returns exactly when the
    market is OPEN, its close time is NaN or not before the clock, the
    outcome exists, the amount is NaN or positive, the amount is not
    below minBet and not above maxBet (if set; a comparison with NaN on
    either side never refuses), and the bettor is on the allowlist (if
    set); every throw carries the code INVALID_INPUT.  In particular an
    amount of NaN passes every check on the amount. *)
Theorem validatePlaceBet_binary64_spec (now : Z)
  (input : Binary64.placeBetInput.t) (market : Binary64.Market.t) :
  (Binary64.validatePlaceBet now input market = Ok tt <->
   acceptable_bet64 now input market) /\
  (Binary64.validatePlaceBet now input market = Ok tt \/
   error_code (Binary64.validatePlaceBet now input market)
   = Some INVALID_INPUT) /\
  (Binary64.validatePlaceBet now input market = Ok tt ->
   Binary64.validatePlaceBet now
     (Binary64.placeBetInput.mk (Binary64.placeBetInput.marketId input)
        (Binary64.placeBetInput.bettorId input)
        (Binary64.placeBetInput.outcomeId input) F64.NaN)
     market = Ok tt).
Proof.
  split; [ apply validatePlaceBet64_decides | ].
  split; [ apply validatePlaceBet64_decides | ].
  intros Hok. apply validatePlaceBet64_decides in Hok.
  apply validatePlaceBet64_decides.
  destruct Hok as (H1 & H2 & H3 & _ & _ & _ & H7).
  unfold acceptable_bet64.
  cbn [Binary64.placeBetInput.outcomeId Binary64.placeBetInput.amount
       Binary64.placeBetInput.bettorId].
  repeat split; try assumption.
  - left. reflexivity.
  - intros lo _. left. reflexivity.
  - intros hi _. left. reflexivity.
Qed.

(** ** utils/odds.ts over binary64: calculatePayouts *)






(** In binary64 the bound of exact arithmetic, half a cent per payout, is
    not kept: with a fee rate of 0.02 and bets of 23 and 25 of one bettor
    on the winning outcome, holding 48 of a pool of 84, the bettor's
    entry is 39.45 + 42.88 as doubles add them, which is above
    84 * (1 - 0.02) plus two half cents and below it plus two cents. *)
Example calculatePayouts_binary64_beyond_half_cents :
  JsMap.get (Binary64.calculatePayouts Sample64.with_fee "A"
               Sample64.with_fee_stakes) "u1"
  = Some (F64.add (F64.decimal 3945 100) (F64.decimal 4288 100)) /\
  Qlt
    (Qplus
       (Qmult (F64.to_Q (Binary64.Market.totalPool Sample64.with_fee))
          (Qminus (inject_Z 1)
             (F64.to_Q (Binary64.Market.feeRate Sample64.with_fee))))
       (Qmake 2 200))
    (F64.to_Q (F64.add (F64.decimal 3945 100) (F64.decimal 4288 100))) /\
  Qlt
    (F64.to_Q (F64.add (F64.decimal 3945 100) (F64.decimal 4288 100)))
    (Qplus
       (Qmult (F64.to_Q (Binary64.Market.totalPool Sample64.with_fee))
          (Qminus (inject_Z 1)
             (F64.to_Q (Binary64.Market.feeRate Sample64.with_fee))))
       (Qmake 2 100)).
Proof.
  split; [ vm_compute; reflexivity | ].
  split; vm_compute; reflexivity.
Qed.
